(** * Verification of the GN backend: path algebra, dependency
      classification and target generation.

    The development embeds the relevant functions of
    [tools/gn/filesystem_utils.cc], [tools/gn/ninja_binary_target_writer.cc]
    and [tools/gn/target_generator.cc] and proves the properties the
    specification states about them.

    Conventions.  A C++ [char] is an [ascii]; a [std::string] used as an
    in-place buffer is a [list ascii] read with [char_at] and written with
    stdpp's list insert; [size_t] indices are [nat] (every decrement in the
    code is guarded, so no wrap-around can happen).  Public entry points take
    and return [string]. *)

From Stdlib Require Import Ascii String Lia Arith.
From stdpp Require Import base option list strings gmap sorting.

Local Open Scope string_scope.
Local Open Scope list_scope.
Local Open Scope nat_scope.

(** ** Characters and buffers *)

(** [std::string::operator[]]: in range the character, at [size()] the
    terminating NUL. *)
Definition char_at (buf : list ascii) (i : nat) : ascii :=
  default Ascii.zero (buf !! i).

(** [std::string::resize(n)]: truncate, or pad with NUL characters. *)
Definition string_resize (n : nat) (buf : list ascii) : list ascii :=
  take n buf ++ replicate (n - length buf) Ascii.zero.

(** Modelled from the spec: [IsSlash] is declared inline in
    [filesystem_utils.h], which is not among the sources.  The callers'
    comments ("as long as they end in a [back]slash", "normalizing to foward
    slash", "we always want to allow backslashes") fix its meaning: a forward
    slash or a backslash. *)
Definition IsSlash (ch : ascii) : bool :=
  Ascii.eqb ch "/" || Ascii.eqb ch "\".

(** ** [NormalizePath] (filesystem_utils.cc) *)

Inductive DotDisposition : Type :=
  | NOT_A_DIRECTORY
  | DIRECTORY_CUR
  | DIRECTORY_UP.

(** [ClassifyAfterDot]: the disposition together with [*consumed_len]. *)
Definition ClassifyAfterDot (path : list ascii) (after_dot : nat)
  : DotDisposition * nat :=
  if after_dot =? length path then (DIRECTORY_CUR, 1)
  else if IsSlash (char_at path after_dot) then (DIRECTORY_CUR, 2)
  else if Ascii.eqb (char_at path after_dot) "." then
    if after_dot + 1 =? length path then (DIRECTORY_UP, 2)
    else if IsSlash (char_at path (after_dot + 1)) then (DIRECTORY_UP, 3)
    else (NOT_A_DIRECTORY, 1)
  else (NOT_A_DIRECTORY, 1).

(** The variables of the rewriting loop.  [is_relative] is set once before
    the loop and is passed separately. *)
Record NormState : Type := MkNormState {
  pathbuf : list ascii;
  top_index : nat;
  dest_i : nat;
  src_i : nat
}.

(** [while (dest_i > 0 && !IsSlash(pathbuf[dest_i - 1])) dest_i--;] *)
Fixpoint find_prev_slash (buf : list ascii) (d : nat) : nat :=
  match d with
  | 0 => 0
  | S d' => if IsSlash (char_at buf d') then d else find_prev_slash buf d'
  end.

(** [pathbuf[dest_i++] = pathbuf[src_i++];] *)
Definition copy_char (st : NormState) : NormState :=
  {| pathbuf := <[dest_i st := char_at (pathbuf st) (src_i st)]> (pathbuf st);
     top_index := top_index st;
     dest_i := dest_i st + 1;
     src_i := src_i st + 1 |}.

(** The [DIRECTORY_UP] case of the switch. *)
Definition directory_up (is_relative : bool) (consumed_len : nat)
    (st : NormState) : NormState :=
  let d1 := if top_index st <? dest_i st then dest_i st - 1 else dest_i st in
  if d1 =? top_index st then
    if is_relative then
      let buf2 := <[d1 + 1 := "."%char]> (<[d1 := "."%char]> (pathbuf st)) in
      if consumed_len =? 3 then
        {| pathbuf := <[d1 + 2 := "/"%char]> buf2;
           top_index := d1 + 3;
           dest_i := d1 + 3;
           src_i := src_i st + consumed_len |}
      else
        {| pathbuf := buf2;
           top_index := d1 + 2;
           dest_i := d1 + 2;
           src_i := src_i st + consumed_len |}
    else
      {| pathbuf := pathbuf st;
         top_index := top_index st;
         dest_i := d1;
         src_i := src_i st + consumed_len |}
  else
    {| pathbuf := pathbuf st;
       top_index := top_index st;
       dest_i := find_prev_slash (pathbuf st) d1;
       src_i := src_i st + consumed_len |}.

(** One iteration of the [for] loop. *)
Definition NormalizePath_body (is_relative : bool) (st : NormState)
  : NormState :=
  let buf := pathbuf st in
  if Ascii.eqb (char_at buf (src_i st)) "." then
    if (src_i st =? 0) || IsSlash (char_at buf (src_i st - 1)) then
      match ClassifyAfterDot buf (src_i st + 1) with
      | (NOT_A_DIRECTORY, _) => copy_char st
      | (DIRECTORY_CUR, consumed_len) =>
          {| pathbuf := buf;
             top_index := top_index st;
             dest_i := dest_i st;
             src_i := src_i st + consumed_len |}
      | (DIRECTORY_UP, consumed_len) => directory_up is_relative consumed_len st
      end
    else copy_char st
  else if IsSlash (char_at buf (src_i st)) then
    if (0 <? src_i st) && IsSlash (char_at buf (src_i st - 1)) then
      {| pathbuf := buf;
         top_index := top_index st;
         dest_i := dest_i st;
         src_i := src_i st + 1 |}
    else
      {| pathbuf := <[dest_i st := "/"%char]> buf;
         top_index := top_index st;
         dest_i := dest_i st + 1;
         src_i := src_i st + 1 |}
  else copy_char st.

(** The loop [for (src_i = top_index; src_i < path->size(); )].  Every
    iteration advances [src_i], so [length path] iterations are enough
    ([NormalizePath_loop_exits] below). *)
Fixpoint NormalizePath_loop (fuel : nat) (is_relative : bool)
    (st : NormState) : NormState :=
  match fuel with
  | 0 => st
  | S fuel' =>
      if src_i st <? length (pathbuf st)
      then NormalizePath_loop fuel' is_relative (NormalizePath_body is_relative st)
      else st
  end.

(** The prologue: [is_relative] and the initial [top_index]. *)
Definition NormalizePath_init (path : list ascii) : bool * nat :=
  if negb (length path =? 0) && Ascii.eqb (char_at path 0) "/" then
    if (1 <? length path) && Ascii.eqb (char_at path 1) "/"
    then (false, 2)
    else (false, 1)
  else (true, 0).

Definition NormalizePath_final (path : list ascii) : NormState :=
  let '(is_relative, top) := NormalizePath_init path in
  NormalizePath_loop (length path) is_relative
    {| pathbuf := path; top_index := top; dest_i := top; src_i := top |}.

Definition NormalizePath_buf (path : list ascii) : list ascii :=
  let st := NormalizePath_final path in
  string_resize (dest_i st) (pathbuf st).

Definition NormalizePath (path : string) : string :=
  string_of_list_ascii (NormalizePath_buf (list_ascii_of_string path)).

(** [EndsWithSlash] (filesystem_utils.cc). *)
Definition EndsWithSlash_buf (s : list ascii) : bool :=
  negb (length s =? 0) && IsSlash (char_at s (length s - 1)).

Definition EndsWithSlash (s : string) : bool :=
  EndsWithSlash_buf (list_ascii_of_string s).

(** [s] repeated [n] times. *)
Fixpoint string_repeat (s : string) (n : nat) : string :=
  match n with
  | 0 => EmptyString
  | S n' => String.append s (string_repeat s n')
  end.

(** ** [InvertDir] and [RebaseSourceAbsolutePath] (filesystem_utils.cc) *)

(** [SourceDir] and [SourceFile] wrap a [std::string]; the functions below
    only use their [value()].  [SourceDir::is_source_absolute] lives in
    [source_dir.h]; the CHECK on [input] in [RebaseSourceAbsolutePath]
    spells the same test out. *)
Definition is_source_absolute (value : list ascii) : bool :=
  (2 <=? length value) && Ascii.eqb (char_at value 0) "/"
    && Ascii.eqb (char_at value 1) "/".

Definition IsSourceAbsolute (value : string) : bool :=
  is_source_absolute (list_ascii_of_string value).

(** [for (i = from; i < value.size(); i++) if (IsSlash(value[i]))
    ret.append("../");] *)
Definition dotdot_slash : list ascii := ["."; "."; "/"]%char.

Definition invert_from (from : nat) (value : list ascii) : list ascii :=
  flat_map (fun c => if IsSlash c then dotdot_slash else []) (drop from value).

Definition InvertDir_buf (value : list ascii) : list ascii :=
  if length value =? 0 then []
  else
    let begin_index :=
      if (1 <? length value) && Ascii.eqb (char_at value 1) "/" then 2 else 1 in
    invert_from begin_index value.

Definition InvertDir (path : string) : string :=
  string_of_list_ascii (InvertDir_buf (list_ascii_of_string path)).

(** The first loop of [RebaseSourceAbsolutePath]; [n] counts the iterations
    that remain, [max_common_length - i]. *)
Fixpoint common_prefix_loop (n i common_prefix_len : nat)
    (input dest : list ascii) : nat :=
  match n with
  | 0 => common_prefix_len
  | S n' =>
      if IsSlash (char_at input i) && IsSlash (char_at dest i)
      then common_prefix_loop n' (i + 1) (i + 1) input dest
      else if negb (Ascii.eqb (char_at input i) (char_at dest i))
      then common_prefix_len
      else common_prefix_loop n' (i + 1) common_prefix_len input dest
  end.

(** [None] is a failed CHECK, which aborts the process. *)
Definition RebaseSourceAbsolutePath_buf (input dest : list ascii)
  : option (list ascii) :=
  if negb (is_source_absolute input) then None
  else if negb (is_source_absolute dest) then None
  else
    let max_common_length := Nat.min (length input) (length dest) in
    let common_prefix_len :=
      common_prefix_loop (max_common_length - 2) 2 2 input dest in
    let ret := invert_from common_prefix_len dest ++ drop common_prefix_len input in
    Some (if length ret =? 0 then ["."%char] else ret).

Definition RebaseSourceAbsolutePath (input dest_dir : string) : option string :=
  string_of_list_ascii <$>
    RebaseSourceAbsolutePath_buf (list_ascii_of_string input)
                                 (list_ascii_of_string dest_dir).

(** ** [MakeAbsolutePathRelativeIfPossible] (filesystem_utils.cc) *)

(** The host platform selects one of the two bodies at compile time
    ([#if defined(OS_WIN)]). *)
Inductive HostOS : Type := HOST_POSIX | HOST_WIN.

Definition IsPathAbsolute (host : HostOS) (path : list ascii) : bool :=
  if length path =? 0 then false
  else if negb (IsSlash (char_at path 0)) then
    match host with
    | HOST_WIN =>
        (2 <? length path) && Ascii.eqb (char_at path 1) ":"
          && IsSlash (char_at path 2)
    | HOST_POSIX => false
    end
  else if (1 <? length path) && Ascii.eqb (char_at path 1) "/" then false
  else true.

(** [base::ToLowerASCII]. *)
Definition ToLowerASCII (c : ascii) : ascii :=
  let n := nat_of_ascii c in
  if (65 <=? n) && (n <=? 90) then ascii_of_nat (n + 32) else c.

Definition NormalizeWindowsPathChar (c : ascii) : ascii :=
  if Ascii.eqb c "/" then "\"%char else ToLowerASCII c.

Fixpoint windows_chars_equal (a b : list ascii) : bool :=
  match a, b with
  | [], [] => true
  | x :: a', y :: b' =>
      Ascii.eqb (NormalizeWindowsPathChar x) (NormalizeWindowsPathChar y)
        && windows_chars_equal a' b'
  | _, _ => false
  end.

Definition AreAbsoluteWindowsPathsEqual (a b : list ascii) : bool :=
  if negb (length a =? length b) then false else windows_chars_equal a b.

Definition DoesBeginWindowsDriveLetter (path : list ascii) : bool :=
  if length path <? 3 then false
  else if negb (Ascii.eqb (char_at path 1) ":") then false
  else
    let c := nat_of_ascii (char_at path 0) in
    if negb (((65 <=? c) && (c <=? 90)) || ((97 <=? c) && (c <=? 122)))
    then false
    else if negb (IsSlash (char_at path 2)) then false
    else true.

(** [base::StringPiece::substr(pos, n)]. *)
Definition substr (pos n : nat) (s : list ascii) : list ascii :=
  take n (drop pos s).

(** [while (first_after_slash < path.size() &&
            IsSlash(path[first_after_slash])) first_after_slash++;]
    [n] bounds the iterations by the characters that remain. *)
Fixpoint skip_slashes (n first_after_slash : nat) (path : list ascii) : nat :=
  match n with
  | 0 => first_after_slash
  | S n' =>
      if (first_after_slash <? length path)
           && IsSlash (char_at path first_after_slash)
      then skip_slashes n' (first_after_slash + 1) path
      else first_after_slash
  end.

(** The common tail of both bodies: build ["//" + rest]. *)
Definition make_source_relative (after_common_index : nat) (path : list ascii)
  : list ascii :=
  let first_after_slash :=
    skip_slashes (length path - after_common_index) after_common_index path in
  ["/"; "/"]%char ++ drop first_after_slash path.

(** Returns the [bool] result and the final content of [*dest]. *)
Definition MakeAbsolutePathRelativeIfPossible_buf (host : HostOS)
    (source_root path : list ascii) : bool * list ascii :=
  if length path <? length source_root then (false, [])
  else
    match host with
    | HOST_WIN =>
        if DoesBeginWindowsDriveLetter path then
          if AreAbsoluteWindowsPathsEqual source_root
               (substr 0 (length source_root) path)
          then (true, make_source_relative (length source_root) path)
          else (false, [])
        else if Ascii.eqb (char_at path 0) "/"
                  && (length source_root <=? length path - 1)
                  && DoesBeginWindowsDriveLetter (drop 1 path) then
          if AreAbsoluteWindowsPathsEqual source_root
               (substr 1 (length source_root) path)
          then (true, make_source_relative (length source_root + 1) path)
          else (false, [])
        else (false, [])
    | HOST_POSIX =>
        if bool_decide (substr 0 (length source_root) path = source_root)
        then (true, make_source_relative (length source_root) path)
        else (false, [])
    end.

Definition MakeAbsolutePathRelativeIfPossible (host : HostOS)
    (source_root path : string) : bool * string :=
  let r := MakeAbsolutePathRelativeIfPossible_buf host
             (list_ascii_of_string source_root) (list_ascii_of_string path) in
  (r.1, string_of_list_ascii r.2).

(** ** A stack machine equivalent to the in-place loop

    The rewriting loop never reads a cell it has overwritten, except for the
    look-behind [pathbuf[src_i - 1]], whose slash-ness a write never changes.
    Its behaviour is therefore that of a machine which consumes the unread
    input [a_rest] and pushes onto (or pops from) the output [a_out].  The
    machine is a proof device: [NormalizePath_buf_machine] shows that it
    computes what [NormalizePath_buf] computes. *)

Inductive PrevChar : Type := AtStart | AfterSlash | AfterOther.

Record AState : Type := MkAState {
  a_out : list ascii;
  a_top : nat;
  a_prev : PrevChar;
  a_rest : list ascii
}.

Definition prev_class (buf : list ascii) (src : nat) : PrevChar :=
  if src =? 0 then AtStart
  else if IsSlash (char_at buf (src - 1)) then AfterSlash else AfterOther.

(** The abstraction function from loop states to machine states. *)
Definition abs_state (st : NormState) : AState :=
  {| a_out := take (dest_i st) (pathbuf st);
     a_top := top_index st;
     a_prev := prev_class (pathbuf st) (src_i st);
     a_rest := drop (src_i st) (pathbuf st) |}.

Definition at_boundary (p : PrevChar) : bool :=
  match p with AfterOther => false | _ => true end.

(** [ClassifyAfterDot] on the input that follows the dot. *)
Definition aclassify (r : list ascii) : DotDisposition * nat :=
  match r with
  | [] => (DIRECTORY_CUR, 1)
  | x :: r' =>
      if IsSlash x then (DIRECTORY_CUR, 2)
      else if Ascii.eqb x "." then
        match r' with
        | [] => (DIRECTORY_UP, 2)
        | y :: _ =>
            if IsSlash y then (DIRECTORY_UP, 3) else (NOT_A_DIRECTORY, 1)
        end
      else (NOT_A_DIRECTORY, 1)
  end.

(** The output and the top index after a [DIRECTORY_UP]. *)
Definition aup (is_relative : bool) (consumed_len : nat)
    (out : list ascii) (top : nat) : list ascii * nat :=
  let d1 := if top <? length out then length out - 1 else length out in
  if d1 =? top then
    if is_relative then
      let o := take d1 out ++ ["."; "."]%char
                 ++ (if consumed_len =? 3 then ["/"%char] else []) in
      (o, length o)
    else (take d1 out, top)
  else (take (find_prev_slash out d1) out, top).

(** The look-behind class after a dot segment of [consumed_len] characters:
    a slash was consumed exactly when the segment did not end the input. *)
Definition prev_after_dots (full : nat) (consumed_len : nat) : PrevChar :=
  if consumed_len =? full then AfterSlash else AfterOther.

Definition astep (is_relative : bool) (s : AState) : AState :=
  match a_rest s with
  | [] => s
  | c :: r =>
      let push x p :=
        {| a_out := a_out s ++ [x]; a_top := a_top s;
           a_prev := p; a_rest := r |} in
      if Ascii.eqb c "." then
        if at_boundary (a_prev s) then
          match aclassify r with
          | (NOT_A_DIRECTORY, _) => push c AfterOther
          | (DIRECTORY_CUR, n) =>
              {| a_out := a_out s; a_top := a_top s;
                 a_prev := prev_after_dots 2 n; a_rest := drop (n - 1) r |}
          | (DIRECTORY_UP, n) =>
              let ot := aup is_relative n (a_out s) (a_top s) in
              {| a_out := ot.1; a_top := ot.2;
                 a_prev := prev_after_dots 3 n; a_rest := drop (n - 1) r |}
          end
        else push c AfterOther
      else if IsSlash c then
        match a_prev s with
        | AfterSlash =>
            {| a_out := a_out s; a_top := a_top s;
               a_prev := AfterSlash; a_rest := r |}
        | _ => push "/"%char AfterSlash
        end
      else push c AfterOther
  end.

Fixpoint arun (fuel : nat) (is_relative : bool) (s : AState) : AState :=
  match fuel with
  | 0 => s
  | S fuel' =>
      match a_rest s with
      | [] => s
      | _ :: _ => arun fuel' is_relative (astep is_relative s)
      end
  end.

(** The machine run to the end of its input. *)
Definition aexec (is_relative : bool) (s : AState) : list ascii :=
  a_out (arun (length (a_rest s)) is_relative s).

(** ** Segments and normal forms *)

Definition nonslash (w : list ascii) : Prop :=
  Forall (fun c => IsSlash c = false) w.

(** An ordinary path segment: a non-empty name without separators that is
    neither ["."] nor [".."]. *)
Definition ordinary (w : list ascii) : Prop :=
  w ≠ [] ∧ nonslash w ∧ w ≠ ["."%char] ∧ w ≠ ["."; "."]%char.

(** A last segment without a trailing slash, or none. *)
Definition last_ok (w : list ascii) : Prop := w = [] ∨ ordinary w.

(** [seg1/seg2/.../segk/] *)
Definition join (segs : list (list ascii)) : list ascii :=
  flat_map (fun s => s ++ ["/"%char]) segs.

(** ["../"] repeated [n] times. *)
Definition ups (n : nat) : list ascii :=
  concat (replicate n dotdot_slash).

(** The shapes of a normalized path. *)
Inductive NF : list ascii → Prop :=
  | NF_root1 segs last :
      Forall ordinary segs → last_ok last →
      NF ("/"%char :: join segs ++ last)
  | NF_root2 segs last :
      Forall ordinary segs → last_ok last →
      NF ("/"%char :: "/"%char :: join segs ++ last)
  | NF_ups n segs last :
      Forall ordinary segs → last_ok last →
      NF (ups n ++ join segs ++ last)
  | NF_dotdot n :
      NF (ups n ++ ["."; "."]%char).

(** The number of separators in a path. *)
Definition count_slashes (l : list ascii) : nat :=
  length (filter (fun c => IsSlash c = true) l).

(** The machine started in a given configuration. *)
Abbreviation M rel out top prev rest :=
  (aexec rel {| a_out := out; a_top := top; a_prev := prev; a_rest := rest |}).

(** The input that may follow a segment: nothing, or a separator. *)
Definition seg_end (r : list ascii) : Prop :=
  r = [] ∨ ∃ s r', r = s :: r' ∧ IsSlash s = true.

(** An output that is empty or ends in a separator. *)
Definition slash_ended (X : list ascii) : Prop :=
  X = [] ∨ ∃ X' s, X = X' ++ [s] ∧ IsSlash s = true.

(** The machine configurations at a segment boundary: the output is a root
    (or a run of preserved ["../"]) followed by whole ordinary segments. *)
Inductive Bnd : bool → list ascii → nat → PrevChar → Prop :=
  | Bnd_abs root segs :
      root = ["/"%char] ∨ root = ["/"; "/"]%char →
      Forall ordinary segs →
      Bnd false (root ++ join segs) (length root) AfterSlash
  | Bnd_start :
      Bnd true [] 0 AtStart
  | Bnd_ups n segs :
      Forall ordinary segs →
      Bnd true (ups n ++ join segs) (3 * n) AfterSlash
  | Bnd_slash segs :
      Forall ordinary segs →
      Bnd true ("/"%char :: join segs) 0 AfterSlash.

(** A path whose separators are all forward slashes. *)
Definition fwd_only (l : list ascii) : Prop :=
  Forall (fun c => IsSlash c = true → c = "/"%char) l.

(** ** Targets and settings (target.h) *)

(** [Target::OutputType]. *)
Inductive OutputType : Type :=
  | UNKNOWN
  | GROUP
  | EXECUTABLE
  | SHARED_LIBRARY
  | STATIC_LIBRARY
  | SOURCE_SET
  | COPY_FILES
  | CUSTOM.

#[global] Instance OutputType_eq_dec : EqDecision OutputType.
Proof. solve_decision. Defined.

(** [Settings::TargetOS]; the enumeration is declared in [settings.h], the
    functions below name its members [MAC], [WIN] and [LINUX] and have a
    [default] case for the remaining one. *)
Module Settings.
Inductive TargetOS : Type := UNKNOWN | LINUX | MAC | WIN.
End Settings.

#[global] Instance TargetOS_eq_dec : EqDecision Settings.TargetOS.
Proof. solve_decision. Defined.

(** [SourceFileType]; the members [GetSourceFileType] can return. *)
Inductive SourceFileType : Type :=
  | SOURCE_UNKNOWN
  | SOURCE_C
  | SOURCE_CC
  | SOURCE_H
  | SOURCE_M
  | SOURCE_MM
  | SOURCE_RC
  | SOURCE_S.

#[global] Instance SourceFileType_eq_dec : EqDecision SourceFileType.
Proof. solve_decision. Defined.

(** [SourceFile] and [OutputFile] wrap a string. *)
Definition SourceFile : Type := string.
Definition OutputFile : Type := string.

(** A [const Target*]. *)
Definition TargetPtr : Type := positive.

(** The part of [Settings] the writer reads. *)
Record SettingsView : Type := MkSettings {
  target_os : Settings.TargetOS
}.

(** The members of [Target] the writer reads.  Dependency edges hold
    pointers; [inherited_libraries] is a [std::set<const Target*>]. *)
Record Target : Type := MkTarget {
  output_type : OutputType;
  output_extension : string;
  sources : list SourceFile;
  data : list SourceFile;
  deps : list TargetPtr;
  datadeps : list TargetPtr;
  inherited_libraries : gset TargetPtr;
  settings : SettingsView
}.

(** ** [GetExtensionForOutputType] and [GetSourceFileType]
       (filesystem_utils.cc) *)

(** [NOTREACHED()] is a debug assertion; execution continues to the final
    [return ""]. *)
Definition GetExtensionForOutputType (type : OutputType)
    (os : Settings.TargetOS) : string :=
  match os with
  | Settings.MAC =>
      match type with
      | EXECUTABLE => ""
      | SHARED_LIBRARY => "dylib"
      | STATIC_LIBRARY => "a"
      | _ => ""
      end
  | Settings.WIN =>
      match type with
      | EXECUTABLE => "exe"
      | SHARED_LIBRARY => "dll.lib"
      | STATIC_LIBRARY => "lib"
      | _ => ""
      end
  | Settings.LINUX =>
      match type with
      | EXECUTABLE => ""
      | SHARED_LIBRARY => "so"
      | STATIC_LIBRARY => "a"
      | _ => ""
      end
  | _ => ""
  end.

(** Modelled from the spec: the choice between the [output_extension]
    attribute and the platform default is made in
    [NinjaHelper::GetTargetOutputFile] (ninja_helper.cc, not among the
    sources); "the explicit output_extension attribute, when non-empty,
    overrides the table". *)
Definition TargetOutputExtension (t : Target) : string :=
  if String.eqb (output_extension t) "" then
    GetExtensionForOutputType (output_type t) (target_os (settings t))
  else output_extension t.

(** [for (int i = path.size(); i >= 0; i--)] of [FindExtensionOffset];
    [None] is [std::string::npos]. *)
Fixpoint FindExtensionOffset_from (path : list ascii) (i : nat) : option nat :=
  if IsSlash (char_at path i) then None
  else if Ascii.eqb (char_at path i) "." then Some (i + 1)
  else match i with
       | 0 => None
       | S i' => FindExtensionOffset_from path i'
       end.

Definition FindExtensionOffset (path : list ascii) : option nat :=
  FindExtensionOffset_from path (length path).

Definition FindExtension (path : string) : string :=
  match FindExtensionOffset (list_ascii_of_string path) with
  | None => ""
  | Some extension_offset =>
      string_of_list_ascii (drop extension_offset (list_ascii_of_string path))
  end.

Definition GetSourceFileType (file : SourceFile) (os : Settings.TargetOS)
  : SourceFileType :=
  let extension := FindExtension file in
  if String.eqb extension "cc" || String.eqb extension "cpp"
       || String.eqb extension "cxx" then SOURCE_CC
  else if String.eqb extension "h" then SOURCE_H
  else if String.eqb extension "c" then SOURCE_C
  else
    let by_os :=
      match os with
      | Settings.MAC =>
          if String.eqb extension "m" then Some SOURCE_M
          else if String.eqb extension "mm" then Some SOURCE_MM
          else None
      | Settings.WIN =>
          if String.eqb extension "rc" then Some SOURCE_RC else None
      | _ => None
      end in
    match by_os with
    | Some t => t
    | None =>
        if negb (bool_decide (os = Settings.WIN)) && String.eqb extension "S"
        then SOURCE_S
        else SOURCE_UNKNOWN
    end.

(** ** Dependency classification (ninja_binary_target_writer.cc) *)

(** The three out-parameters of [GetDeps]. *)
Record DepBuckets : Type := MkDepBuckets {
  extra_object_files : gset OutputFile;
  linkable_deps : list TargetPtr;
  non_linkable_deps : list TargetPtr
}.

(** Iteration over a [std::set<const Target*>]: ascending addresses. *)
Definition set_iteration (s : gset TargetPtr) : list TargetPtr :=
  merge_sort Pos.le (elements s).

(** The end-of-line written by [std::endl]. *)
Definition endl : string := String (ascii_of_nat 10) EmptyString.

Section Writer.
(** The resolved target graph: what a [const Target*] points to. *)
Variable deref : TargetPtr → Target.

(** [Target::IsLinkable] is defined in target.cc, which is not among the
    sources; the writer only calls it. *)
Variable IsLinkable : Target → bool.

(** [NinjaHelper] and [PathOutput] (ninja_helper.cc, path_output.cc) are
    not among the sources either; the writer uses them as follows. *)
Variable GetOutputFileForSource
  : Target → SourceFile → SourceFileType → OutputFile.
Variable GetTargetOutputFile : Target → OutputFile.
Variable GetRulePrefix : SettingsView → string.
Variable GetRuleForSourceType : SettingsView → SourceFileType → string.
(** The text [PathOutput::WriteFile] writes for a file. *)
Variable WriteFile : string → string.

(** The object files a linking target takes from a source-set [dep]:
    the loop in the source-set branch of [ClassifyDependency]. *)
Definition source_set_objects (dep : Target) : list OutputFile :=
  omap (fun src =>
          let input_file_type :=
            GetSourceFileType src (target_os (settings dep)) in
          if negb (bool_decide (input_file_type = SOURCE_UNKNOWN))
               && negb (bool_decide (input_file_type = SOURCE_H))
          then Some (GetOutputFileForSource dep src input_file_type)
          else None)
       (sources dep).

Definition ClassifyDependency (target_ : Target) (dep : TargetPtr)
    (b : DepBuckets) : DepBuckets :=
  let can_link_libs :=
    bool_decide (output_type target_ = EXECUTABLE)
      || bool_decide (output_type target_ = SHARED_LIBRARY) in
  if bool_decide (output_type (deref dep) = SOURCE_SET) then
    if bool_decide (output_type target_ = SOURCE_SET) then
      {| extra_object_files := extra_object_files b;
         linkable_deps := linkable_deps b;
         non_linkable_deps := non_linkable_deps b ++ [dep] |}
    else
      {| extra_object_files :=
           extra_object_files b
             ∪ list_to_set (source_set_objects (deref dep));
         linkable_deps := linkable_deps b;
         non_linkable_deps := non_linkable_deps b |}
  else if can_link_libs && IsLinkable (deref dep) then
    {| extra_object_files := extra_object_files b;
       linkable_deps := linkable_deps b ++ [dep];
       non_linkable_deps := non_linkable_deps b |}
  else
    {| extra_object_files := extra_object_files b;
       linkable_deps := linkable_deps b;
       non_linkable_deps := non_linkable_deps b ++ [dep] |}.

(** The three loops of [GetDeps], starting from empty out-parameters. *)
Definition GetDeps (target_ : Target) : DepBuckets :=
  let inherited := inherited_libraries target_ in
  let b0 := {| extra_object_files := ∅; linkable_deps := [];
               non_linkable_deps := [] |} in
  (* Normal deps. *)
  let b1 :=
    foldl (fun b dep =>
             if bool_decide (dep ∈ inherited) then b  (* Don't add dupes. *)
             else ClassifyDependency target_ dep b)
          b0 (deps target_) in
  (* Inherited libraries. *)
  let b2 :=
    foldl (fun b dep => ClassifyDependency target_ dep b)
          b1 (set_iteration inherited) in
  (* Data deps. *)
  {| extra_object_files := extra_object_files b2;
     linkable_deps := linkable_deps b2;
     non_linkable_deps := non_linkable_deps b2 ++ datadeps target_ |}.

(** Each file preceded by a space: the loops
    [out_ << " "; path_output_.WriteFile(out_, ...)]. *)
Definition write_files (files : list string) : string :=
  foldr (fun f acc => String.append " " (String.append (WriteFile f) acc))
        "" files.

Definition WriteImplicitDependencies (target_ : Target)
    (non_linkable : list TargetPtr) : string :=
  if negb (length non_linkable =? 0) || negb (length (data target_) =? 0)
  then
    String.append " ||"
      (String.append
         (write_files
            (map (fun d => GetTargetOutputFile (deref d)) non_linkable))
         (write_files (data target_)))
  else "".

(** [WriteSources]: the object files collected for the target's own
    sources (the second component) and the text written. *)
Definition own_object_files (target_ : Target) : list OutputFile :=
  omap (fun input_file =>
          let input_file_type :=
            GetSourceFileType input_file (target_os (settings target_)) in
          if bool_decide (input_file_type = SOURCE_UNKNOWN) then None
          else if String.eqb
                    (GetRuleForSourceType (settings target_) input_file_type)
                    ""
          then None
          else Some (GetOutputFileForSource target_ input_file
                       input_file_type))
       (sources target_).

(** [WriteSourceSetStamp].  [None] is a failed
    [DCHECK(extra_object_files.empty())]. *)
Definition WriteSourceSetStamp (target_ : Target)
    (object_files : list OutputFile) : option string :=
  let b := GetDeps target_ in
  if bool_decide (extra_object_files b = ∅) then
    Some (String.append "build "
           (String.append (WriteFile (GetTargetOutputFile target_))
             (String.append ": "
               (String.append (GetRulePrefix (settings target_))
                 (String.append "stamp"
                   (String.append (write_files object_files)
                     (String.append
                        (WriteImplicitDependencies target_
                           (non_linkable_deps b))
                        endl)))))))
  else None.

(** *** The classification as the specification words it *)

Inductive DepBucket : Type :=
  | Linkable
  | NonLinkable
  | SourceSetExpanded.

Definition classify_dep (t dep : Target) : DepBucket :=
  if bool_decide (output_type dep = SOURCE_SET) then
    if bool_decide (output_type t = SOURCE_SET) then NonLinkable
    else SourceSetExpanded
  else if (bool_decide (output_type t = EXECUTABLE)
             || bool_decide (output_type t = SHARED_LIBRARY))
            && IsLinkable dep
  then Linkable
  else NonLinkable.

(** The dependencies that are classified: [deps] without those that are
    also inherited, then the inherited libraries. *)
Definition classified_deps (t : Target) : list TargetPtr :=
  filter (fun p => p ∉ inherited_libraries t) (deps t)
    ++ set_iteration (inherited_libraries t).

Definition in_bucket (b : DepBucket) (t : Target) (p : TargetPtr) : Prop :=
  classify_dep t (deref p) = b.

#[global] Instance DepBucket_eq_dec : EqDecision DepBucket.
Proof. solve_decision. Defined.

#[global] Instance in_bucket_dec b t p : Decision (in_bucket b t p).
Proof. unfold in_bucket. apply _. Defined.
End Writer.

(** ** [TargetGenerator::GenerateTarget] (target_generator.cc) *)

(** [Value::Type] and the part of [Value] that [GenerateTarget] reads. *)
Inductive ValueType : Type :=
  | VALUE_NONE
  | VALUE_BOOLEAN
  | VALUE_INTEGER
  | VALUE_STRING
  | VALUE_LIST.

#[global] Instance ValueType_eq_dec : EqDecision ValueType.
Proof. solve_decision. Defined.

Record Value : Type := MkValue {
  value_type : ValueType;
  string_value : string
}.

(** [Label(dir, name, toolchain_dir, toolchain_name)]. *)
Record Label : Type := MkLabel {
  label_dir : string;
  label_name : string;
  label_toolchain_dir : string;
  label_toolchain_name : string
}.

Section Generator.
(** Collaborators that are not among the sources: the evaluated scope, the
    parse node of the call, the target under construction and the
    per-toolchain settings. *)
Variables Scope FunctionCallNode GenTarget GenSettings : Type.

(** [Err]: either no error, or an error located at the node it was built
    from, with a message and a help text. *)
Record Err : Type := MkErr {
  has_error : bool;
  err_origin : option FunctionCallNode;
  err_message : string;
  err_help : string
}.

(** [Err(function_call, msg, help)]. *)
Definition Err_at (function_call : FunctionCallNode) (msg help : string)
  : Err :=
  {| has_error := true; err_origin := Some function_call;
     err_message := msg; err_help := help |}.

Variable GetSourceDir : Scope → string.
Variable ToolchainLabelForScope : Scope → Label.
Variable scope_settings : Scope → GenSettings.
Variable GetUserVisibleName : Label → bool → string.
(** [new Target(settings, label)] and [set_defined_from]. *)
Variable Target_new : GenSettings → Label → GenTarget.
Variable set_defined_from : FunctionCallNode → GenTarget → GenTarget.

(** The names in [functions.h]. *)
Variables kCopy kCustom kExecutable kGroup kSharedLibrary kSourceSet
          kStaticLibrary : string.

(** What a generator's [Run] may change: the scope, the target and
    [*err]. *)
Definition GenState : Type := (Scope * GenTarget * Err)%type.

Variable CopyTargetGenerator_Run : FunctionCallNode → GenState → GenState.
Variable ScriptTargetGenerator_Run : FunctionCallNode → GenState → GenState.
Variable GroupTargetGenerator_Run : FunctionCallNode → GenState → GenState.
Variable BinaryTargetGenerator_Run
  : FunctionCallNode → OutputType → GenState → GenState.

(** [g_scheduler->verbose_logging()]. *)
Variable verbose_logging : bool.

(** Everything [GenerateTarget] can affect: the scope, [*err], the
    scheduler's log, the items handed to [BuildSettings::ItemDefined] and,
    of these, the ones [ItemDefined] passed on to the callback. *)
Record GenWorld : Type := MkGenWorld {
  w_scope : Scope;
  w_err : Err;
  w_log : list (string * string);
  w_item_defined : list GenTarget;
  w_callback_runs : list GenTarget
}.

(** [BuildSettings::ItemDefined] (build_settings.cc);
    [callback_is_null] is [item_defined_callback_.is_null()]. *)
Definition ItemDefined (callback_is_null : bool) (item : GenTarget)
    (w : GenWorld) : GenWorld :=
  {| w_scope := w_scope w;
     w_err := w_err w;
     w_log := w_log w;
     w_item_defined := w_item_defined w ++ [item];
     w_callback_runs :=
       if callback_is_null then w_callback_runs w
       else w_callback_runs w ++ [item] |}.

(** The [if]/[else if] chain that selects the generator. *)
Definition run_generator (function_call : FunctionCallNode)
    (output_type : string) (g : GenState) : GenState :=
  if String.eqb output_type kCopy then
    CopyTargetGenerator_Run function_call g
  else if String.eqb output_type kCustom then
    ScriptTargetGenerator_Run function_call g
  else if String.eqb output_type kExecutable then
    BinaryTargetGenerator_Run function_call EXECUTABLE g
  else if String.eqb output_type kGroup then
    GroupTargetGenerator_Run function_call g
  else if String.eqb output_type kSharedLibrary then
    BinaryTargetGenerator_Run function_call SHARED_LIBRARY g
  else if String.eqb output_type kSourceSet then
    BinaryTargetGenerator_Run function_call SOURCE_SET g
  else if String.eqb output_type kStaticLibrary then
    BinaryTargetGenerator_Run function_call STATIC_LIBRARY g
  else
    (g.1.1, g.1.2,
     Err_at function_call "Not a known output type" "I am very confused.").

Definition GenerateTarget (callback_is_null : bool)
    (function_call : FunctionCallNode) (args : list Value)
    (output_type : string) (w : GenWorld) : GenWorld :=
  match args with
  | [arg0] =>
      if bool_decide (value_type arg0 = VALUE_STRING) then
        let toolchain_label := ToolchainLabelForScope (w_scope w) in
        let label :=
          {| label_dir := GetSourceDir (w_scope w);
             label_name := string_value arg0;
             label_toolchain_dir := label_dir toolchain_label;
             label_toolchain_name := label_name toolchain_label |} in
        let log :=
          if verbose_logging
          then w_log w ++ [("Defining target", GetUserVisibleName label true)]
          else w_log w in
        let target :=
          set_defined_from function_call
            (Target_new (scope_settings (w_scope w)) label) in
        let g := run_generator function_call output_type
                   (w_scope w, target, w_err w) in
        let w' := {| w_scope := g.1.1; w_err := g.2; w_log := log;
                     w_item_defined := w_item_defined w;
                     w_callback_runs := w_callback_runs w |} in
        if negb (has_error g.2)
        then ItemDefined callback_is_null g.1.2 w'
        else w'
      else
        {| w_scope := w_scope w;
           w_err := Err_at function_call
                      "Target generator requires one string argument."
                      "Otherwise I'm not sure what to call this target.";
           w_log := w_log w;
           w_item_defined := w_item_defined w;
           w_callback_runs := w_callback_runs w |}
  | _ =>
      {| w_scope := w_scope w;
         w_err := Err_at function_call
                    "Target generator requires one string argument."
                    "Otherwise I'm not sure what to call this target.";
         w_log := w_log w;
         w_item_defined := w_item_defined w;
         w_callback_runs := w_callback_runs w |}
  end.

(** The argument check of [GenerateTarget], and the seven known kinds. *)
Definition one_string_argument (args : list Value) : bool :=
  match args with
  | [arg0] => bool_decide (value_type arg0 = VALUE_STRING)
  | _ => false
  end.

Definition known_output_type (output_type : string) : bool :=
  String.eqb output_type kCopy || String.eqb output_type kCustom
  || String.eqb output_type kExecutable || String.eqb output_type kGroup
  || String.eqb output_type kSharedLibrary
  || String.eqb output_type kSourceSet
  || String.eqb output_type kStaticLibrary.

(** The target as it leaves the selected generator. *)
Definition generated_target (function_call : FunctionCallNode)
    (args : list Value) (output_type : string) (w : GenWorld) : GenTarget :=
  let toolchain_label := ToolchainLabelForScope (w_scope w) in
  let label :=
    {| label_dir := GetSourceDir (w_scope w);
       label_name := match args with a :: _ => string_value a | [] => "" end;
       label_toolchain_dir := label_dir toolchain_label;
       label_toolchain_name := label_name toolchain_label |} in
  (run_generator function_call output_type
     (w_scope w,
      set_defined_from function_call
        (Target_new (scope_settings (w_scope w)) label),
      w_err w)).1.2.
End Generator.

Arguments has_error {_} _.
Arguments err_origin {_} _.
Arguments err_message {_} _.
Arguments err_help {_} _.
Arguments Err_at {_} _ _ _.
Arguments w_scope {_ _ _} _.
Arguments w_err {_ _ _} _.
Arguments w_log {_ _ _} _.
Arguments w_item_defined {_ _ _} _.
Arguments w_callback_runs {_ _ _} _.

(** ** A small build graph

    The targets of the writer's unit test (a source set [//foo:bar] with two
    sources and a shared library [//foo:shlib] that depends on it, built for
    Windows), with a static library added, and stand-ins for the
    collaborators that are not among the sources.  They instantiate the
    theorems below at concrete inputs. *)

(** Modelled from the spec: [Target::IsLinkable] (target.cc is not among the
    sources); "the dep is linkable (executable-no, shared-library-yes,
    static-library-yes)". *)
Definition IsLinkable_spec (t : Target) : bool :=
  bool_decide (output_type t = STATIC_LIBRARY)
    || bool_decide (output_type t = SHARED_LIBRARY).

Definition example_settings : SettingsView :=
  {| target_os := Settings.WIN |}.

Definition example_bar : Target :=
  {| output_type := SOURCE_SET; output_extension := "";
     sources := ["//foo/input1.cc"; "//foo/input2.cc"]; data := [];
     deps := []; datadeps := []; inherited_libraries := ∅;
     settings := example_settings |}.

Definition example_lib : Target :=
  {| output_type := STATIC_LIBRARY; output_extension := "";
     sources := ["//foo/lib.cc"]; data := [];
     deps := []; datadeps := []; inherited_libraries := ∅;
     settings := example_settings |}.

Definition example_shlib : Target :=
  {| output_type := SHARED_LIBRARY; output_extension := "";
     sources := []; data := [];
     deps := [1%positive; 2%positive]; datadeps := [1%positive];
     inherited_libraries := {[ 2%positive ]};
     settings := example_settings |}.

Definition example_deref (p : TargetPtr) : Target :=
  match p with
  | 1%positive => example_bar
  | 2%positive => example_lib
  | _ => example_shlib
  end.

Definition example_object_file (t : Target) (src : SourceFile)
    (ty : SourceFileType) : OutputFile :=
  String.append src ".obj".

Definition example_output_file (t : Target) : OutputFile :=
  match output_type t with
  | SOURCE_SET => "obj/foo/bar.stamp"
  | STATIC_LIBRARY => "obj/foo/lib.lib"
  | _ => "shlib.dll.lib"
  end.

Definition example_rule_prefix (s : SettingsView) : string := "".

(** Rules for C, C++ and resource files only. *)
Definition example_rule (s : SettingsView) (ty : SourceFileType) : string :=
  match ty with
  | SOURCE_C => "cc"
  | SOURCE_CC => "cxx"
  | SOURCE_RC => "rc"
  | _ => ""
  end.


(** A source set with a header and a text file among its sources, a data
    file, and dependencies of each kind. *)
Definition example_set : Target :=
  {| output_type := SOURCE_SET; output_extension := "";
     sources := ["//foo/a.cc"; "//foo/a.h"; "//foo/notes.txt"];
     data := ["//foo/data.txt"];
     deps := [1%positive; 2%positive]; datadeps := [3%positive];
     inherited_libraries := ∅;
     settings := example_settings |}.

Definition example_write_file (f : string) : string := f.

(** A generator that leaves the scope, the target and the error alone. *)
Definition example_generator_run (fc : nat)
    (g : GenState unit nat Label) : GenState unit nat Label := g.

Definition example_world : GenWorld unit nat Label :=
  {| w_scope := tt;
     w_err := {| has_error := false; err_origin := None;
                 err_message := ""; err_help := "" |};
     w_log := []; w_item_defined := []; w_callback_runs := [] |}.

Definition example_generate (args : list Value) (output_type : string)
  : GenWorld unit nat Label :=
  GenerateTarget unit nat Label unit
    (fun _ => "//foo/") (fun _ => MkLabel "//toolchain/" "default" "" "")
    (fun _ => tt) (fun l _ => label_name l)
    (fun _ l => l) (fun _ t => t)
    "copy" "custom" "executable" "group" "shared_library" "source_set"
    "static_library"
    example_generator_run example_generator_run example_generator_run
    (fun fc _ g => g) false
    false 7 args output_type example_world.

(** ** File names, directories and extensions (filesystem_utils.cc) *)

(** [for (int i = path.size() - 1; i >= 0; i--)] of [FindFilenameOffset];
    [n] is [i + 1]. *)
Fixpoint FindFilenameOffset_from (path : list ascii) (n : nat) : nat :=
  match n with
  | 0 => 0
  | S i =>
      if IsSlash (char_at path i) then i + 1
      else FindFilenameOffset_from path i
  end.

Definition FindFilenameOffset (path : list ascii) : nat :=
  FindFilenameOffset_from path (length path).

Definition FindFilename_buf (path : list ascii) : list ascii :=
  let filename_offset := FindFilenameOffset path in
  if filename_offset =? 0 then path
  else substr filename_offset (length path - filename_offset) path.

Definition FindFilename (path : string) : string :=
  string_of_list_ascii (FindFilename_buf (list_ascii_of_string path)).

Definition FindExtension_buf (path : list ascii) : list ascii :=
  match FindExtensionOffset path with
  | None => []
  | Some extension_offset => drop extension_offset path
  end.

Definition FindFilenameNoExtension_buf (path : list ascii) : list ascii :=
  if length path =? 0 then []
  else
    let filename_offset := FindFilenameOffset path in
    let name_len :=
      match FindExtensionOffset path with
      | None => length path - filename_offset
      | Some extension_offset => extension_offset - filename_offset - 1
      end in
    substr filename_offset name_len path.

Definition FindFilenameNoExtension (path : string) : string :=
  string_of_list_ascii
    (FindFilenameNoExtension_buf (list_ascii_of_string path)).

(** [path->resize(FindFilenameOffset( *path))]. *)
Definition RemoveFilename_buf (path : list ascii) : list ascii :=
  string_resize (FindFilenameOffset path) path.

Definition FindDir_buf (path : list ascii) : list ascii :=
  let filename_offset := FindFilenameOffset path in
  if filename_offset =? 0 then [] else take filename_offset path.

Definition FindDir (path : string) : string :=
  string_of_list_ascii (FindDir_buf (list_ascii_of_string path)).

(** ** [EnsureStringIsInOutputDir] (filesystem_utils.cc) *)

(** [std::string::compare(0, n, other, 0, n) != 0], where [n] is
    [other.length() - 1] computed in [size_t]: for an empty [other] it wraps
    to the largest value and both substrings are the whole strings. *)
Definition compare_prefix_differs (str other : list ascii) : bool :=
  match length other with
  | 0 => negb (bool_decide (str = other))
  | S n => negb (bool_decide (take n str = take n other))
  end.

(** The double-quote character. *)
Definition dquote : string := String (ascii_of_nat 34) EmptyString.

(** Returns the [bool] result and [*err] ([None]: left untouched). *)
Definition EnsureStringIsInOutputDir (dir str : string) (originating : Value)
  : bool * option (Err Value) :=
  if compare_prefix_differs (list_ascii_of_string str)
       (list_ascii_of_string dir)
  then
    (false,
     Some (Err_at originating "File is not inside output directory."
             (String.concat ""
                ["The given file should be in the output directory. Normally you would specify";
                 endl; dquote; "$target_out_dir/foo"; dquote; " or ";
                 dquote; "$target_gen_dir/foo"; dquote;
                 ". I interpreted this as"; endl; dquote; str; dquote; "."])))
  else (true, None).

(** ** [ConvertPathToSystem], [PathToSystem] (filesystem_utils.cc) *)

Definition ConvertPathToSystem_buf (host : HostOS) (path : list ascii)
  : list ascii :=
  match host with
  | HOST_WIN => map (fun c => if Ascii.eqb c "/" then "\"%char else c) path
  | HOST_POSIX => path
  end.

Definition PathToSystem (host : HostOS) (path : string) : string :=
  string_of_list_ascii (ConvertPathToSystem_buf host (list_ascii_of_string path)).

(** ** [DirectoryWithNoLastSlash] (filesystem_utils.cc) *)

Definition DirectoryWithNoLastSlash_buf (dir : list ascii) : list ascii :=
  if length dir =? 0 then []
  else if bool_decide (dir = ["/"%char]) then ["/"; "."]%char
  else if bool_decide (dir = ["/"; "/"]%char) then ["/"; "/"; "."]%char
  else string_resize (length dir - 1) dir.

Definition DirectoryWithNoLastSlash (dir : string) : string :=
  string_of_list_ascii (DirectoryWithNoLastSlash_buf (list_ascii_of_string dir)).

(** ** Output directories (filesystem_utils.cc, build_settings.cc) *)

(** The members of [BuildSettings] and [Settings] the directory functions
    read. *)
Record BuildSettings : Type := MkBuildSettings {
  build_dir : string;
  build_to_source_dir_string : string
}.

Record DirSettings : Type := MkDirSettings {
  build_settings : BuildSettings;
  toolchain_output_subdir : string
}.

(** [BuildSettings::SetBuildDir]. *)
Definition SetBuildDir (d : string) (b : BuildSettings) : BuildSettings :=
  {| build_dir := d; build_to_source_dir_string := InvertDir d |}.

(** [SourceDir(SourceDir::SWAP_IN, &s)].  Modelled from the spec: the
    constructor is defined in [source_dir.cc], which is not among the
    sources; "a source directory value always ends with [/]": the
    constructor takes the string and appends a slash when the string does
    not end in one. *)
Definition SourceDir_SWAP_IN (s : string) : string :=
  if EndsWithSlash s then s else String.append s "/".

Definition GetToolchainOutputDir (s : DirSettings) : string :=
  let toolchain_subdir := toolchain_output_subdir s in
  let result := build_dir (build_settings s) in
  let result :=
    if negb (String.length toolchain_subdir =? 0)
    then String.append result toolchain_subdir
    else result in
  SourceDir_SWAP_IN result.

Definition GetToolchainGenDir (s : DirSettings) : string :=
  let toolchain_subdir := toolchain_output_subdir s in
  let result := build_dir (build_settings s) in
  let result :=
    if negb (String.length toolchain_subdir =? 0)
    then String.append result toolchain_subdir
    else result in
  let result := String.append result "gen/" in
  SourceDir_SWAP_IN result.

(** [&source_dir.value()[2]], [source_dir.value().size() - 2]: the source
    directory without its first two characters. *)
Definition source_dir_tail (source_dir : string) : string :=
  string_of_list_ascii (drop 2 (list_ascii_of_string source_dir)).

(** [None]: the process aborts.  [dcheck_is_on] tells whether [DCHECK]s
    are compiled in (debug builds); then
    [DCHECK(source_dir.is_source_absolute())] aborts for a directory that
    does not begin with two slashes.  In every build a directory of fewer
    than two characters makes the count [size() - 2] wrap around, and
    [append] fails with a length error. *)
Definition GetOutputDirForSourceDir (dcheck_is_on : bool) (s : DirSettings)
    (source_dir : string) : option string :=
  let ret := String.append (GetToolchainOutputDir s) "obj/" in
  if dcheck_is_on && negb (IsSourceAbsolute source_dir) then None
  else if String.length source_dir <? 2 then None
  else Some (SourceDir_SWAP_IN
               (String.append ret (source_dir_tail source_dir))).

Definition GetGenDirForSourceDir (dcheck_is_on : bool) (s : DirSettings)
    (source_dir : string) : option string :=
  let ret := GetToolchainGenDir s in
  if dcheck_is_on && negb (IsSourceAbsolute source_dir) then None
  else if String.length source_dir <? 2 then None
  else Some (SourceDir_SWAP_IN
               (String.append ret (source_dir_tail source_dir))).

(** ** [ScopePerFileProvider] (scope_per_file_provider.cc) *)

(** [Value(NULL, str)]: a string value with no origin. *)
Definition Value_of_string (str : string) : Value :=
  {| value_type := VALUE_STRING; string_value := str |}.

(** The eight lazily filled members; [None] is a null [scoped_ptr]. *)
Record ScopePerFileProvider : Type := MkScopePerFileProvider {
  current_toolchain_ : option Value;
  default_toolchain_ : option Value;
  python_path_ : option Value;
  root_build_dir_ : option Value;
  root_gen_dir_ : option Value;
  root_out_dir_ : option Value;
  target_gen_dir_ : option Value;
  target_out_dir_ : option Value
}.

(** The provider as its constructor leaves it. *)
Definition ScopePerFileProvider_new : ScopePerFileProvider :=
  MkScopePerFileProvider None None None None None None None None.

Section Provider.
(** [base::FilePath], and the conversion of one to UTF-8 (the identity on
    POSIX, [base::WideToUTF8] on Windows). *)
Variable FilePath : Type.
Variable FilePathToUTF8 : FilePath → string.
(** [Label::GetUserVisibleName] (label.cc is not among the sources). *)
Variable GetUserVisibleName : Label → bool → string.
(** Whether [DCHECK]s are compiled in. *)
Variable dcheck_is_on : bool.

(** What the provider reads through [scope_]: the settings, the two
    toolchain labels, the python path and the scope's source directory.
    The scope is read anew at every call. *)
Record ProviderScope : Type := MkProviderScope {
  ps_settings : DirSettings;
  ps_toolchain_label : Label;
  ps_default_toolchain_label : Label;
  ps_python_path : FilePath;
  ps_source_dir : string
}.

(** [GetCurrentOutputDir] and [GetCurrentGenDir] (filesystem_utils.cc);
    [None]: the process aborts. *)
Definition GetCurrentOutputDir (scope : ProviderScope) : option string :=
  GetOutputDirForSourceDir dcheck_is_on (ps_settings scope)
    (ps_source_dir scope).

Definition GetCurrentGenDir (scope : ProviderScope) : option string :=
  GetGenDirForSourceDir dcheck_is_on (ps_settings scope)
    (ps_source_dir scope).

(** Each getter fills its member on first use and returns what the member
    holds. *)
Definition GetCurrentToolchain (scope : ProviderScope)
    (p : ScopePerFileProvider) : Value * ScopePerFileProvider :=
  match current_toolchain_ p with
  | Some v => (v, p)
  | None =>
      let v := Value_of_string
                 (GetUserVisibleName (ps_toolchain_label scope) false) in
      (v, MkScopePerFileProvider (Some v) (default_toolchain_ p)
            (python_path_ p) (root_build_dir_ p) (root_gen_dir_ p)
            (root_out_dir_ p) (target_gen_dir_ p) (target_out_dir_ p))
  end.

Definition GetDefaultToolchain (scope : ProviderScope)
    (p : ScopePerFileProvider) : Value * ScopePerFileProvider :=
  match default_toolchain_ p with
  | Some v => (v, p)
  | None =>
      let v := Value_of_string
                 (GetUserVisibleName (ps_default_toolchain_label scope)
                    false) in
      (v, MkScopePerFileProvider (current_toolchain_ p) (Some v)
            (python_path_ p) (root_build_dir_ p) (root_gen_dir_ p)
            (root_out_dir_ p) (target_gen_dir_ p) (target_out_dir_ p))
  end.

Definition GetPythonPath (scope : ProviderScope)
    (p : ScopePerFileProvider) : Value * ScopePerFileProvider :=
  match python_path_ p with
  | Some v => (v, p)
  | None =>
      let v := Value_of_string (FilePathToUTF8 (ps_python_path scope)) in
      (v, MkScopePerFileProvider (current_toolchain_ p) (default_toolchain_ p)
            (Some v) (root_build_dir_ p) (root_gen_dir_ p)
            (root_out_dir_ p) (target_gen_dir_ p) (target_out_dir_ p))
  end.

Definition GetRootBuildDir (scope : ProviderScope)
    (p : ScopePerFileProvider) : Value * ScopePerFileProvider :=
  match root_build_dir_ p with
  | Some v => (v, p)
  | None =>
      let v := Value_of_string
                 (DirectoryWithNoLastSlash
                    (build_dir (build_settings (ps_settings scope)))) in
      (v, MkScopePerFileProvider (current_toolchain_ p) (default_toolchain_ p)
            (python_path_ p) (Some v) (root_gen_dir_ p)
            (root_out_dir_ p) (target_gen_dir_ p) (target_out_dir_ p))
  end.

Definition GetRootGenDir (scope : ProviderScope)
    (p : ScopePerFileProvider) : Value * ScopePerFileProvider :=
  match root_gen_dir_ p with
  | Some v => (v, p)
  | None =>
      let v := Value_of_string
                 (DirectoryWithNoLastSlash
                    (GetToolchainGenDir (ps_settings scope))) in
      (v, MkScopePerFileProvider (current_toolchain_ p) (default_toolchain_ p)
            (python_path_ p) (root_build_dir_ p) (Some v)
            (root_out_dir_ p) (target_gen_dir_ p) (target_out_dir_ p))
  end.

Definition GetRootOutDir (scope : ProviderScope)
    (p : ScopePerFileProvider) : Value * ScopePerFileProvider :=
  match root_out_dir_ p with
  | Some v => (v, p)
  | None =>
      let v := Value_of_string
                 (DirectoryWithNoLastSlash
                    (GetToolchainOutputDir (ps_settings scope))) in
      (v, MkScopePerFileProvider (current_toolchain_ p) (default_toolchain_ p)
            (python_path_ p) (root_build_dir_ p) (root_gen_dir_ p)
            (Some v) (target_gen_dir_ p) (target_out_dir_ p))
  end.

(** The two getters for the target directories abort ([None]) when the
    directory function does. *)
Definition GetTargetGenDir (scope : ProviderScope)
    (p : ScopePerFileProvider) : option (Value * ScopePerFileProvider) :=
  match target_gen_dir_ p with
  | Some v => Some (v, p)
  | None =>
      match GetCurrentGenDir scope with
      | None => None
      | Some dir =>
          let v := Value_of_string (DirectoryWithNoLastSlash dir) in
          Some (v, MkScopePerFileProvider (current_toolchain_ p)
                     (default_toolchain_ p) (python_path_ p)
                     (root_build_dir_ p) (root_gen_dir_ p)
                     (root_out_dir_ p) (Some v) (target_out_dir_ p))
      end
  end.

Definition GetTargetOutDir (scope : ProviderScope)
    (p : ScopePerFileProvider) : option (Value * ScopePerFileProvider) :=
  match target_out_dir_ p with
  | Some v => Some (v, p)
  | None =>
      match GetCurrentOutputDir scope with
      | None => None
      | Some dir =>
          let v := Value_of_string (DirectoryWithNoLastSlash dir) in
          Some (v, MkScopePerFileProvider (current_toolchain_ p)
                     (default_toolchain_ p) (python_path_ p)
                     (root_build_dir_ p) (root_gen_dir_ p)
                     (root_out_dir_ p) (target_gen_dir_ p) (Some v))
      end
  end.

(** The names in [variables.h]. *)
Variables kCurrentToolchain kDefaultToolchain kPythonPath kRootBuildDir
          kRootGenDir kRootOutDir kTargetGenDir kTargetOutDir : string.

Definition some_value (r : Value * ScopePerFileProvider)
  : option Value * ScopePerFileProvider := (Some r.1, r.2).

(** The outer [None]: the process aborts.  The inner [None] is the [NULL]
    returned for any other identifier. *)
Definition GetProgrammaticValue (scope : ProviderScope) (ident : string)
    (p : ScopePerFileProvider)
  : option (option Value * ScopePerFileProvider) :=
  if String.eqb ident kCurrentToolchain then
    Some (some_value (GetCurrentToolchain scope p))
  else if String.eqb ident kDefaultToolchain then
    Some (some_value (GetDefaultToolchain scope p))
  else if String.eqb ident kPythonPath then
    Some (some_value (GetPythonPath scope p))
  else if String.eqb ident kRootBuildDir then
    Some (some_value (GetRootBuildDir scope p))
  else if String.eqb ident kRootGenDir then
    Some (some_value (GetRootGenDir scope p))
  else if String.eqb ident kRootOutDir then
    Some (some_value (GetRootOutDir scope p))
  else if String.eqb ident kTargetGenDir then
    some_value <$> GetTargetGenDir scope p
  else if String.eqb ident kTargetOutDir then
    some_value <$> GetTargetOutDir scope p
  else Some (None, p).

(** [q] holds every value that [p] holds. *)
Definition provider_extends (p q : ScopePerFileProvider) : Prop :=
  (∀ v, current_toolchain_ p = Some v → current_toolchain_ q = Some v)
  ∧ (∀ v, default_toolchain_ p = Some v → default_toolchain_ q = Some v)
  ∧ (∀ v, python_path_ p = Some v → python_path_ q = Some v)
  ∧ (∀ v, root_build_dir_ p = Some v → root_build_dir_ q = Some v)
  ∧ (∀ v, root_gen_dir_ p = Some v → root_gen_dir_ q = Some v)
  ∧ (∀ v, root_out_dir_ p = Some v → root_out_dir_ q = Some v)
  ∧ (∀ v, target_gen_dir_ p = Some v → target_gen_dir_ q = Some v)
  ∧ (∀ v, target_out_dir_ p = Some v → target_out_dir_ q = Some v).

(** Every value that [p] holds is the one its getter computes from
    [scope]. *)
Definition provider_consistent (scope : ProviderScope)
    (p : ScopePerFileProvider) : Prop :=
  (∀ v, current_toolchain_ p = Some v →
        v = (GetCurrentToolchain scope ScopePerFileProvider_new).1)
  ∧ (∀ v, default_toolchain_ p = Some v →
          v = (GetDefaultToolchain scope ScopePerFileProvider_new).1)
  ∧ (∀ v, python_path_ p = Some v →
          v = (GetPythonPath scope ScopePerFileProvider_new).1)
  ∧ (∀ v, root_build_dir_ p = Some v →
          v = (GetRootBuildDir scope ScopePerFileProvider_new).1)
  ∧ (∀ v, root_gen_dir_ p = Some v →
          v = (GetRootGenDir scope ScopePerFileProvider_new).1)
  ∧ (∀ v, root_out_dir_ p = Some v →
          v = (GetRootOutDir scope ScopePerFileProvider_new).1)
  ∧ (∀ v, target_gen_dir_ p = Some v →
          fst <$> GetTargetGenDir scope ScopePerFileProvider_new = Some v)
  ∧ (∀ v, target_out_dir_ p = Some v →
          fst <$> GetTargetOutDir scope ScopePerFileProvider_new = Some v).

(** A sequence of requests, each made with the scope as it is then;
    [None] when one of them aborts. *)
Fixpoint provider_requests (reqs : list (ProviderScope * string))
    (p : ScopePerFileProvider) : option ScopePerFileProvider :=
  match reqs with
  | [] => Some p
  | r :: reqs' =>
      match GetProgrammaticValue r.1 r.2 p with
      | None => None
      | Some res => provider_requests reqs' res.2
      end
  end.
End Provider.

Arguments ps_settings {_} _.
Arguments ps_toolchain_label {_} _.
Arguments ps_default_toolchain_label {_} _.
Arguments ps_python_path {_} _.
Arguments ps_source_dir {_} _.

(** A provider with stand-ins for the names of [variables.h] and for the
    collaborators, and a scope of a build in [//out/Debug/]. *)
Definition example_provider_value (scope : ProviderScope string)
    (ident : string) (p : ScopePerFileProvider)
  : option (option Value * ScopePerFileProvider) :=
  GetProgrammaticValue string (fun s => s) (fun l _ => label_name l) true
    "current_toolchain" "default_toolchain" "python_path" "root_build_dir"
    "root_gen_dir" "root_out_dir" "target_gen_dir" "target_out_dir"
    scope ident p.

Definition example_provider_scope (source_dir : string)
  : ProviderScope string :=
  {| ps_settings :=
       {| build_settings := SetBuildDir "//out/Debug/" (MkBuildSettings "" "");
          toolchain_output_subdir := "" |};
     ps_toolchain_label := MkLabel "//toolchain/" "default" "" "";
     ps_default_toolchain_label := MkLabel "//toolchain/" "default" "" "";
     ps_python_path := "python";
     ps_source_dir := source_dir |}.

(** * Proofs *)

(** ** Basic facts about buffers *)

Lemma char_at_lookup (buf : list ascii) i c :
  buf !! i = Some c → char_at buf i = c.
Proof. unfold char_at. by intros ->. Qed.

Lemma char_at_app_l (l1 l2 : list ascii) i :
  i < length l1 → char_at (l1 ++ l2) i = char_at l1 i.
Proof. intros. unfold char_at. by rewrite lookup_app_l. Qed.

Lemma char_at_app_r (l1 l2 : list ascii) i :
  length l1 ≤ i → char_at (l1 ++ l2) i = char_at l2 (i - length l1).
Proof. intros. unfold char_at. by rewrite lookup_app_r. Qed.

Lemma char_at_take (buf : list ascii) n i :
  i < n → char_at (take n buf) i = char_at buf i.
Proof. intros. unfold char_at. by rewrite lookup_take_lt. Qed.

Lemma char_at_insert_ne (buf : list ascii) i j c :
  i ≠ j → char_at (<[i:=c]> buf) j = char_at buf j.
Proof. intros. unfold char_at. by rewrite list_lookup_insert_ne. Qed.

Lemma char_at_insert_eq (buf : list ascii) i c :
  i < length buf → char_at (<[i:=c]> buf) i = c.
Proof. intros. unfold char_at. by rewrite list_lookup_insert_eq. Qed.

Lemma drop_char_at (buf : list ascii) i :
  i < length buf → drop i buf = char_at buf i :: drop (S i) buf.
Proof.
  intros Hi. destruct (lookup_lt_is_Some_2 buf i Hi) as [c Hc].
  rewrite (char_at_lookup _ _ _ Hc). by apply drop_S.
Qed.

Lemma take_insert_snoc (buf : list ascii) i c :
  i < length buf → take (S i) (<[i:=c]> buf) = take i buf ++ [c].
Proof.
  intros Hi. rewrite (take_S_r _ _ c).
  - by rewrite take_insert_ge by lia.
  - by apply list_lookup_insert_eq.
Qed.

Lemma find_prev_slash_le buf d : find_prev_slash buf d ≤ d.
Proof. induction d as [|d IH]; simpl; [lia|]. destruct (IsSlash _); lia. Qed.

Lemma find_prev_slash_take buf d n :
  d ≤ n → find_prev_slash (take n buf) d = find_prev_slash buf d.
Proof.
  induction d as [|d IH]; intros Hd; simpl; [done|].
  rewrite char_at_take by lia. destruct (IsSlash _); [done|]. apply IH. lia.
Qed.
Lemma abs_rest_cons st :
  src_i st < length (pathbuf st) →
  a_rest (abs_state st)
  = char_at (pathbuf st) (src_i st) :: drop (S (src_i st)) (pathbuf st).
Proof. intros. simpl. by apply drop_char_at. Qed.

Lemma aclassify_ClassifyAfterDot buf src :
  src < length buf →
  aclassify (drop (S src) buf) = ClassifyAfterDot buf (src + 1).
Proof.
  intros Hs. unfold ClassifyAfterDot.
  replace (src + 1 + 1) with (S (S src)) by lia.
  replace (src + 1) with (S src) by lia.
  destruct (Nat.eqb_spec (S src) (length buf)) as [He|Hne].
  { rewrite drop_ge by lia. reflexivity. }
  rewrite (drop_char_at buf (S src)) by lia. cbn [aclassify].
  destruct (IsSlash (char_at buf (S src))); [reflexivity|].
  destruct (Ascii.eqb (char_at buf (S src)) "."); [|reflexivity].
  destruct (Nat.eqb_spec (S (S src)) (length buf)) as [He2|Hne2].
  { rewrite drop_ge by lia. reflexivity. }
  rewrite (drop_char_at buf (S (S src))) by lia. reflexivity.
Qed.

Lemma ClassifyAfterDot_consumed buf src d n :
  src < length buf →
  ClassifyAfterDot buf (src + 1) = (d, n) →
  1 ≤ n ∧ src + n ≤ length buf ∧
  (d = DIRECTORY_CUR → n = 1 ∨ n = 2) ∧
  (d = DIRECTORY_UP → n = 2 ∨ n = 3) ∧
  (d = DIRECTORY_UP → n = 3 → src + 3 ≤ length buf).
Proof.
  intros Hs. unfold ClassifyAfterDot.
  destruct (Nat.eqb_spec (src + 1) (length buf)).
  { intros [= <- <-]. repeat split; try lia; try done. }
  destruct (IsSlash _).
  { intros [= <- <-]. repeat split; try lia; try done. }
  destruct (Ascii.eqb _ _).
  2:{ intros [= <- <-]. repeat split; try lia; try done. }
  destruct (Nat.eqb_spec (src + 1 + 1) (length buf)).
  { intros [= <- <-]. repeat split; try lia; try done. }
  destruct (IsSlash _); intros [= <- <-]; repeat split; try lia; try done.
Qed.

Definition loop_inv (st : NormState) : Prop :=
  dest_i st ≤ src_i st ∧ src_i st ≤ length (pathbuf st).

Lemma push_abs buf top dest src x :
  dest ≤ src → src < length buf →
  IsSlash x = IsSlash (char_at buf src) →
  abs_state {| pathbuf := <[dest := x]> buf; top_index := top;
               dest_i := dest + 1; src_i := src + 1 |}
  = {| a_out := take dest buf ++ [x]; a_top := top;
       a_prev := if IsSlash x then AfterSlash else AfterOther;
       a_rest := drop (S src) buf |}.
Proof.
  intros Hd Hs Hx. unfold abs_state. cbn [pathbuf top_index dest_i src_i].
  f_equal.
  - replace (dest + 1) with (S dest) by lia. apply take_insert_snoc. lia.
  - unfold prev_class. replace (src + 1 =? 0) with false
      by (symmetry; apply Nat.eqb_neq; lia).
    replace (src + 1 - 1) with src by lia.
    destruct (decide (dest = src)) as [->|Hne].
    + by rewrite char_at_insert_eq.
    + by rewrite char_at_insert_ne, <- Hx.
  - replace (src + 1) with (S src) by lia. apply drop_insert_lt. lia.
Qed.

Lemma IsSlash_dot : IsSlash "." = false.
Proof. reflexivity. Qed.

Lemma IsSlash_fwd : IsSlash "/" = true.
Proof. reflexivity. Qed.

Lemma ClassifyAfterDot_cases buf a :
  (ClassifyAfterDot buf a = (DIRECTORY_CUR, 1) ∧ a = length buf)
  ∨ (ClassifyAfterDot buf a = (DIRECTORY_CUR, 2) ∧ a ≠ length buf
       ∧ IsSlash (char_at buf a) = true)
  ∨ (ClassifyAfterDot buf a = (DIRECTORY_UP, 2) ∧ a + 1 = length buf
       ∧ char_at buf a = "."%char)
  ∨ (ClassifyAfterDot buf a = (DIRECTORY_UP, 3) ∧ a ≠ length buf
       ∧ a + 1 ≠ length buf ∧ char_at buf a = "."%char
       ∧ IsSlash (char_at buf (a + 1)) = true)
  ∨ (ClassifyAfterDot buf a = (NOT_A_DIRECTORY, 1)).
Proof.
  unfold ClassifyAfterDot.
  destruct (Nat.eqb_spec a (length buf)); [by left|].
  destruct (IsSlash (char_at buf a)) eqn:Hs; [by right; left|].
  destruct (Ascii.eqb_spec (char_at buf a) "."); [|by repeat right].
  destruct (Nat.eqb_spec (a + 1) (length buf)); [by right; right; left|].
  destruct (IsSlash (char_at buf (a + 1))) eqn:Hs2.
  - by right; right; right; left.
  - by repeat right.
Qed.

Lemma prev_class_S buf src :
  prev_class buf (S src)
  = if IsSlash (char_at buf src) then AfterSlash else AfterOther.
Proof. unfold prev_class. simpl. by rewrite Nat.sub_0_r. Qed.

Lemma up_abs rel n st :
  loop_inv st → src_i st < length (pathbuf st) →
  ClassifyAfterDot (pathbuf st) (src_i st + 1) = (DIRECTORY_UP, n) →
  abs_state (directory_up rel n st)
  = {| a_out := (aup rel n (take (dest_i st) (pathbuf st)) (top_index st)).1;
       a_top := (aup rel n (take (dest_i st) (pathbuf st)) (top_index st)).2;
       a_prev := prev_after_dots 3 n;
       a_rest := drop (n - 1) (drop (S (src_i st)) (pathbuf st)) |}.
Proof.
  destruct st as [buf top dest src]. unfold loop_inv. simpl.
  intros [Hd Hs] Hlt Hc.
  assert (Hn : (n = 2 ∧ src + 2 = length buf
                ∧ char_at buf (src + 1) = "."%char)
             ∨ (n = 3 ∧ src + 2 < length buf
                ∧ IsSlash (char_at buf (src + 2)) = true)).
  { destruct (ClassifyAfterDot_cases buf (src + 1))
      as [[H _]|[[H _]|[[H [? ?]]|[[H (?&?&?&?)]|H]]]];
      rewrite H in Hc; try discriminate; injection Hc as <-.
    - left. repeat split; [lia|done].
    - right. replace (src + 2) with (src + 1 + 1) by lia.
      repeat split; [lia|done]. }
  unfold directory_up, aup, abs_state. simpl.
  rewrite length_take_le by lia.
  set (d1 := if top <? dest then dest - 1 else dest).
  assert (Hd1 : d1 ≤ dest) by (unfold d1; destruct (top <? dest); lia).
  rewrite drop_drop.
  destruct (d1 =? top) eqn:Ht.
  - destruct rel.
    + destruct Hn as [(-> & Hl & Hdot)|(-> & Hl & Hsl)]; simpl.
      * f_equal.
        -- replace (d1 + 2) with (S (S d1)) by lia.
           rewrite (take_S_r _ _ "."%char).
           2:{ replace (d1 + 1) with (S d1) by lia.
               apply list_lookup_insert_eq. rewrite length_insert. lia. }
           rewrite take_insert_ge by lia.
           rewrite take_insert_snoc by lia.
           rewrite take_take. rewrite Nat.min_l by lia.
           by rewrite <- app_assoc.
        -- rewrite !length_app, length_take_le by (rewrite length_take_le; lia).
           simpl. lia.
        -- replace (src + 2) with (S (src + 1)) by lia.
           rewrite prev_class_S.
           destruct (decide (d1 + 1 = src + 1)) as [->|Hne].
           ++ rewrite char_at_insert_eq by (rewrite length_insert; lia). done.
           ++ rewrite char_at_insert_ne by done.
              rewrite char_at_insert_ne by lia. by rewrite Hdot.
        -- rewrite !drop_insert_lt by lia. f_equal. lia.
      * f_equal.
        -- replace (d1 + 3) with (S (d1 + 2)) by lia.
           rewrite take_insert_snoc by (rewrite !length_insert; lia).
           replace (d1 + 2) with (S (d1 + 1)) by lia.
           rewrite take_insert_snoc by (rewrite !length_insert; lia).
           replace (d1 + 1) with (S d1) by lia.
           rewrite take_insert_snoc by lia.
           rewrite take_take. rewrite Nat.min_l by lia.
           by rewrite <- !app_assoc.
        -- rewrite !length_app, length_take_le by (rewrite length_take_le; lia).
           simpl. lia.
        -- replace (src + 3) with (S (src + 2)) by lia.
           rewrite prev_class_S.
           destruct (decide (d1 + 2 = src + 2)) as [->|Hne].
           ++ rewrite char_at_insert_eq by (rewrite !length_insert; lia). done.
           ++ rewrite char_at_insert_ne by done.
              rewrite !char_at_insert_ne by lia. by rewrite Hsl.
        -- rewrite !drop_insert_lt by lia. f_equal. lia.
    + simpl. f_equal.
      * rewrite take_take. by rewrite Nat.min_l by lia.
      * destruct Hn as [(-> & Hl & Hdot)|(-> & Hl & Hsl)]; simpl.
        -- replace (src + 2) with (S (src + 1)) by lia.
           rewrite prev_class_S. by rewrite Hdot.
        -- replace (src + 3) with (S (src + 2)) by lia.
           rewrite prev_class_S. by rewrite Hsl.
      * f_equal. destruct Hn as [(-> & _)|(-> & _)]; lia.
  - simpl. rewrite find_prev_slash_take by done.
    pose proof (find_prev_slash_le buf d1). f_equal.
    + rewrite take_take. by rewrite Nat.min_l by lia.
    + destruct Hn as [(-> & Hl & Hdot)|(-> & Hl & Hsl)]; simpl.
      * replace (src + 2) with (S (src + 1)) by lia.
        rewrite prev_class_S. by rewrite Hdot.
      * replace (src + 3) with (S (src + 2)) by lia.
        rewrite prev_class_S. by rewrite Hsl.
    + f_equal. destruct Hn as [(-> & _)|(-> & _)]; lia.
Qed.

Lemma at_boundary_prev_class buf src :
  at_boundary (prev_class buf src)
  = (src =? 0) || IsSlash (char_at buf (src - 1)).
Proof.
  unfold prev_class. destruct (src =? 0); [done|].
  by destruct (IsSlash _).
Qed.

Lemma copy_abs st :
  loop_inv st → src_i st < length (pathbuf st) →
  IsSlash (char_at (pathbuf st) (src_i st)) = false →
  abs_state (copy_char st)
  = {| a_out := a_out (abs_state st) ++ [char_at (pathbuf st) (src_i st)];
       a_top := top_index st; a_prev := AfterOther;
       a_rest := drop (S (src_i st)) (pathbuf st) |}.
Proof.
  intros [Hd Hs] Hlt Hns. unfold copy_char.
  rewrite push_abs by done. by rewrite Hns.
Qed.

Lemma body_abs rel st :
  loop_inv st → src_i st < length (pathbuf st) →
  abs_state (NormalizePath_body rel st) = astep rel (abs_state st).
Proof.
  intros Hinv Hlt. unfold astep. rewrite abs_rest_cons by done.
  unfold NormalizePath_body.
  change (a_prev (abs_state st)) with (prev_class (pathbuf st) (src_i st)).
  change (a_top (abs_state st)) with (top_index st).
  rewrite at_boundary_prev_class.
  destruct (Ascii.eqb_spec (char_at (pathbuf st) (src_i st)) ".") as [Hdot|Hnd].
  - assert (Hns : IsSlash (char_at (pathbuf st) (src_i st)) = false)
      by (by rewrite Hdot).
    destruct ((src_i st =? 0) || IsSlash (char_at (pathbuf st) (src_i st - 1))).
    + rewrite aclassify_ClassifyAfterDot by done.
      destruct (ClassifyAfterDot (pathbuf st) (src_i st + 1)) as [d n] eqn:Hc.
      destruct d.
      * by apply copy_abs.
      * destruct (ClassifyAfterDot_cases (pathbuf st) (src_i st + 1))
          as [[H ?]|[[H [? Hsl]]|[[H _]|[[H _]|H]]]];
          rewrite H in Hc; try discriminate; injection Hc as <-.
        -- unfold abs_state; simpl. f_equal.
           replace (src_i st + 1) with (S (src_i st)) by lia.
           rewrite prev_class_S. by rewrite Hns.
           rewrite drop_drop. f_equal; lia.
        -- unfold abs_state; simpl. f_equal.
           ++ replace (src_i st + 2) with (S (src_i st + 1)) by lia.
              rewrite prev_class_S. by rewrite Hsl.
           ++ rewrite drop_drop. f_equal; lia.
      * by apply up_abs.
    + by apply copy_abs.
  - destruct (IsSlash (char_at (pathbuf st) (src_i st))) eqn:Hsl.
    + unfold prev_class.
      destruct (Nat.eqb_spec (src_i st) 0) as [H0|H0].
      * replace (0 <? src_i st) with false
          by (symmetry; apply Nat.ltb_ge; lia).
        simpl. destruct Hinv. rewrite push_abs; [done..|]. by rewrite Hsl.
      * replace (0 <? src_i st) with true
          by (symmetry; apply Nat.ltb_lt; lia).
        simpl. destruct (IsSlash (char_at (pathbuf st) (src_i st - 1))).
        -- unfold abs_state; simpl. f_equal.
           ++ replace (src_i st + 1) with (S (src_i st)) by lia.
              rewrite prev_class_S. by rewrite Hsl.
           ++ f_equal; lia.
        -- destruct Hinv. rewrite push_abs; [done..|]. by rewrite Hsl.
    + by apply copy_abs.
Qed.

Lemma body_inv rel st :
  loop_inv st → src_i st < length (pathbuf st) →
  loop_inv (NormalizePath_body rel st)
  ∧ src_i st < src_i (NormalizePath_body rel st)
  ∧ length (pathbuf (NormalizePath_body rel st)) = length (pathbuf st).
Proof.
  intros [Hd Hs] Hlt. unfold loop_inv, NormalizePath_body.
  assert (Hcopy : (dest_i (copy_char st) ≤ src_i (copy_char st)
                   ∧ src_i (copy_char st) ≤ length (pathbuf (copy_char st)))
                  ∧ src_i st < src_i (copy_char st)
                  ∧ length (pathbuf (copy_char st)) = length (pathbuf st)).
  { unfold copy_char; simpl. rewrite length_insert. lia. }
  destruct (Ascii.eqb _ _).
  - destruct (_ || _); [|done].
    destruct (ClassifyAfterDot_cases (pathbuf st) (src_i st + 1))
      as [[H ?]|[[H [? Hsl]]|[[H [? ?]]|[[H (?&?&?&?)]|H]]]]; rewrite H;
      [simpl; lia|simpl; lia| | |done].
    + unfold directory_up.
      pose proof (find_prev_slash_le (pathbuf st)
        (if top_index st <? dest_i st then dest_i st - 1 else dest_i st)).
      destruct (top_index st <? dest_i st);
        destruct (_ =? top_index st); destruct rel; simpl;
        rewrite ?length_insert; lia.
    + unfold directory_up.
      pose proof (find_prev_slash_le (pathbuf st)
        (if top_index st <? dest_i st then dest_i st - 1 else dest_i st)).
      destruct (top_index st <? dest_i st);
        destruct (_ =? top_index st); destruct rel; simpl;
        rewrite ?length_insert; lia.
  - destruct (IsSlash _); [|done].
    destruct (_ && _); simpl; rewrite ?length_insert; lia.
Qed.

Lemma loop_abs rel fuel st :
  loop_inv st →
  abs_state (NormalizePath_loop fuel rel st) = arun fuel rel (abs_state st)
  ∧ loop_inv (NormalizePath_loop fuel rel st)
  ∧ length (pathbuf (NormalizePath_loop fuel rel st)) = length (pathbuf st)
  ∧ (length (pathbuf st) ≤ src_i st + fuel →
     length (pathbuf st) ≤ src_i (NormalizePath_loop fuel rel st)).
Proof.
  revert st. induction fuel as [|fuel IH]; intros st Hinv.
  { simpl. repeat split; try done; try apply Hinv. lia. }
  cbn [NormalizePath_loop arun].
  destruct (Nat.ltb_spec (src_i st) (length (pathbuf st))) as [Hlt|Hge].
  - rewrite abs_rest_cons by done.
    destruct (body_inv rel st Hinv Hlt) as (Hinv' & Hsrc & Hlen).
    destruct (IH _ Hinv') as (Ha & Hi & Hl & Hex).
    rewrite Ha, body_abs by done. repeat split; try apply Hi.
    + congruence.
    + intros. rewrite <- Hlen. apply Hex. lia.
  - cbn [abs_state a_rest]. rewrite drop_ge by lia.
    repeat split; try apply Hinv; lia.
Qed.

(** ** The machine computes [NormalizePath] *)

Lemma astep_rest_lt rel s :
  a_rest s ≠ [] → length (a_rest (astep rel s)) < length (a_rest s).
Proof.
  unfold astep. destruct (a_rest s) as [|c r]; [done|]. intros _.
  assert (Hd : ∀ n, length (drop n r) < length (c :: r))
    by (intros n; rewrite length_drop; simpl; lia).
  destruct (Ascii.eqb c ".").
  - destruct (at_boundary _); [|simpl; lia].
    destruct (aclassify r) as [[] n]; simpl; try lia; apply Hd.
  - destruct (IsSlash c); [|simpl; lia].
    destruct (a_prev s); simpl; lia.
Qed.

Lemma arun_fuel rel fuel1 : ∀ fuel2 s,
  length (a_rest s) ≤ fuel1 → length (a_rest s) ≤ fuel2 →
  arun fuel1 rel s = arun fuel2 rel s.
Proof.
  induction fuel1 as [|fuel1 IH]; intros fuel2 s H1 H2.
  - destruct (a_rest s) eqn:Hr; [|simpl in H1; lia].
    destruct fuel2; simpl; by rewrite ?Hr.
  - destruct fuel2 as [|fuel2].
    + destruct (a_rest s) eqn:Hr; [|simpl in H2; lia]. simpl. by rewrite Hr.
    + simpl. destruct (a_rest s) as [|c r] eqn:Hr; [done|].
      pose proof (astep_rest_lt rel s) as Hlt. rewrite Hr in Hlt.
      specialize (Hlt ltac:(done)). simpl in *. apply IH; lia.
Qed.

Lemma aexec_nil rel s : a_rest s = [] → aexec rel s = a_out s.
Proof. unfold aexec. intros ->. done. Qed.

Lemma aexec_step rel s :
  a_rest s ≠ [] → aexec rel s = aexec rel (astep rel s).
Proof.
  intros Hne. unfold aexec.
  pose proof (astep_rest_lt rel s Hne) as Hlt.
  destruct (a_rest s) as [|c r] eqn:Hr; [done|].
  cbn [length arun]. rewrite Hr. f_equal. apply arun_fuel; simpl in *; lia.
Qed.

Lemma NormalizePath_loop_exits path :
  length (pathbuf (NormalizePath_final path))
    ≤ src_i (NormalizePath_final path)
  ∧ dest_i (NormalizePath_final path) ≤ length path
  ∧ length (pathbuf (NormalizePath_final path)) = length path.
Proof.
  unfold NormalizePath_final.
  destruct (NormalizePath_init path) as [rel top] eqn:Hi.
  assert (Htop : top ≤ length path).
  { unfold NormalizePath_init in Hi.
    destruct (Nat.eqb_spec (length path) 0); simpl in Hi.
    - injection Hi as <- <-. lia.
    - destruct (Ascii.eqb _ _); [|injection Hi as <- <-; lia].
      destruct (Nat.ltb_spec 1 (length path)); simpl in Hi.
      + destruct (Ascii.eqb _ _); injection Hi as <- <-; lia.
      + injection Hi as <- <-; lia. }
  set (st0 := {| pathbuf := path; top_index := top;
                 dest_i := top; src_i := top |}).
  assert (Hinv : loop_inv st0) by (unfold loop_inv; simpl; lia).
  destruct (loop_abs rel (length path) st0 Hinv) as (_ & [Hd Hs] & Hl & Hex).
  simpl in Hl, Hex. split; [|split]; [|lia|done].
  rewrite Hl. apply Hex. lia.
Qed.

Lemma NormalizePath_buf_machine path :
  NormalizePath_buf path
  = aexec (NormalizePath_init path).1
      {| a_out := take (NormalizePath_init path).2 path;
         a_top := (NormalizePath_init path).2;
         a_prev := prev_class path (NormalizePath_init path).2;
         a_rest := drop (NormalizePath_init path).2 path |}.
Proof.
  unfold NormalizePath_buf, NormalizePath_final.
  destruct (NormalizePath_init path) as [rel top] eqn:Hi. simpl.
  assert (Htop : top ≤ length path).
  { pose proof (NormalizePath_loop_exits path) as H.
    unfold NormalizePath_final in H. rewrite Hi in H.
    unfold NormalizePath_init in Hi.
    destruct (Nat.eqb_spec (length path) 0); simpl in Hi.
    - injection Hi as <- <-. lia.
    - destruct (Ascii.eqb _ _); [|injection Hi as <- <-; lia].
      destruct (Nat.ltb_spec 1 (length path)); simpl in Hi.
      + destruct (Ascii.eqb _ _); injection Hi as <- <-; lia.
      + injection Hi as <- <-; lia. }
  set (st0 := {| pathbuf := path; top_index := top;
                 dest_i := top; src_i := top |}).
  assert (Hinv : loop_inv st0) by (unfold loop_inv; simpl; lia).
  destruct (loop_abs rel (length path) st0 Hinv) as (Ha & [Hd Hs] & Hl & Hex).
  unfold string_resize.
  replace (dest_i _ - length _) with 0 by lia. simpl. rewrite app_nil_r.
  change (take (dest_i (NormalizePath_loop (length path) rel st0))
            (pathbuf (NormalizePath_loop (length path) rel st0)))
    with (a_out (abs_state (NormalizePath_loop (length path) rel st0))).
  rewrite Ha. unfold aexec. f_equal. apply arun_fuel; simpl.
  - rewrite length_drop. lia.
  - done.
Qed.

(** ** Token-level behaviour of the machine *)


Lemma M_nil rel out top prev : M rel out top prev [] = out.
Proof. by apply aexec_nil. Qed.

Lemma M_slash_skip rel out top s r :
  IsSlash s = true →
  M rel out top AfterSlash (s :: r) = M rel out top AfterSlash r.
Proof.
  intros Hs. rewrite aexec_step by done. unfold astep; simpl.
  assert (Ascii.eqb s "." = false) as ->.
  { destruct (Ascii.eqb_spec s "."); [subst; done|done]. }
  by rewrite Hs.
Qed.

Lemma M_slash_push rel out top prev s r :
  IsSlash s = true → prev ≠ AfterSlash →
  M rel out top prev (s :: r) = M rel (out ++ ["/"%char]) top AfterSlash r.
Proof.
  intros Hs Hp. rewrite aexec_step by done. unfold astep; simpl.
  assert (Ascii.eqb s "." = false) as ->.
  { destruct (Ascii.eqb_spec s "."); [subst; done|done]. }
  rewrite Hs. by destruct prev.
Qed.

Lemma M_char rel out top prev c r :
  IsSlash c = false → c ≠ "."%char →
  M rel out top prev (c :: r) = M rel (out ++ [c]) top AfterOther r.
Proof.
  intros Hs Hd. rewrite aexec_step by done. unfold astep; simpl.
  destruct (Ascii.eqb_spec c "."); [done|]. by rewrite Hs.
Qed.

Lemma M_dot_mid rel out top r :
  M rel out top AfterOther ("."%char :: r)
  = M rel (out ++ ["."%char]) top AfterOther r.
Proof. rewrite aexec_step by done. done. Qed.

Lemma M_mid rel w : ∀ out top r,
  nonslash w →
  M rel out top AfterOther (w ++ r) = M rel (out ++ w) top AfterOther r.
Proof.
  induction w as [|c w IH]; intros out top r Hw.
  { by rewrite app_nil_r. }
  inversion Hw as [|? ? Hc Hw']; subst. simpl.
  destruct (decide (c = "."%char)) as [->|Hne].
  - rewrite M_dot_mid, IH by done. by rewrite <- app_assoc.
  - rewrite M_char, IH by done. by rewrite <- app_assoc.
Qed.

Lemma aclassify_ordinary w r :
  ordinary ("."%char :: w) → seg_end r →
  aclassify (w ++ r) = (NOT_A_DIRECTORY, 1).
Proof.
  intros (_ & Hns & H1 & H2) Hr.
  inversion Hns as [|? ? _ Hw]; subst.
  destruct w as [|x w]; [done|].
  inversion Hw as [|? ? Hx Hw']; subst. simpl. rewrite Hx.
  destruct (Ascii.eqb_spec x "."); [subst|done].
  destruct w as [|y w]; [done|].
  inversion Hw' as [|? ? Hy _]; subst. simpl. by rewrite Hy.
Qed.

Lemma M_seg rel out top prev w r :
  ordinary w → seg_end r →
  M rel out top prev (w ++ r) = M rel (out ++ w) top AfterOther r.
Proof.
  intros Hw Hr. destruct Hw as (Hne & Hns & H1 & H2).
  destruct w as [|c w]; [done|].
  inversion Hns as [|? ? Hc Hw']; subst.
  destruct (decide (c = "."%char)) as [->|Hnd].
  - destruct (at_boundary prev) eqn:Hb.
    + simpl. rewrite aexec_step by done. unfold astep; simpl.
      rewrite Hb, aclassify_ordinary by done.
      rewrite M_mid by done. by rewrite <- app_assoc.
    + destruct prev; try done. simpl.
      rewrite M_dot_mid, M_mid by done. by rewrite <- app_assoc.
  - simpl. rewrite M_char, M_mid by done. by rewrite <- app_assoc.
Qed.

Lemma M_cur_end rel out top prev :
  at_boundary prev = true → M rel out top prev ["."%char] = out.
Proof.
  intros Hb. rewrite aexec_step by done. unfold astep; simpl.
  rewrite Hb. by apply aexec_nil.
Qed.

Lemma M_cur rel out top prev s r :
  at_boundary prev = true → IsSlash s = true →
  M rel out top prev ("."%char :: s :: r) = M rel out top AfterSlash r.
Proof.
  intros Hb Hs. rewrite aexec_step by done. unfold astep; simpl.
  by rewrite Hb, Hs.
Qed.

Lemma M_up_end rel out top prev :
  at_boundary prev = true →
  M rel out top prev ["."; "."]%char = (aup rel 2 out top).1.
Proof.
  intros Hb. rewrite aexec_step by done. unfold astep; simpl.
  rewrite Hb. by apply aexec_nil.
Qed.

Lemma M_up rel out top prev s r :
  at_boundary prev = true → IsSlash s = true →
  M rel out top prev ("."%char :: "."%char :: s :: r)
  = M rel (aup rel 3 out top).1 (aup rel 3 out top).2 AfterSlash r.
Proof.
  intros Hb Hs. rewrite aexec_step by done. unfold astep; simpl.
  by rewrite Hb, Hs.
Qed.

(** ** Popping a segment *)

Lemma find_prev_slash_skip buf a k :
  (∀ i, a ≤ i < a + k → IsSlash (char_at buf i) = false) →
  find_prev_slash buf (a + k) = find_prev_slash buf a.
Proof.
  induction k as [|k IH]; intros H.
  { by rewrite Nat.add_0_r. }
  replace (a + S k) with (S (a + k)) by lia. simpl.
  rewrite H by lia. apply IH. intros i Hi. apply H. lia.
Qed.

Lemma find_prev_slash_ended X Y :
  slash_ended X → find_prev_slash (X ++ Y) (length X) = length X.
Proof.
  intros [->|(X' & s & -> & Hs)]; [done|].
  rewrite length_app. simpl. replace (length X' + 1) with (S (length X')) by lia.
  simpl. rewrite <- app_assoc. rewrite char_at_app_r by lia.
  rewrite Nat.sub_diag. simpl. unfold char_at; simpl. by rewrite Hs.
Qed.

Lemma nonslash_char_at w i :
  nonslash w → i < length w → IsSlash (char_at w i) = false.
Proof.
  intros Hw Hi. destruct (lookup_lt_is_Some_2 w i Hi) as [c Hc].
  rewrite (char_at_lookup _ _ _ Hc).
  unfold nonslash in Hw. rewrite Forall_lookup in Hw. by eapply Hw.
Qed.

Lemma aup_pop rel n X w top :
  nonslash w → slash_ended X → top < length X + length w →
  aup rel n (X ++ w ++ ["/"%char]) top = (X, top).
Proof.
  intros Hw HX Htop. unfold aup.
  rewrite !length_app. simpl.
  replace (top <? length X + (length w + 1)) with true
    by (symmetry; apply Nat.ltb_lt; lia).
  replace (length X + (length w + 1) - 1) with (length X + length w) by lia.
  replace (length X + length w =? top) with false
    by (symmetry; apply Nat.eqb_neq; lia).
  rewrite find_prev_slash_skip.
  - rewrite find_prev_slash_ended by done. by rewrite take_app_length.
  - intros i Hi. rewrite char_at_app_r by lia.
    rewrite char_at_app_l by lia. apply nonslash_char_at; [done|lia].
Qed.

Lemma aup_abs_top n out : aup false n out (length out) = (out, length out).
Proof.
  unfold aup. rewrite Nat.ltb_irrefl, Nat.eqb_refl. by rewrite take_ge.
Qed.

Lemma aup_rel_top n out :
  aup true n out (length out)
  = (out ++ ["."; "."]%char ++ (if n =? 3 then ["/"%char] else []),
     length out + 2 + (if n =? 3 then 1 else 0)).
Proof.
  unfold aup. rewrite Nat.ltb_irrefl, Nat.eqb_refl. rewrite take_ge by done.
  f_equal. rewrite !length_app. destruct (n =? 3); simpl; lia.
Qed.

(** ** Facts about [join] and [ups] *)

Lemma join_app a b : join (a ++ b) = join a ++ join b.
Proof. unfold join. by rewrite flat_map_app. Qed.

Lemma join_snoc a w : join (a ++ [w]) = join a ++ w ++ ["/"%char].
Proof. rewrite join_app. unfold join at 2. simpl. by rewrite app_nil_r. Qed.

Lemma ups_S n : ups (S n) = dotdot_slash ++ ups n.
Proof. done. Qed.

Lemma ups_snoc n : ups (n + 1) = ups n ++ dotdot_slash.
Proof.
  unfold ups. rewrite replicate_add, concat_app. reflexivity.
Qed.

Lemma ups_add n k : ups (n + k) = ups n ++ ups k.
Proof. unfold ups. by rewrite replicate_add, concat_app. Qed.

Lemma length_ups n : length (ups n) = 3 * n.
Proof. induction n as [|n IH]; [done|]. rewrite ups_S, length_app, IH. simpl. lia. Qed.

Lemma slash_ended_app X Y : slash_ended Y → Y ≠ [] → slash_ended (X ++ Y).
Proof.
  intros [->|(Y' & s & -> & Hs)] Hne; [done|].
  right. exists (X ++ Y'), s. by rewrite app_assoc.
Qed.

Lemma slash_ended_join segs : slash_ended (join segs).
Proof.
  destruct segs as [|w segs _] using rev_ind; [by left|].
  right. exists (join segs ++ w), "/"%char. rewrite join_snoc.
  by rewrite app_assoc.
Qed.

Lemma slash_ended_ups n : slash_ended (ups n).
Proof.
  destruct n as [|n]; [by left|]. right.
  replace (S n) with (n + 1) by lia. rewrite ups_snoc.
  exists (ups n ++ ["."; "."]%char), "/"%char. by rewrite <- app_assoc.
Qed.

Lemma slash_ended_app_join X segs :
  slash_ended X → slash_ended (X ++ join segs).
Proof.
  intros HX. destruct (decide (join segs = [])) as [->|Hne].
  - by rewrite app_nil_r.
  - apply slash_ended_app; [apply slash_ended_join|done].
Qed.

(** ** Splitting the input into segments *)

Lemma span_nonslash l : ∃ w r, l = w ++ r ∧ nonslash w ∧ seg_end r.
Proof.
  induction l as [|c l (w & r & -> & Hw & Hr)].
  { exists [], []. repeat split; [constructor|by left]. }
  destruct (IsSlash c) eqn:Hc.
  - exists [], (c :: w ++ r). repeat split; [constructor|].
    right. by exists c, (w ++ r).
  - exists (c :: w), r. repeat split; [by constructor|done].
Qed.

Lemma seg_cases w :
  nonslash w →
  w = [] ∨ w = ["."%char] ∨ w = ["."; "."]%char ∨ ordinary w.
Proof.
  intros Hw.
  destruct (decide (w = [])); [by left|].
  destruct (decide (w = ["."%char])); [by right; left|].
  destruct (decide (w = ["."; "."]%char)); [by right; right; left|].
  by repeat right.
Qed.

(** ** Boundary configurations *)

Lemma join_single w : join [w] = w ++ ["/"%char].
Proof. unfold join. simpl. by rewrite app_nil_r. Qed.

Lemma Bnd_boundary rel out top prev :
  Bnd rel out top prev → at_boundary prev = true.
Proof. by destruct 1. Qed.

Lemma Bnd_NF rel out top prev : Bnd rel out top prev → NF out.
Proof.
  destruct 1 as [root segs [->| ->] Hs| |n segs Hs|segs Hs].
  - rewrite <- (app_nil_r (join segs)). apply NF_root1; [done|by left].
  - rewrite <- (app_nil_r (join segs)). apply NF_root2; [done|by left].
  - apply (NF_ups 0 [] []); [constructor|by left].
  - rewrite <- (app_nil_r (join segs)). apply NF_ups; [done|by left].
  - rewrite <- (app_nil_r (join segs)). apply NF_root1; [done|by left].
Qed.

Lemma Bnd_last_NF rel out top prev w :
  Bnd rel out top prev → ordinary w → NF (out ++ w).
Proof.
  destruct 1 as [root segs [->| ->] Hs| |n segs Hs|segs Hs]; intros Hw.
  - apply NF_root1; [done|by right].
  - apply NF_root2; [done|by right].
  - apply (NF_ups 0 [] w); [constructor|by right].
  - rewrite <- app_assoc. apply NF_ups; [done|by right].
  - apply NF_root1; [done|by right].
Qed.

Lemma Bnd_push rel out top prev w :
  Bnd rel out top prev → ordinary w →
  Bnd rel (out ++ w ++ ["/"%char]) top AfterSlash.
Proof.
  destruct 1 as [root segs Hr Hs| |n segs Hs|segs Hs]; intros Hw.
  - rewrite <- app_assoc, <- join_snoc. apply Bnd_abs; [done|].
    apply Forall_app; split; [done|by constructor].
  - rewrite <- join_single. apply (Bnd_ups 0 [w]). by constructor.
  - rewrite <- app_assoc, <- join_snoc. apply Bnd_ups.
    apply Forall_app; split; [done|by constructor].
  - change (Bnd true ("/"%char :: (join segs ++ w ++ ["/"%char])) 0 AfterSlash).
    rewrite <- join_snoc. apply Bnd_slash.
    apply Forall_app; split; [done|by constructor].
Qed.

Lemma Bnd_after rel out top prev :
  Bnd rel out top prev → Bnd rel out top AfterSlash.
Proof.
  destruct 1 as [root segs Hr Hs| |n segs Hs|segs Hs].
  - by apply Bnd_abs.
  - apply (Bnd_ups 0 []). constructor.
  - by apply Bnd_ups.
  - by apply Bnd_slash.
Qed.

Lemma ordinary_length w : ordinary w → 0 < length w.
Proof. intros (Hne & _). destruct w; [done|simpl; lia]. Qed.

Lemma ordinary_nonslash w : ordinary w → nonslash w.
Proof. by intros (_ & H & _). Qed.

Lemma slash_ended_root root :
  root = ["/"%char] ∨ root = ["/"; "/"]%char → slash_ended root.
Proof.
  intros [->| ->]; right.
  - by exists [], "/"%char.
  - by exists ["/"%char], "/"%char.
Qed.

(** A [DIRECTORY_UP] at a boundary pops the last segment, is dropped at the
    root of an absolute path, and is kept at the top of a relative one. *)
Lemma aup_Bnd_cases rel n out top prev :
  Bnd rel out top prev →
  (∃ prev', Bnd rel (aup rel n out top).1 (aup rel n out top).2 prev')
  ∨ (rel = true ∧ ∃ k,
       aup rel n out top
       = (ups k ++ ["."; "."]%char ++ (if n =? 3 then ["/"%char] else []),
          3 * k + 2 + (if n =? 3 then 1 else 0))).
Proof.
  destruct 1 as [root segs Hr Hs| |k segs Hs|segs Hs].
  - left. exists AfterSlash.
    destruct segs as [|w segs _] using rev_ind.
    + change (join []) with (@nil ascii). rewrite app_nil_r, aup_abs_top.
      cbn [fst snd].
      rewrite <- (app_nil_r root) at 1. by apply (Bnd_abs root []).
    + apply Forall_app in Hs as [Hs Hw]. inversion Hw as [|? ? Hw' _]; subst.
      rewrite join_snoc, app_assoc.
      rewrite aup_pop.
      * simpl. by apply Bnd_abs.
      * by apply ordinary_nonslash.
      * apply slash_ended_app_join. by apply slash_ended_root.
      * pose proof (ordinary_length _ Hw'). rewrite length_app. lia.
  - right. split; [done|]. exists 0.
    pose proof (aup_rel_top n []) as H. simpl in H. rewrite H. done.
  - destruct segs as [|w segs _] using rev_ind.
    + right. split; [done|]. exists k.
      change (join []) with (@nil ascii). rewrite app_nil_r.
      pose proof (aup_rel_top n (ups k)) as H. rewrite length_ups in H.
      by rewrite H.
    + left. exists AfterSlash.
      apply Forall_app in Hs as [Hs Hw]. inversion Hw as [|? ? Hw' _]; subst.
      rewrite join_snoc, app_assoc.
      rewrite aup_pop.
      * simpl. by apply Bnd_ups.
      * by apply ordinary_nonslash.
      * apply slash_ended_app_join, slash_ended_ups.
      * pose proof (ordinary_length _ Hw'). rewrite length_app, length_ups. lia.
  - destruct segs as [|w segs _] using rev_ind.
    + right. split; [done|]. exists 0. unfold join; simpl.
      unfold aup; simpl. by destruct (n =? 3).
    + left. exists AfterSlash.
      apply Forall_app in Hs as [Hs Hw]. inversion Hw as [|? ? Hw' _]; subst.
      rewrite join_snoc.
      change ("/"%char :: join segs ++ w ++ ["/"%char])
        with (("/"%char :: join segs) ++ w ++ ["/"%char]).
      rewrite aup_pop.
      * simpl. by apply Bnd_slash.
      * by apply ordinary_nonslash.
      * apply (slash_ended_app_join ["/"%char]). by right; exists [], "/"%char.
      * pose proof (ordinary_length _ Hw'). simpl. lia.
Qed.

Lemma aup_Bnd rel out top prev :
  Bnd rel out top prev →
  Bnd rel (aup rel 3 out top).1 (aup rel 3 out top).2 AfterSlash.
Proof.
  intros HB. destruct (aup_Bnd_cases rel 3 out top prev HB)
    as [[prev' H]|(-> & k & ->)].
  - by eapply Bnd_after.
  - cbn [fst snd]. change (3 =? 3) with true. cbn iota.
    replace (3 * k + 2 + 1) with (3 * (k + 1)) by lia.
    change (["."; "."]%char ++ ["/"%char]) with dotdot_slash.
    rewrite <- ups_snoc, <- (app_nil_r (ups (k + 1))).
    apply (Bnd_ups (k + 1) []). constructor.
Qed.

Lemma aup_end_NF rel out top prev :
  Bnd rel out top prev → NF (aup rel 2 out top).1.
Proof.
  intros HB. destruct (aup_Bnd_cases rel 2 out top prev HB)
    as [[prev' H]|(-> & k & ->)].
  - by eapply Bnd_NF.
  - cbn [fst snd]. change (2 =? 3) with false. cbn iota.
    rewrite app_nil_r. apply NF_dotdot.
Qed.

(** ** Every output is a normal form *)

Lemma M_NF n : ∀ rest rel out top prev,
  length rest ≤ n → Bnd rel out top prev → NF (M rel out top prev rest).
Proof.
  induction n as [|n IH]; intros rest rel out top prev Hlen HB.
  { destruct rest; [|simpl in Hlen; lia]. rewrite M_nil. by eapply Bnd_NF. }
  pose proof (Bnd_boundary _ _ _ _ HB) as Hb.
  destruct (span_nonslash rest) as (w & r & -> & Hw & Hr).
  rewrite length_app in Hlen.
  destruct (seg_cases w Hw) as [->|[->|[->|Hord]]]; simpl in Hlen |- *.
  - destruct Hr as [->|(s & r' & -> & Hs)].
    { rewrite M_nil. by eapply Bnd_NF. }
    simpl in Hlen. destruct prev; [|rewrite M_slash_skip by done|done].
    + rewrite M_slash_push by done. inversion HB; subst. simpl.
      apply IH; [lia|]. apply (Bnd_slash []). constructor.
    + apply IH; [lia|done].
  - destruct Hr as [->|(s & r' & -> & Hs)].
    { rewrite M_cur_end by done. by eapply Bnd_NF. }
    simpl in Hlen. rewrite M_cur by done.
    apply IH; [lia|]. by eapply Bnd_after.
  - destruct Hr as [->|(s & r' & -> & Hs)].
    { rewrite M_up_end by done. by eapply aup_end_NF. }
    simpl in Hlen. rewrite M_up by done.
    apply IH; [lia|]. by eapply aup_Bnd.
  - rewrite M_seg by done.
    destruct Hr as [->|(s & r' & -> & Hs)].
    { rewrite M_nil. by eapply Bnd_last_NF. }
    simpl in Hlen. rewrite M_slash_push by done.
    rewrite <- app_assoc. apply IH; [lia|]. by eapply Bnd_push.
Qed.

(** The three initial configurations. *)
Lemma NormalizePath_init_cases path :
  (∃ r, path = "/"%char :: "/"%char :: r
        ∧ NormalizePath_init path = (false, 2))
  ∨ (∃ r, path = "/"%char :: r ∧ (∀ r', r ≠ "/"%char :: r')
        ∧ NormalizePath_init path = (false, 1))
  ∨ ((∀ r, path ≠ "/"%char :: r) ∧ NormalizePath_init path = (true, 0)).
Proof.
  unfold NormalizePath_init.
  destruct path as [|c path]; [by right; right|].
  unfold char_at; simpl.
  destruct (Ascii.eqb_spec c "/") as [->|Hc].
  - destruct path as [|c' path]; simpl.
    { right; left. by exists []. }
    destruct (Ascii.eqb_spec c' "/") as [->|Hc'].
    + left. by exists path.
    + right; left. exists (c' :: path). split; [done|].
      split; [|done]. intros r' [= ? ?]. done.
  - right; right. split; [|done]. intros r [= ? ?]. done.
Qed.

Lemma NormalizePath_buf_NF path : NF (NormalizePath_buf path).
Proof.
  rewrite NormalizePath_buf_machine.
  destruct (NormalizePath_init_cases path)
    as [(r & -> & ->)|[(r & -> & Hr & ->)|(Hp & ->)]]; simpl.
  - apply (M_NF (length r)); [done|].
    apply (Bnd_abs ["/"; "/"]%char []); [by right|constructor].
  - apply (M_NF (length r)); [done|].
    apply (Bnd_abs ["/"%char] []); [by left|constructor].
  - rewrite drop_0. apply (M_NF (length path)); [done|]. apply Bnd_start.
Qed.

(** ** Normal forms are fixed points *)

Lemma seg_end_slash r : seg_end ("/"%char :: r).
Proof. right. by exists "/"%char, r. Qed.

Lemma M_join rel segs : ∀ out top prev X,
  Forall ordinary segs → segs ≠ [] ∨ prev = AfterSlash →
  M rel out top prev (join segs ++ X) = M rel (out ++ join segs) top AfterSlash X.
Proof.
  induction segs as [|w segs IH]; intros out top prev X Hs Hp.
  { destruct Hp as [?| ->]; [done|]. by rewrite app_nil_r. }
  inversion Hs as [|? ? Hw Hs']; subst.
  change (join (w :: segs)) with ((w ++ ["/"%char]) ++ join segs).
  rewrite <- !app_assoc. rewrite M_seg by (done || apply seg_end_slash).
  simpl. rewrite M_slash_push by done.
  rewrite IH by (done || by right). by rewrite <- !app_assoc.
Qed.

Lemma M_last rel out top prev last :
  last_ok last → M rel out top prev last = out ++ last.
Proof.
  intros [->|Hw]; [by rewrite M_nil, app_nil_r|].
  rewrite <- (app_nil_r last) at 1. rewrite M_seg by (done || by left).
  by rewrite M_nil.
Qed.

Lemma M_ups k : ∀ n prev X,
  at_boundary prev = true →
  M true (ups n) (3 * n) prev (ups k ++ X)
  = M true (ups (n + k)) (3 * (n + k))
      (match k with 0 => prev | _ => AfterSlash end) X.
Proof.
  induction k as [|k IH]; intros n prev X Hb.
  { by rewrite Nat.add_0_r. }
  rewrite ups_S. unfold dotdot_slash. cbn [app].
  rewrite M_up by done.
  pose proof (aup_rel_top 3 (ups n)) as H. rewrite length_ups in H.
  rewrite H. cbn [fst snd]. change (3 =? 3) with true. cbn iota.
  change (["."; "."]%char ++ ["/"%char]) with dotdot_slash.
  rewrite <- ups_snoc.
  replace (3 * n + 2 + 1) with (3 * (n + 1)) by lia.
  rewrite IH by done. replace (n + 1 + k) with (n + S k) by lia.
  by destruct k.
Qed.

Lemma M_ups_start n X :
  M true [] 0 AtStart (ups n ++ X)
  = M true (ups n) (3 * n) (match n with 0 => AtStart | _ => AfterSlash end) X.
Proof. apply (M_ups n 0 AtStart X eq_refl). Qed.

Lemma head_join segs last c r :
  Forall ordinary segs → last_ok last →
  join segs ++ last = c :: r → IsSlash c = false.
Proof.
  intros Hs Hl. destruct segs as [|w segs].
  - simpl. destruct Hl as [->|(Hne & Hns & _)]; [done|].
    intros ->. by inversion Hns.
  - inversion Hs as [|? ? (Hne & Hns & _) _]; subst.
    destruct w as [|x w]; [done|]. simpl. intros [= <- _]. by inversion Hns.
Qed.

Lemma NormalizePath_buf_nil : NormalizePath_buf [] = [].
Proof. reflexivity. Qed.

Lemma NormalizePath_buf_root2 r :
  NormalizePath_buf ("/"%char :: "/"%char :: r)
  = M false ["/"; "/"]%char 2 AfterSlash r.
Proof. by rewrite NormalizePath_buf_machine. Qed.

Lemma NormalizePath_buf_root1 r :
  (∀ r', r ≠ "/"%char :: r') →
  NormalizePath_buf ("/"%char :: r) = M false ["/"%char] 1 AfterSlash r.
Proof.
  intros Hr. rewrite NormalizePath_buf_machine.
  destruct (NormalizePath_init_cases ("/"%char :: r))
    as [(r0 & [= ->] & _)|[(r0 & [= <-] & _ & ->)|(Hp & _)]].
  - by destruct (Hr r0).
  - done.
  - by destruct (Hp r).
Qed.

Lemma NormalizePath_buf_rel path :
  (∀ r, path ≠ "/"%char :: r) →
  NormalizePath_buf path = M true [] 0 AtStart path.
Proof.
  intros Hp. rewrite NormalizePath_buf_machine.
  destruct (NormalizePath_init_cases path)
    as [(r0 & -> & _)|[(r0 & -> & _)|(_ & ->)]].
  - by destruct (Hp ("/"%char :: r0)).
  - by destruct (Hp r0).
  - simpl. by rewrite drop_0.
Qed.

Lemma NF_fixed s : NF s → NormalizePath_buf s = s.
Proof.
  destruct 1 as [segs last Hs Hl|segs last Hs Hl|n segs last Hs Hl|n].
  - rewrite NormalizePath_buf_root1.
    2:{ intros r' Hr. by pose proof (head_join _ _ _ _ Hs Hl Hr). }
    destruct segs as [|w segs].
    + simpl. by rewrite M_last.
    + rewrite M_join by (done || by left). by rewrite M_last.
  - rewrite NormalizePath_buf_root2.
    rewrite M_join by (done || by right). by rewrite M_last.
  - rewrite NormalizePath_buf_rel.
    2:{ intros r Hr. destruct n as [|n]; [|done].
        by pose proof (head_join _ _ _ _ Hs Hl Hr). }
    rewrite M_ups_start. destruct n as [|n].
    + destruct segs as [|w segs].
      * simpl. by rewrite M_last.
      * rewrite M_join by (done || by left). by rewrite M_last.
    + rewrite M_join by (done || by right). rewrite M_last by done.
      by rewrite app_assoc.
  - rewrite NormalizePath_buf_rel.
    2:{ intros r Hr. by destruct n. }
    rewrite M_ups_start.
    rewrite M_up_end by (by destruct n).
    pose proof (aup_rel_top 2 (ups n)) as H2. rewrite length_ups in H2.
    rewrite H2. cbn [fst]. change (2 =? 3) with false. cbn iota.
    by rewrite app_nil_r.
Qed.

Lemma NormalizePath_buf_idempotent path :
  NormalizePath_buf (NormalizePath_buf path) = NormalizePath_buf path.
Proof. apply NF_fixed, NormalizePath_buf_NF. Qed.

(** ** Absolute paths: popping below the root is impossible *)

Lemma count_slashes_app a b :
  count_slashes (a ++ b) = count_slashes a + count_slashes b.
Proof. unfold count_slashes. by rewrite filter_app, length_app. Qed.

Lemma count_slashes_cons c l :
  count_slashes (c :: l) = (if IsSlash c then 1 else 0) + count_slashes l.
Proof.
  unfold count_slashes. rewrite filter_cons.
  destruct (decide (IsSlash c = true)) as [->|H]; [done|].
  by destruct (IsSlash c).
Qed.

Lemma count_slashes_nonslash w : nonslash w → count_slashes w = 0.
Proof.
  induction 1 as [|c w Hc _ IH]; [done|].
  by rewrite count_slashes_cons, Hc, IH.
Qed.

Lemma count_slashes_join segs :
  Forall nonslash segs → count_slashes (join segs) = length segs.
Proof.
  induction 1 as [|w segs Hw _ IH]; [done|].
  change (join (w :: segs)) with ((w ++ ["/"%char]) ++ join segs).
  rewrite !count_slashes_app, count_slashes_nonslash, IH by done. done.
Qed.

Lemma invert_from_ups from value :
  invert_from from value = ups (count_slashes (drop from value)).
Proof.
  unfold invert_from. induction (drop from value) as [|c l IH]; [done|].
  simpl. rewrite count_slashes_cons, IH. by destruct (IsSlash c).
Qed.

Lemma aup_abs n root segs :
  root = ["/"%char] ∨ root = ["/"; "/"]%char → Forall ordinary segs →
  aup false n (root ++ join segs) (length root)
  = (root ++ join (take (length segs - 1) segs), length root).
Proof.
  intros Hr Hs. destruct segs as [|w segs _] using rev_ind.
  - change (join (take (length (@nil (list ascii)) - 1) []))
      with (@nil ascii).
    change (join []) with (@nil ascii). rewrite app_nil_r. apply aup_abs_top.
  - apply Forall_app in Hs as [Hs Hw]. inversion Hw as [|? ? Hw' _]; subst.
    rewrite length_app. simpl.
    replace (length segs + 1 - 1) with (length segs) by lia.
    rewrite take_app_length. rewrite join_snoc, app_assoc.
    apply aup_pop.
    + by apply ordinary_nonslash.
    + apply slash_ended_app_join. by apply slash_ended_root.
    + pose proof (ordinary_length _ Hw'). rewrite length_app. lia.
Qed.

Lemma Forall_take_ordinary k segs :
  Forall ordinary segs → Forall ordinary (take k segs).
Proof. apply Forall_take. Qed.

Lemma slash_ended_tail c l :
  slash_ended (c :: l) → slash_ended l.
Proof.
  intros [?|(X & s & Heq & Hs)]; [done|].
  destruct X as [|x X]; simplify_eq/=; [by left|].
  right. by exists X, s.
Qed.

Lemma slash_ended_app_r a b : slash_ended (a ++ b) → b ≠ [] → slash_ended b.
Proof.
  induction a as [|c a IH]; [done|]. intros H Hb. apply IH; [|done].
  by eapply slash_ended_tail.
Qed.

Lemma nonslash_not_slash_ended w : nonslash w → slash_ended w → w = [].
Proof.
  intros Hw [->|(X & s & -> & Hs)]; [done|].
  apply Forall_app in Hw as [_ Hw]. inversion Hw; congruence.
Qed.

(** Processing a slash-terminated stretch of input from a boundary of an
    absolute path ends at a boundary again, with at most one segment more
    per separator read. *)
Lemma M_abs_prefix root n : ∀ body segs,
  root = ["/"%char] ∨ root = ["/"; "/"]%char →
  length body ≤ n → slash_ended body → Forall ordinary segs →
  ∃ segs', Forall ordinary segs'
    ∧ length segs' ≤ length segs + count_slashes body
    ∧ ∀ X, M false (root ++ join segs) (length root) AfterSlash (body ++ X)
           = M false (root ++ join segs') (length root) AfterSlash X.
Proof.
  induction n as [|n IH]; intros body segs Hroot Hlen Hend Hs.
  { destruct body; [|simpl in Hlen; lia]. exists segs.
    split; [done|]. split; [lia|done]. }
  destruct (span_nonslash body) as (w & r & -> & Hw & Hr).
  destruct Hr as [->|(s & r' & -> & Hsl)].
  { rewrite app_nil_r in Hend.
    rewrite (nonslash_not_slash_ended w Hw Hend). exists segs.
    split; [done|]. split; [simpl; lia|done]. }
  assert (Hend' : slash_ended r').
  { destruct r' as [|c r'']; [by left|].
    apply (slash_ended_app_r (w ++ [s])); [|done].
    by rewrite <- app_assoc. }
  rewrite length_app in Hlen. simpl in Hlen.
  rewrite count_slashes_app, count_slashes_nonslash, count_slashes_cons, Hsl
    by done.
  destruct (seg_cases w Hw) as [->|[->|[->|Hord]]].
  - destruct (IH r' segs Hroot ltac:(lia) Hend' Hs) as (segs' & H1 & H2 & H3).
    exists segs'. split; [done|]. split; [lia|]. intros X. simpl.
    rewrite M_slash_skip by done. apply H3.
  - destruct (IH r' segs Hroot ltac:(simpl in Hlen; lia) Hend' Hs)
      as (segs' & H1 & H2 & H3).
    exists segs'. split; [done|]. split; [lia|]. intros X. simpl.
    rewrite M_cur by done. apply H3.
  - destruct (IH r' (take (length segs - 1) segs) Hroot
                ltac:(simpl in Hlen; lia) Hend'
                ltac:(by apply Forall_take_ordinary))
      as (segs' & H1 & H2 & H3).
    rewrite length_take in H2.
    exists segs'. split; [done|]. split; [lia|]. intros X. simpl.
    rewrite M_up by done. rewrite aup_abs by done. apply H3.
  - destruct (IH r' (segs ++ [w]) Hroot ltac:(lia) Hend'
                ltac:(apply Forall_app; split; [done|by constructor]))
      as (segs' & H1 & H2 & H3).
    rewrite length_app in H2. simpl in H2.
    exists segs'. split; [done|]. split; [lia|]. intros X.
    rewrite <- app_assoc. rewrite M_seg by (done || by right; exists s, (r' ++ X)).
    simpl. rewrite M_slash_push by done.
    rewrite <- !app_assoc, <- join_snoc. apply H3.
Qed.

Lemma M_abs_ups root k : ∀ segs,
  root = ["/"%char] ∨ root = ["/"; "/"]%char →
  Forall ordinary segs → length segs ≤ k →
  M false (root ++ join segs) (length root) AfterSlash (ups k) = root.
Proof.
  induction k as [|k IH]; intros segs Hroot Hs Hlen.
  { destruct segs; [|simpl in Hlen; lia]. rewrite M_nil.
    change (join []) with (@nil ascii). by rewrite app_nil_r. }
  rewrite ups_S. unfold dotdot_slash. cbn [app].
  rewrite M_up by done. rewrite aup_abs by done. cbn [fst snd].
  apply IH; [done|by apply Forall_take_ordinary|].
  rewrite length_take. lia.
Qed.

(** ** Strings and buffers *)

Lemma list_ascii_of_string_app (a b : string) :
  list_ascii_of_string (String.append a b)
  = list_ascii_of_string a ++ list_ascii_of_string b.
Proof. induction a as [|c a IH]; [done|]. simpl. by rewrite IH. Qed.

Lemma string_of_list_ascii_app (a b : list ascii) :
  string_of_list_ascii (a ++ b)
  = String.append (string_of_list_ascii a) (string_of_list_ascii b).
Proof. induction a as [|c a IH]; [done|]. simpl. by rewrite IH. Qed.

Lemma string_of_ups n :
  string_of_list_ascii (ups n) = string_repeat "../" n.
Proof.
  induction n as [|n IH]; [done|].
  rewrite ups_S, string_of_list_ascii_app, IH. done.
Qed.

Lemma NormalizePath_as_buf (p : string) :
  list_ascii_of_string (NormalizePath p)
  = NormalizePath_buf (list_ascii_of_string p).
Proof. unfold NormalizePath. apply list_ascii_of_string_of_list_ascii. Qed.

(** ** Inversion *)

Lemma EndsWithSlash_slash_ended d :
  EndsWithSlash_buf d = true → slash_ended d.
Proof.
  unfold EndsWithSlash_buf. destruct d as [|s d _] using rev_ind; [done|].
  rewrite length_app. simpl.
  replace (length d + 1 - 1) with (length d) by lia.
  rewrite char_at_app_r by lia. rewrite Nat.sub_diag.
  intros H. apply andb_true_iff in H as [_ H].
  right. by exists d, s.
Qed.

Lemma is_source_absolute_inv value :
  is_source_absolute value = true →
  ∃ body, value = "/"%char :: "/"%char :: body.
Proof.
  unfold is_source_absolute. destruct value as [|a [|b body]]; try done.
  unfold char_at; simpl.
  destruct (Ascii.eqb_spec a "/") as [->|]; [|done].
  destruct (Ascii.eqb_spec b "/") as [->|]; [|done]. by exists body.
Qed.

Lemma InvertDir_buf_source_absolute body :
  InvertDir_buf ("/"%char :: "/"%char :: body) = ups (count_slashes body).
Proof. unfold InvertDir_buf. simpl. by rewrite invert_from_ups. Qed.

Lemma InvertDir_buf_roundtrip d :
  is_source_absolute d = true → EndsWithSlash_buf d = true →
  NormalizePath_buf (d ++ InvertDir_buf d) = ["/"; "/"]%char.
Proof.
  intros Ha He. destruct (is_source_absolute_inv d Ha) as [body ->].
  rewrite InvertDir_buf_source_absolute.
  assert (Hend : slash_ended body).
  { apply EndsWithSlash_slash_ended in He.
    destruct body as [|c body]; [by left|].
    apply (slash_ended_app_r ["/"; "/"]%char); done. }
  simpl. rewrite NormalizePath_buf_root2.
  destruct (M_abs_prefix ["/"; "/"]%char (length body) body []
              ltac:(by right) ltac:(done) Hend ltac:(constructor))
    as (segs & Hs & Hlen & HM).
  etransitivity; [exact (HM (ups (count_slashes body)))|].
  apply (M_abs_ups ["/"; "/"]%char); [by right|done|simpl in Hlen; lia].
Qed.

(** ** Rebasing *)

Lemma fwd_only_nonslash w : nonslash w → fwd_only w.
Proof.
  unfold nonslash, fwd_only. intros H. eapply Forall_impl; [exact H|].
  intros c Hc. by rewrite Hc.
Qed.

Lemma fwd_only_join segs : Forall ordinary segs → fwd_only (join segs).
Proof.
  induction 1 as [|w segs Hw _ IH]; [constructor|].
  change (join (w :: segs)) with ((w ++ ["/"%char]) ++ join segs).
  apply Forall_app; split; [|done].
  apply Forall_app; split; [by apply fwd_only_nonslash, ordinary_nonslash|].
  by constructor.
Qed.

Lemma fwd_only_ups n : fwd_only (ups n).
Proof.
  induction n as [|n IH]; [constructor|]. rewrite ups_S.
  apply Forall_app; split; [|done]. by repeat constructor.
Qed.

Lemma fwd_only_last last : last_ok last → fwd_only last.
Proof.
  intros [->|H]; [constructor|]. by apply fwd_only_nonslash, ordinary_nonslash.
Qed.

Lemma NF_fwd_only s : NF s → fwd_only s.
Proof.
  destruct 1 as [segs last Hs Hl|segs last Hs Hl|n segs last Hs Hl|n].
  - constructor; [done|].
    apply Forall_app; split; [by apply fwd_only_join|by apply fwd_only_last].
  - do 2 (constructor; [done|]).
    apply Forall_app; split; [by apply fwd_only_join|by apply fwd_only_last].
  - apply Forall_app; split; [apply fwd_only_ups|].
    apply Forall_app; split; [by apply fwd_only_join|by apply fwd_only_last].
  - apply Forall_app; split; [apply fwd_only_ups|by repeat constructor].
Qed.

Lemma fwd_only_char_at l i :
  fwd_only l → i < length l → IsSlash (char_at l i) = true →
  char_at l i = "/"%char.
Proof.
  intros Hl Hi. destruct (lookup_lt_is_Some_2 l i Hi) as [c Hc].
  rewrite (char_at_lookup _ _ _ Hc).
  unfold fwd_only in Hl. rewrite Forall_lookup in Hl. by eapply Hl.
Qed.

Lemma take_S_char_at (l : list ascii) i :
  i < length l → take (S i) l = take i l ++ [char_at l i].
Proof.
  intros Hi. destruct (lookup_lt_is_Some_2 l i Hi) as [c Hc].
  rewrite (char_at_lookup _ _ _ Hc). by apply take_S_r.
Qed.

Lemma common_prefix_loop_spec n : ∀ i common input dest,
  fwd_only input → fwd_only dest →
  i + n ≤ length input → i + n ≤ length dest →
  take i input = take i dest → common ≤ i →
  let c := common_prefix_loop n i common input dest in
  common ≤ c ∧ c ≤ i + n ∧ take c input = take c dest
  ∧ (c = common ∨ (0 < c ∧ IsSlash (char_at input (c - 1)) = true)).
Proof.
  induction n as [|n IH]; intros i common input dest Hfi Hfd Hli Hld Ht Hc.
  { simpl. split; [lia|]. split; [lia|]. split; [|by left].
    rewrite <- (Nat.min_l common i), <- !take_take by lia. by rewrite Ht. }
  cbn [common_prefix_loop].
  destruct (IsSlash (char_at input i) && IsSlash (char_at dest i)) eqn:Hs.
  - apply andb_true_iff in Hs as [Hs1 Hs2].
    assert (Ht' : take (i + 1) input = take (i + 1) dest).
    { replace (i + 1) with (S i) by lia.
      rewrite !take_S_char_at by lia.
      rewrite (fwd_only_char_at input), (fwd_only_char_at dest)
        by (done || lia). by rewrite Ht. }
    destruct (IH (i + 1) (i + 1) input dest Hfi Hfd ltac:(lia) ltac:(lia)
                 Ht' ltac:(lia)) as (H0 & H1 & H2 & H3).
    split; [lia|]. split; [lia|]. split; [done|]. right.
    destruct H3 as [->|H3]; [|done].
    split; [lia|]. by replace (i + 1 - 1) with i by lia.
  - destruct (Ascii.eqb_spec (char_at input i) (char_at dest i)) as [He|Hne];
      simpl.
    + assert (Ht' : take (i + 1) input = take (i + 1) dest).
      { replace (i + 1) with (S i) by lia.
        rewrite !take_S_char_at by lia. by rewrite Ht, He. }
      destruct (IH (i + 1) common input dest Hfi Hfd ltac:(lia) ltac:(lia)
                   Ht' ltac:(lia)) as (H0 & H1 & H2 & H3).
      split; [lia|]. split; [lia|]. done.
    + split; [lia|]. split; [lia|]. split; [|by left].
      rewrite <- (Nat.min_l common i), <- !take_take by lia. by rewrite Ht.
Qed.

(** A prefix of [seg1/.../segk/last] that ends in a separator consists of
    whole segments. *)
Lemma split_join segs : ∀ P R last,
  Forall nonslash segs → nonslash last → slash_ended P →
  P ++ R = join segs ++ last →
  ∃ s1 s2, segs = s1 ++ s2 ∧ P = join s1 ∧ R = join s2 ++ last.
Proof.
  induction segs as [|w segs IH]; intros P R last Hs Hl HP Heq.
  - simpl in Heq. destruct HP as [->|(X & s & -> & Hsl)].
    + exists [], []. by repeat split.
    + subst last. rewrite <- app_assoc in Hl.
      apply Forall_app in Hl as [_ Hl]. inversion Hl; congruence.
  - inversion Hs as [|? ? Hw Hs']; subst.
    destruct HP as [->|(X & s & -> & Hsl)].
    { exists [], (w :: segs). by repeat split. }
    change (join (w :: segs)) with ((w ++ ["/"%char]) ++ join segs) in Heq.
    rewrite <- !app_assoc in Heq.
    apply app_eq_inv in Heq as [(k & Hk1 & Hk2)|(k & Hk1 & Hk2)].
    + (* X = w ++ k *)
      destruct k as [|c k].
      * (* X = w, s is the separator *)
        rewrite app_nil_r in Hk1. subst X. simpl in Hk2.
        injection Hk2 as <- Hk2.
        destruct (IH [] R last Hs' Hl ltac:(by left) (eq_sym Hk2))
          as (s1 & s2 & -> & H1 & ->).
        destruct s1 as [|? ?]; [|by destruct l].
        exists [w], s2. repeat split. by rewrite join_single.
      * simpl in Hk2. injection Hk2 as <- Hk2.
        destruct (IH (k ++ [s]) R last Hs' Hl
                    ltac:(by right; exists k, s)) as (s1 & s2 & -> & H1 & ->).
        { by rewrite <- app_assoc. }
        exists (w :: s1), s2. repeat split.
        change (join (w :: s1)) with ((w ++ ["/"%char]) ++ join s1).
        rewrite <- H1, Hk1. by rewrite <- !app_assoc.
    + (* w = X ++ k, so s occurs in w *)
      simpl in Hk2. destruct k as [|c k].
      * rewrite app_nil_r in Hk1. subst X. simpl in Hk2.
        injection Hk2 as -> Hk2.
        destruct (IH [] R last Hs' Hl ltac:(by left) Hk2)
          as (s1 & s2 & -> & H1 & ->).
        destruct s1 as [|? ?]; [|by destruct l].
        exists [w], s2. repeat split. by rewrite join_single.
      * simpl in Hk2. injection Hk2 as -> _. subst w.
        apply Forall_app in Hw as [_ Hw]. inversion Hw; congruence.
Qed.

Lemma M_abs_pops root s2 : ∀ s1 X,
  root = ["/"%char] ∨ root = ["/"; "/"]%char →
  Forall ordinary (s1 ++ s2) →
  M false (root ++ join (s1 ++ s2)) (length root) AfterSlash
    (ups (length s2) ++ X)
  = M false (root ++ join s1) (length root) AfterSlash X.
Proof.
  induction s2 as [|w s2 IH] using rev_ind; intros s1 X Hroot Hs.
  { by rewrite app_nil_r. }
  rewrite length_app. simpl.
  replace (length s2 + 1) with (S (length s2)) by lia.
  rewrite ups_S. unfold dotdot_slash. cbn [app].
  rewrite M_up by done. rewrite aup_abs by done. cbn [fst snd].
  rewrite app_assoc, length_app. simpl.
  replace (length (s1 ++ s2) + 1 - 1) with (length (s1 ++ s2)) by lia.
  rewrite take_app_length. apply IH; [done|].
  rewrite app_assoc in Hs. by apply Forall_app in Hs as [Hs _].
Qed.

Lemma NF_source_absolute s :
  NF s → ∀ body, s = "/"%char :: "/"%char :: body →
  ∃ segs last, body = join segs ++ last ∧ Forall ordinary segs ∧ last_ok last.
Proof.
  destruct 1 as [segs last Hs Hl|segs last Hs Hl|n segs last Hs Hl|n];
    intros body Heq.
  - injection Heq as Heq. by pose proof (head_join _ _ _ _ Hs Hl Heq).
  - injection Heq as <-. by exists segs, last.
  - destruct n as [|n]; [|done].
    by pose proof (head_join _ _ _ _ Hs Hl Heq).
  - by destruct n.
Qed.

Lemma Forall_ordinary_nonslash segs :
  Forall ordinary segs → Forall nonslash segs.
Proof. intros H. eapply Forall_impl; [exact H|]. apply ordinary_nonslash. Qed.

Lemma last_ok_nonslash last : last_ok last → nonslash last.
Proof. intros [->|H]; [constructor|by apply ordinary_nonslash]. Qed.

Lemma rebase_roundtrip_buf f dst :
  is_source_absolute f = true → is_source_absolute dst = true →
  EndsWithSlash_buf dst = true →
  NormalizePath_buf f = f → NormalizePath_buf dst = dst →
  ∃ r, RebaseSourceAbsolutePath_buf f dst = Some r
       ∧ NormalizePath_buf (dst ++ r) = f.
Proof.
  intros Haf Had Hend Hnf Hnd.
  pose proof (NormalizePath_buf_NF f) as HNFf. rewrite Hnf in HNFf.
  pose proof (NormalizePath_buf_NF dst) as HNFd. rewrite Hnd in HNFd.
  pose proof (NF_fwd_only _ HNFf) as Hff.
  pose proof (NF_fwd_only _ HNFd) as Hfd.
  unfold RebaseSourceAbsolutePath_buf. rewrite Haf, Had. simpl.
  destruct (is_source_absolute_inv f Haf) as [fb ->].
  destruct (is_source_absolute_inv dst Had) as [db ->].
  destruct (NF_source_absolute _ HNFf fb eq_refl) as (fs & fl & -> & Hfs & Hfl).
  destruct (NF_source_absolute _ HNFd db eq_refl) as (ds & dl & -> & Hds & Hdl).
  assert (dl = []) as ->.
  { destruct Hdl as [->|Hdl]; [done|]. exfalso.
    apply EndsWithSlash_slash_ended in Hend.
    pose proof (ordinary_length _ Hdl).
    assert (Hne : dl ≠ []) by (intros ->; simpl in *; lia).
    apply (slash_ended_app_r ("/"%char :: "/"%char :: join ds)) in Hend;
      [|done].
    by apply nonslash_not_slash_ended in Hend; [|apply ordinary_nonslash]. }
  rewrite app_nil_r in *.
  set (f := "/"%char :: "/"%char :: join fs ++ fl) in *.
  set (dst := "/"%char :: "/"%char :: join ds) in *.
  set (n := Nat.min (length f) (length dst) - 2).
  assert (Hlf : 2 ≤ length f) by (unfold f; simpl; lia).
  assert (Hld : 2 ≤ length dst) by (unfold dst; simpl; lia).
  destruct (common_prefix_loop_spec n 2 2 f dst Hff Hfd
              ltac:(unfold n; lia) ltac:(unfold n; lia) eq_refl ltac:(lia))
    as (Hc2 & Hcn & Htake & Hslash).
  set (c := common_prefix_loop n 2 2 f dst) in *.
  (* the common prefix consists of whole segments *)
  set (P := take (c - 2) (join fs ++ fl)).
  assert (HPf : take c f = "/"%char :: "/"%char :: P).
  { unfold f, P. replace c with (S (S (c - 2))) at 1 by lia. done. }
  assert (HPd : take c dst = "/"%char :: "/"%char :: take (c - 2) (join ds)).
  { unfold dst. replace c with (S (S (c - 2))) at 1 by lia. done. }
  assert (HPeq : take (c - 2) (join ds) = P) by congruence.
  assert (HPend : slash_ended P).
  { destruct Hslash as [Hc|[_ Hs]]; [left; unfold P; by rewrite Hc|].
    destruct (decide (c = 2)) as [Hc|Hc]; [left; unfold P; by rewrite Hc|].
    right. exists (take (c - 3) (join fs ++ fl)),
                  (char_at (join fs ++ fl) (c - 3)).
    split.
    - unfold P. replace (c - 2) with (S (c - 3)) by lia.
      apply take_S_char_at. unfold f in Hlf, Hcn. simpl in Hcn. unfold n in Hcn.
      simpl in *. lia.
    - unfold f in Hs. replace (c - 1) with (S (S (c - 3))) in Hs by lia.
      exact Hs. }
  destruct (split_join fs P (drop (c - 2) (join fs ++ fl)) fl
              (Forall_ordinary_nonslash _ Hfs) (last_ok_nonslash _ Hfl) HPend
              (take_drop _ _)) as (f1 & f2 & -> & HP1 & HR).
  destruct (split_join ds P (drop (c - 2) (join ds)) []
              (Forall_ordinary_nonslash _ Hds) ltac:(constructor) HPend)
    as (d1 & d2 & -> & HP2 & HD).
  { rewrite <- HPeq, app_nil_r. apply take_drop. }
  rewrite app_nil_r in HD.
  rewrite invert_from_ups.
  assert (Hdropd : drop c dst = join d2).
  { unfold dst. replace c with (S (S (c - 2))) at 1 by lia. exact HD. }
  assert (Hdropf : drop c f = join f2 ++ fl).
  { unfold f. replace c with (S (S (c - 2))) at 1 by lia. exact HR. }
  rewrite Hdropd, Hdropf.
  apply Forall_app in Hds as [Hd1 Hd2]. apply Forall_app in Hfs as [Hf1 Hf2].
  rewrite count_slashes_join by (by apply Forall_ordinary_nonslash).
  assert (Hf : f = ["/"; "/"]%char ++ join d1 ++ join f2 ++ fl).
  { unfold f. rewrite join_app, <- app_assoc. simpl. by rewrite <- HP1, HP2. }
  eexists. split; [reflexivity|].
  destruct (length (ups (length d2) ++ join f2 ++ fl) =? 0) eqn:Hz.
  - apply Nat.eqb_eq in Hz. apply nil_length_inv in Hz.
    apply app_eq_nil in Hz as [Hz1 Hz2].
    assert (d2 = []) as ->.
    { destruct d2; [done|]. cbn in Hz1. discriminate. }
    rewrite Hz2, app_nil_r in Hf. rewrite Hf.
    unfold dst. rewrite app_nil_r. simpl.
    rewrite NormalizePath_buf_root2.
    rewrite M_join by (done || by right). by rewrite M_cur_end.
  - rewrite Hf. unfold dst. simpl.
    rewrite NormalizePath_buf_root2.
    rewrite (M_join false (d1 ++ d2))
      by ((apply Forall_app; by split) || by right).
    change 2 with (length ["/"; "/"]%char).
    rewrite (M_abs_pops ["/"; "/"]%char d2 d1)
      by ((by right) || (apply Forall_app; by split)).
    rewrite M_join by (done || by right).
    rewrite M_last by done. by rewrite <- !app_assoc.
Qed.

(** ** The in-place rewrite stays behind the read position *)

Lemma body_unread rel st :
  loop_inv st → src_i st < length (pathbuf st) →
  drop (src_i (NormalizePath_body rel st)) (pathbuf (NormalizePath_body rel st))
  = drop (src_i (NormalizePath_body rel st)) (pathbuf st).
Proof.
  intros [Hd Hs] Hlt. unfold NormalizePath_body.
  assert (Hcopy : drop (src_i (copy_char st)) (pathbuf (copy_char st))
                  = drop (src_i (copy_char st)) (pathbuf st)).
  { unfold copy_char; simpl. apply drop_insert_lt. lia. }
  destruct (Ascii.eqb _ _).
  - destruct (_ || _); [|done].
    destruct (ClassifyAfterDot_cases (pathbuf st) (src_i st + 1))
      as [[H ?]|[[H [? Hsl]]|[[H [? ?]]|[[H (?&?&?&?)]|H]]]]; rewrite H;
      [done|done| | |done].
    + unfold directory_up.
      destruct (top_index st <? dest_i st);
        destruct (_ =? top_index st); destruct rel; simpl; try done;
        rewrite !drop_insert_lt by lia; done.
    + unfold directory_up.
      destruct (top_index st <? dest_i st);
        destruct (_ =? top_index st); destruct rel; simpl; try done;
        rewrite !drop_insert_lt by lia; done.
  - destruct (IsSlash _); [|done].
    destruct (_ && _); simpl; [done|]. apply drop_insert_lt. lia.
Qed.

Lemma loop_unread rel fuel : ∀ st,
  loop_inv st →
  let st' := NormalizePath_loop fuel rel st in
  src_i st ≤ src_i st'
  ∧ drop (src_i st') (pathbuf st') = drop (src_i st') (pathbuf st).
Proof.
  induction fuel as [|fuel IH]; intros st Hinv; [done|].
  cbn [NormalizePath_loop].
  destruct (Nat.ltb_spec (src_i st) (length (pathbuf st))) as [Hlt|Hge];
    [|done].
  destruct (body_inv rel st Hinv Hlt) as (Hinv' & Hsrc & Hlen).
  destruct (IH _ Hinv') as [Hle Hdrop]. split; [lia|].
  cbn zeta in *. rewrite Hdrop.
  set (st1 := NormalizePath_body rel st) in *.
  set (s2 := src_i (NormalizePath_loop fuel rel st1)) in *.
  replace s2 with (src_i st1 + (s2 - src_i st1)) by lia.
  rewrite <- !drop_drop. f_equal. by apply body_unread.
Qed.

Lemma length_list_ascii_of_string (s : string) :
  length (list_ascii_of_string s) = String.length s.
Proof. induction s as [|c s IH]; [done|]. simpl. by rewrite IH. Qed.

Lemma length_string_of_list_ascii (l : list ascii) :
  String.length (string_of_list_ascii l) = length l.
Proof. induction l as [|c l IH]; [done|]. simpl. by rewrite IH. Qed.

Lemma NormalizePath_init_top path :
  (NormalizePath_init path).2 ≤ length path.
Proof.
  destruct (NormalizePath_init_cases path)
    as [(r & -> & ->)|[(r & -> & _ & ->)|(_ & ->)]]; simpl; lia.
Qed.

(** ** Prefixes of the input *)

Lemma M_prefix n : ∀ body rel out top prev,
  length body ≤ n → slash_ended body → Bnd rel out top prev →
  ∃ out' top' prev', Bnd rel out' top' prev'
    ∧ ∀ X, M rel out top prev (body ++ X) = M rel out' top' prev' X.
Proof.
  induction n as [|n IH]; intros body rel out top prev Hlen Hend HB.
  { destruct body; [|simpl in Hlen; lia]. by exists out, top, prev. }
  pose proof (Bnd_boundary _ _ _ _ HB) as Hb.
  destruct (span_nonslash body) as (w & r & -> & Hw & Hr).
  destruct Hr as [->|(s & r' & -> & Hsl)].
  { rewrite app_nil_r in Hend.
    rewrite (nonslash_not_slash_ended w Hw Hend). by exists out, top, prev. }
  assert (Hend' : slash_ended r').
  { destruct r' as [|c r'']; [by left|].
    apply (slash_ended_app_r (w ++ [s])); [|done].
    by rewrite <- app_assoc. }
  rewrite length_app in Hlen. simpl in Hlen.
  destruct (seg_cases w Hw) as [->|[->|[->|Hord]]]; simpl in Hlen.
  - destruct prev; [| |done].
    + inversion HB; subst.
      destruct (IH r' true ["/"%char] 0 AfterSlash ltac:(lia) Hend'
                  (Bnd_slash [] ltac:(constructor)))
        as (out' & top' & prev' & HB' & HM).
      exists out', top', prev'. split; [done|]. intros X. simpl.
      rewrite M_slash_push by done. apply HM.
    + destruct (IH r' rel out top AfterSlash ltac:(lia) Hend' HB)
        as (out' & top' & prev' & HB' & HM).
      exists out', top', prev'. split; [done|]. intros X. simpl.
      rewrite M_slash_skip by done. apply HM.
  - destruct (IH r' rel out top AfterSlash ltac:(lia) Hend'
                ltac:(by eapply Bnd_after))
      as (out' & top' & prev' & HB' & HM).
    exists out', top', prev'. split; [done|]. intros X. simpl.
    rewrite M_cur by done. apply HM.
  - destruct (IH r' rel _ _ AfterSlash ltac:(lia) Hend'
                (aup_Bnd _ _ _ _ HB))
      as (out' & top' & prev' & HB' & HM).
    exists out', top', prev'. split; [done|]. intros X. simpl.
    rewrite M_up by done. apply HM.
  - destruct (IH r' rel _ top AfterSlash ltac:(lia) Hend'
                (Bnd_push _ _ _ _ w HB Hord))
      as (out' & top' & prev' & HB' & HM).
    exists out', top', prev'. split; [done|]. intros X.
    rewrite <- app_assoc.
    rewrite M_seg by (done || by right; exists s, (r' ++ X)).
    simpl. rewrite M_slash_push by done. rewrite <- app_assoc. apply HM.
Qed.

Lemma M_abs_eat root k : ∀ X,
  M false root (length root) AfterSlash (ups k ++ X)
  = M false root (length root) AfterSlash X.
Proof.
  induction k as [|k IH]; intros X; [done|].
  rewrite ups_S. unfold dotdot_slash. cbn [app].
  rewrite M_up by done. rewrite aup_abs_top. apply IH.
Qed.

Lemma Bnd_empty_out rel top prev :
  Bnd rel [] top prev → rel = true ∧ top = 0 ∧ at_boundary prev = true.
Proof.
  intros H. remember (@nil ascii) as o eqn:Ho.
  destruct H as [root segs [->| ->] Hs| |n segs Hs|segs Hs];
    try discriminate.
  - done.
  - apply app_eq_nil in Ho as [Hn _].
    destruct n; [done|discriminate].
Qed.

Lemma M_ups_empty k prev X :
  at_boundary prev = true →
  M true [] 0 prev (ups k ++ X)
  = M true (ups k) (3 * k) (match k with 0 => prev | _ => AfterSlash end) X.
Proof. apply (M_ups k 0 prev X). Qed.

(** A relative path that has collapsed to nothing: further [".."] are kept
    and pile up. *)
Lemma NormalizePath_buf_collapsed_ups p k :
  (∀ r, p ≠ "/"%char :: r) → slash_ended p → NormalizePath_buf p = [] →
  NormalizePath_buf (p ++ ups k) = ups k
  ∧ NormalizePath_buf (p ++ ups k ++ ["."; "."]%char)
    = ups k ++ ["."; "."]%char.
Proof.
  intros Hrel Hend Hnil.
  assert (Hrel' : ∀ X, (∀ r, X ≠ "/"%char :: r) → ∀ r, p ++ X ≠ "/"%char :: r).
  { intros X HX r. destruct p as [|c p]; [apply HX|].
    simpl. intros [= -> _]. by apply (Hrel p). }
  destruct (M_prefix (length p) p true [] 0 AtStart ltac:(done) Hend Bnd_start)
    as (out' & top' & prev' & HB & HM).
  assert (out' = []) as ->.
  { rewrite <- Hnil, NormalizePath_buf_rel by done.
    rewrite <- (app_nil_r p) at 1. by rewrite HM, M_nil. }
  destruct (Bnd_empty_out _ _ _ HB) as (_ & -> & Hb).
  split.
  - rewrite NormalizePath_buf_rel.
    2:{ apply Hrel'. intros r. by destruct k. }
    rewrite HM. rewrite <- (app_nil_r (ups k)) at 1.
    rewrite M_ups_empty by done. by rewrite M_nil.
  - rewrite NormalizePath_buf_rel.
    2:{ apply Hrel'. intros r. by destruct k. }
    rewrite HM.
    rewrite M_ups_empty by done.
    rewrite M_up_end by (by destruct k).
    pose proof (aup_rel_top 2 (ups k)) as H2. rewrite length_ups in H2.
    rewrite H2. cbn [fst]. change (2 =? 3) with false.
    cbn iota. by rewrite app_nil_r.
Qed.

(** In an absolute path, [".."] at the root is dropped. *)
Lemma NormalizePath_buf_root_ups root k segs last :
  root = ["/"%char] ∨ root = ["/"; "/"]%char →
  Forall ordinary segs → last_ok last →
  NormalizePath_buf (root ++ ups k ++ join segs ++ last)
  = root ++ join segs ++ last
  ∧ NormalizePath_buf (root ++ ups k ++ ["."; "."]%char) = root.
Proof.
  intros Hroot Hs Hl.
  assert (Hinit : ∀ X, (∀ r, ups k ++ X ≠ "/"%char :: r) →
            NormalizePath_buf (root ++ ups k ++ X)
            = M false root (length root) AfterSlash X).
  { intros X HX. destruct Hroot as [->| ->].
    - simpl. rewrite NormalizePath_buf_root1 by done.
      apply (M_abs_eat ["/"%char]).
    - simpl. rewrite NormalizePath_buf_root2.
      apply (M_abs_eat ["/"; "/"]%char). }
  split.
  - rewrite Hinit.
    2:{ intros r Hr. destruct k; [|done].
        by pose proof (head_join _ _ _ _ Hs Hl Hr). }
    rewrite M_join by (done || by right). rewrite M_last by done.
    by rewrite <- app_assoc.
  - rewrite Hinit by (intros r; by destruct k).
    rewrite M_up_end by done. by rewrite aup_abs_top.
Qed.

(** * The path algebra: main results *)

Lemma string_list_eq (a b : string) :
  list_ascii_of_string a = list_ascii_of_string b → a = b.
Proof.
  intros H. rewrite <- (string_of_list_ascii_of_string a),
    <- (string_of_list_ascii_of_string b). by rewrite H.
Qed.

Lemma NormalizePath_fixed_buf (p : string) :
  NormalizePath p = p →
  NormalizePath_buf (list_ascii_of_string p) = list_ascii_of_string p.
Proof. intros H. rewrite <- NormalizePath_as_buf. by rewrite H. Qed.

(** C4.  [NormalizePath] is idempotent: normalizing an already normalized
    path leaves it unchanged, for every path string. *)
Theorem NormalizePath_idempotent (p : string) :
  NormalizePath (NormalizePath p) = NormalizePath p.
Proof.
  apply string_list_eq. rewrite !NormalizePath_as_buf.
  apply NormalizePath_buf_idempotent.
Qed.

(** C10.  The in-place rewrite of [NormalizePath] never overtakes its read
    position: after any number [k] of loop iterations the destination index
    is at most the source index, which is within the buffer; the buffer
    keeps its length and every cell from the source index on still holds
    the input character (no write has landed beyond the characters already
    consumed); and the result is at most as long as the input. *)
Theorem NormalizePath_stays_behind (path : string) (k : nat) :
  let p := list_ascii_of_string path in
  let st :=
    NormalizePath_loop k (NormalizePath_init p).1
      {| pathbuf := p; top_index := (NormalizePath_init p).2;
         dest_i := (NormalizePath_init p).2;
         src_i := (NormalizePath_init p).2 |} in
  dest_i st ≤ src_i st
  ∧ src_i st ≤ String.length path
  ∧ length (pathbuf st) = String.length path
  ∧ drop (src_i st) (pathbuf st) = drop (src_i st) p
  ∧ String.length (NormalizePath path) ≤ String.length path.
Proof.
  intros p st.
  pose proof (NormalizePath_init_top p) as Htop.
  set (st0 := {| pathbuf := p; top_index := (NormalizePath_init p).2;
                 dest_i := (NormalizePath_init p).2;
                 src_i := (NormalizePath_init p).2 |}) in *.
  assert (Hinv : loop_inv st0) by (unfold loop_inv; simpl; lia).
  destruct (loop_abs (NormalizePath_init p).1 k st0 Hinv)
    as (_ & [Hd Hs] & Hl & _).
  destruct (loop_unread (NormalizePath_init p).1 k st0 Hinv) as [_ Hdrop].
  fold st in Hd, Hs, Hl, Hdrop. simpl in Hl, Hdrop.
  rewrite <- (length_list_ascii_of_string path). fold p.
  repeat split; try done; try lia.
  unfold NormalizePath. rewrite length_string_of_list_ascii. fold p.
  unfold NormalizePath_buf, string_resize.
  destruct (NormalizePath_loop_exits p) as (_ & Hdest & Hlen).
  rewrite length_app, length_take, length_replicate. lia.
Qed.

(** C3.  For a source-absolute directory made of [k] internal segments,
    ["//" seg1 "/" ... segk "/"], [InvertDir] returns ["../"] repeated [k]
    times; [InvertDir] of the empty path is empty; for every source-absolute
    directory [d] (a path that begins with ["//"] and ends in a slash),
    normalizing [d] followed by [InvertDir d] gives exactly ["//"]; and
    [InvertDir "//out/Debug/"] is ["../../"]. *)
Theorem InvertDir_correct (segs : list (list ascii)) (d : string) :
  Forall nonslash segs →
  IsSourceAbsolute d = true → EndsWithSlash d = true →
  InvertDir (string_of_list_ascii ("/"%char :: "/"%char :: join segs))
    = string_repeat "../" (length segs)
  ∧ InvertDir "" = ""
  ∧ NormalizePath (String.append d (InvertDir d)) = "//"
  ∧ InvertDir "//out/Debug/" = "../../".
Proof.
  intros Hsegs Habs Hend. repeat split.
  - unfold InvertDir. rewrite list_ascii_of_string_of_list_ascii.
    rewrite InvertDir_buf_source_absolute, count_slashes_join by done.
    apply string_of_ups.
  - apply string_list_eq. rewrite NormalizePath_as_buf.
    rewrite list_ascii_of_string_app. unfold InvertDir.
    rewrite list_ascii_of_string_of_list_ascii.
    by apply InvertDir_buf_roundtrip.
Qed.

Lemma InvertDir_correct_witness :
  InvertDir "//out/Debug/" = string_repeat "../" 2
  ∧ NormalizePath (String.append "//out/Debug/" (InvertDir "//out/Debug/"))
    = "//".
Proof.
  destruct (InvertDir_correct
              [list_ascii_of_string "out"; list_ascii_of_string "Debug"]
              "//out/Debug/") as (H1 & _ & H3 & _).
  - repeat constructor.
  - vm_compute. reflexivity.
  - vm_compute. reflexivity.
  - split; [exact H1|exact H3].
Defined.

(** C2 as stated does not hold: rebasing does not normalize its input, so
    for a file or a directory that is not in normal form the round trip
    ends at the normalized file, not at the file. *)
Lemma rebase_round_trip_counterexample :
  IsSourceAbsolute "//out/" = true ∧ EndsWithSlash "//out/" = true
  ∧ IsSourceAbsolute "//foo//bar.cc" = true
  ∧ RebaseSourceAbsolutePath "//foo//bar.cc" "//out/" = Some "../foo//bar.cc"
  ∧ NormalizePath (String.append "//out/" "../foo//bar.cc") = "//foo/bar.cc"
  ∧ NormalizePath (String.append "//out/" "../foo//bar.cc") ≠ "//foo//bar.cc".
Proof.
  split; [vm_compute; reflexivity|]. split; [vm_compute; reflexivity|].
  split; [vm_compute; reflexivity|]. split; [vm_compute; reflexivity|].
  split; [vm_compute; reflexivity|].
  intros H. vm_compute in H. discriminate H.
Qed.

(** C2, amended.  For every source-absolute directory [dst] and every
    source-absolute file [f] that are both in normal form ([NormalizePath]
    leaves them unchanged), [RebaseSourceAbsolutePath f dst] succeeds, and
    resolving its result against [dst] and normalizing yields [f] again. *)
Theorem rebase_round_trip (f dst : string) :
  IsSourceAbsolute f = true →
  IsSourceAbsolute dst = true → EndsWithSlash dst = true →
  NormalizePath f = f → NormalizePath dst = dst →
  ∃ r, RebaseSourceAbsolutePath f dst = Some r
       ∧ NormalizePath (String.append dst r) = f.
Proof.
  intros Hf Hd He Hnf Hnd.
  destruct (rebase_roundtrip_buf (list_ascii_of_string f)
              (list_ascii_of_string dst) Hf Hd He
              (NormalizePath_fixed_buf _ Hnf) (NormalizePath_fixed_buf _ Hnd))
    as (r & Hr & Hn).
  exists (string_of_list_ascii r). split.
  - unfold RebaseSourceAbsolutePath. by rewrite Hr.
  - apply string_list_eq. rewrite NormalizePath_as_buf.
    by rewrite list_ascii_of_string_app, list_ascii_of_string_of_list_ascii.
Qed.

Lemma rebase_round_trip_witness :
  ∃ r, RebaseSourceAbsolutePath "//foo/bar.cc" "//out/Debug/" = Some r
       ∧ NormalizePath (String.append "//out/Debug/" r) = "//foo/bar.cc".
Proof.
  apply (rebase_round_trip "//foo/bar.cc" "//out/Debug/");
    vm_compute; reflexivity.
Defined.

(** C5 as stated does not hold: the second equation of S6 contradicts the
    rule on trailing slashes.  The input ["a/b/../../.."] does not end in a
    slash, and the result is [".."], not ["../"]. *)
Lemma NormalizePath_S6_counterexample :
  NormalizePath "a/b/../../.." = ".."
  ∧ NormalizePath "a/b/../../.." ≠ "../".
Proof.
  split; [vm_compute; reflexivity|].
  intros H. vm_compute in H. discriminate H.
Qed.

(** C5, amended.  [NormalizePath "//a/b/../../c" = "//c"],
    [NormalizePath "a/b/../../.." = ".."] and
    [NormalizePath "/a/../../b" = "/b"].  In a relative path [p] that has
    collapsed to the empty path, a following [".."] is kept and becomes a new
    root, so that [k] further ["../"] pile up instead of collapsing; the
    result ends in a slash exactly when the input did.  In an absolute path
    any number of [".."] at the root is dropped. *)
Theorem NormalizePath_dotdot_rules (p : list ascii) (k : nat)
    (root : list ascii) (segs : list (list ascii)) (last : list ascii) :
  (∀ r, p ≠ "/"%char :: r) → slash_ended p → NormalizePath_buf p = [] →
  root = ["/"%char] ∨ root = ["/"; "/"]%char →
  Forall ordinary segs → last_ok last →
  NormalizePath "//a/b/../../c" = "//c"
  ∧ NormalizePath "a/b/../../.." = ".."
  ∧ NormalizePath "/a/../../b" = "/b"
  ∧ NormalizePath_buf (p ++ ups k) = ups k
  ∧ NormalizePath_buf (p ++ ups k ++ ["."; "."]%char)
    = ups k ++ ["."; "."]%char
  ∧ NormalizePath_buf (root ++ ups k ++ join segs ++ last)
    = root ++ join segs ++ last
  ∧ NormalizePath_buf (root ++ ups k ++ ["."; "."]%char) = root.
Proof.
  intros Hrel Hend Hnil Hroot Hs Hl.
  destruct (NormalizePath_buf_collapsed_ups p k Hrel Hend Hnil) as [H1 H2].
  destruct (NormalizePath_buf_root_ups root k segs last Hroot Hs Hl)
    as [H3 H4].
  split; [vm_compute; reflexivity|]. split; [vm_compute; reflexivity|].
  split; [vm_compute; reflexivity|].
  split; [exact H1|]. split; [exact H2|]. split; [exact H3|exact H4].
Qed.

Lemma NormalizePath_dotdot_rules_witness :
  NormalizePath_buf (list_ascii_of_string "a/b/../../" ++ ups 2) = ups 2
  ∧ NormalizePath_buf
      (list_ascii_of_string "a/b/../../" ++ ups 2 ++ ["."; "."]%char)
    = ups 2 ++ ["."; "."]%char
  ∧ NormalizePath_buf
      (["/"%char] ++ ups 2 ++ join [list_ascii_of_string "b"] ++ [])
    = ["/"%char] ++ join [list_ascii_of_string "b"] ++ [].
Proof.
  destruct (NormalizePath_dotdot_rules
              (list_ascii_of_string "a/b/../../") 2
              ["/"%char] [list_ascii_of_string "b"] [])
    as (_ & _ & _ & H1 & H2 & H3 & _).
  - intros r. discriminate.
  - right. exists (list_ascii_of_string "a/b/../.."), "/"%char.
    split; reflexivity.
  - vm_compute. reflexivity.
  - left. reflexivity.
  - repeat constructor; discriminate.
  - left. reflexivity.
  - split; [exact H1|split; [exact H2|exact H3]].
Defined.

(** * Source roots and output extensions *)

(** C6.  [MakeAbsolutePathRelativeIfPossible] compares the source root with
    the candidate as strings and does not look for a separator after the
    match, so a sibling directory whose name merely begins with the name of
    the source root is accepted: for the root ["/foo"] the path
    ["/foobar/x"], which is not beneath it, yields [true] and ["//bar/x"].
    The Windows body has the same gap. *)
Theorem MakeAbsolutePathRelativeIfPossible_accepts_sibling :
  IsPathAbsolute HOST_POSIX (list_ascii_of_string "/foo") = true
  ∧ IsPathAbsolute HOST_POSIX (list_ascii_of_string "/foobar/x") = true
  ∧ MakeAbsolutePathRelativeIfPossible HOST_POSIX "/foo" "/foobar/x"
    = (true, "//bar/x")
  ∧ MakeAbsolutePathRelativeIfPossible HOST_POSIX "/foo" "/foo/bar/x"
    = (true, "//bar/x")
  ∧ MakeAbsolutePathRelativeIfPossible HOST_WIN "C:\foo" "C:\foobar\x"
    = (true, "//bar\x").
Proof. repeat split; vm_compute; reflexivity. Qed.

(** C7.  With an empty [output_extension] the extension of a target's
    output is the one [GetExtensionForOutputType] gives, and that function
    matches the platform table: macOS gives empty, [dylib] and [a];
    Windows gives [exe], [dll.lib] and [lib]; Linux gives empty, [so] and
    [a].  In particular a Linux shared library with an empty
    [output_extension] gets [so]. *)
Theorem extension_table (t : Target) :
  output_extension t = "" →
  TargetOutputExtension t
    = GetExtensionForOutputType (output_type t) (target_os (settings t))
  ∧ GetExtensionForOutputType EXECUTABLE Settings.MAC = ""
  ∧ GetExtensionForOutputType SHARED_LIBRARY Settings.MAC = "dylib"
  ∧ GetExtensionForOutputType STATIC_LIBRARY Settings.MAC = "a"
  ∧ GetExtensionForOutputType EXECUTABLE Settings.WIN = "exe"
  ∧ GetExtensionForOutputType SHARED_LIBRARY Settings.WIN = "dll.lib"
  ∧ GetExtensionForOutputType STATIC_LIBRARY Settings.WIN = "lib"
  ∧ GetExtensionForOutputType EXECUTABLE Settings.LINUX = ""
  ∧ GetExtensionForOutputType SHARED_LIBRARY Settings.LINUX = "so"
  ∧ GetExtensionForOutputType STATIC_LIBRARY Settings.LINUX = "a"
  ∧ (target_os (settings t) = Settings.LINUX →
     output_type t = SHARED_LIBRARY → TargetOutputExtension t = "so").
Proof.
  intros He. unfold TargetOutputExtension. rewrite He. simpl.
  repeat split; try reflexivity. by intros -> ->.
Qed.

Lemma extension_table_witness :
  TargetOutputExtension
    {| output_type := SHARED_LIBRARY; output_extension := "";
       sources := ["//foo/input1.cc"; "//foo/input2.cc"]; data := [];
       deps := []; datadeps := []; inherited_libraries := ∅;
       settings := {| target_os := Settings.LINUX |} |} = "so".
Proof.
  destruct (extension_table
    {| output_type := SHARED_LIBRARY; output_extension := "";
       sources := ["//foo/input1.cc"; "//foo/input2.cc"]; data := [];
       deps := []; datadeps := []; inherited_libraries := ∅;
       settings := {| target_os := Settings.LINUX |} |} eq_refl)
    as (_ & _ & _ & _ & _ & _ & _ & _ & _ & _ & H).
  apply H; reflexivity.
Defined.

(** * Dependency classification *)


Lemma append_empty_r (a : string) : String.append a "" = a.
Proof.
  induction a as [|c a IH]; [done|].
  change (String c (String.append a "") = String c a). by rewrite IH.
Qed.

Lemma append_assoc (a b c : string) :
  String.append (String.append a b) c = String.append a (String.append b c).
Proof.
  induction a as [|x a IH]; [done|].
  change (String x (String.append (String.append a b) c)
          = String x (String.append a (String.append b c))).
  by rewrite IH.
Qed.

Lemma concat_empty_cons (x : string) (xs : list string) :
  String.concat "" (x :: xs) = String.append x (String.concat "" xs).
Proof. destruct xs; [symmetry; apply append_empty_r|done]. Qed.

Lemma concat_empty_app (xs ys : list string) :
  String.concat "" (xs ++ ys)
  = String.append (String.concat "" xs) (String.concat "" ys).
Proof.
  induction xs as [|x xs IH]; [done|].
  rewrite <- app_comm_cons, !concat_empty_cons, IH. by rewrite append_assoc.
Qed.


Section WriterProofs.
Variable deref : TargetPtr → Target.
Variable IsLinkable : Target → bool.
Variable GetOutputFileForSource
  : Target → SourceFile → SourceFileType → OutputFile.
Variable GetTargetOutputFile : Target → OutputFile.
Variable GetRulePrefix : SettingsView → string.
Variable GetRuleForSourceType : SettingsView → SourceFileType → string.
Variable WriteFile : string → string.

Local Abbreviation classify := (ClassifyDependency deref IsLinkable
                              GetOutputFileForSource).
Local Abbreviation get_deps := (GetDeps deref IsLinkable GetOutputFileForSource).
Local Abbreviation bucket := (in_bucket deref IsLinkable).
Local Abbreviation objects p :=
  (list_to_set (source_set_objects GetOutputFileForSource (deref p))
     : gset OutputFile).

Lemma ClassifyDependency_bucket t p b :
  classify t p b
  = match classify_dep IsLinkable t (deref p) with
    | Linkable =>
        {| extra_object_files := extra_object_files b;
           linkable_deps := linkable_deps b ++ [p];
           non_linkable_deps := non_linkable_deps b |}
    | NonLinkable =>
        {| extra_object_files := extra_object_files b;
           linkable_deps := linkable_deps b;
           non_linkable_deps := non_linkable_deps b ++ [p] |}
    | SourceSetExpanded =>
        {| extra_object_files := extra_object_files b ∪ objects p;
           linkable_deps := linkable_deps b;
           non_linkable_deps := non_linkable_deps b |}
    end.
Proof using Type.
  unfold ClassifyDependency, classify_dep.
  destruct (bool_decide (output_type (deref p) = SOURCE_SET)).
  - by destruct (bool_decide (output_type t = SOURCE_SET)).
  - by destruct ((_ || _) && _).
Qed.

Lemma classify_fold t W : ∀ b,
  foldl (fun b dep => classify t dep b) b W
  = {| extra_object_files :=
         extra_object_files b
           ∪ ⋃ (map (fun p => objects p)
                    (filter (bucket SourceSetExpanded t) W));
       linkable_deps := linkable_deps b ++ filter (bucket Linkable t) W;
       non_linkable_deps :=
         non_linkable_deps b ++ filter (bucket NonLinkable t) W |}.
Proof using Type.
  induction W as [|p W IH]; intros b.
  { destruct b as [e l n]. simpl. rewrite !app_nil_r. f_equal.
    symmetry. apply (right_id_L ∅ (∪)). }
  cbn [foldl]. rewrite IH, ClassifyDependency_bucket.
  assert (Hc : classify_dep IsLinkable t (deref p) = Linkable
               ∨ classify_dep IsLinkable t (deref p) = NonLinkable
               ∨ classify_dep IsLinkable t (deref p) = SourceSetExpanded)
    by (destruct (classify_dep IsLinkable t (deref p)); auto).
  destruct Hc as [Hc|[Hc|Hc]]; rewrite Hc; cbn [extra_object_files
    linkable_deps non_linkable_deps].
  - rewrite (filter_cons_True (bucket Linkable t)) by done.
    rewrite (filter_cons_False (bucket NonLinkable t))
      by (unfold in_bucket; congruence).
    rewrite (filter_cons_False (bucket SourceSetExpanded t))
      by (unfold in_bucket; congruence).
    by rewrite <- app_assoc.
  - rewrite (filter_cons_True (bucket NonLinkable t)) by done.
    rewrite (filter_cons_False (bucket Linkable t))
      by (unfold in_bucket; congruence).
    rewrite (filter_cons_False (bucket SourceSetExpanded t))
      by (unfold in_bucket; congruence).
    by rewrite <- app_assoc.
  - rewrite (filter_cons_True (bucket SourceSetExpanded t)) by done.
    rewrite (filter_cons_False (bucket Linkable t))
      by (unfold in_bucket; congruence).
    rewrite (filter_cons_False (bucket NonLinkable t))
      by (unfold in_bucket; congruence).
    cbn [map]. by rewrite union_list_cons, (assoc_L (∪)).
Qed.

Lemma skip_fold t inherited l : ∀ b,
  foldl (fun b dep =>
           if bool_decide (dep ∈ inherited) then b else classify t dep b)
        b l
  = foldl (fun b dep => classify t dep b) b
      (filter (fun p : TargetPtr => p ∉ (inherited : gset TargetPtr)) l).
Proof using Type.
  induction l as [|p l IH]; intros b; [done|].
  cbn [foldl]. rewrite filter_cons, IH.
  destruct (decide (p ∈ inherited)) as [Hin|Hin].
  - rewrite bool_decide_true by done. by rewrite decide_False by auto.
  - rewrite bool_decide_false by done. by rewrite decide_True.
Qed.

Lemma GetDeps_buckets t :
  get_deps t
  = {| extra_object_files :=
         ⋃ (map (fun p => objects p)
                (filter (bucket SourceSetExpanded t) (classified_deps t)));
       linkable_deps := filter (bucket Linkable t) (classified_deps t);
       non_linkable_deps :=
         filter (bucket NonLinkable t) (classified_deps t) ++ datadeps t |}.
Proof using Type.
  unfold GetDeps. rewrite skip_fold, <- foldl_app.
  fold (classified_deps t). rewrite classify_fold. simpl.
  by rewrite (left_id_L ∅ (∪)).
Qed.

Lemma set_iteration_elem (s : gset TargetPtr) p :
  p ∈ set_iteration s ↔ p ∈ s.
Proof using Type.
  unfold set_iteration. rewrite merge_sort_Permutation.
  apply elem_of_elements.
Qed.

Lemma set_iteration_NoDup (s : gset TargetPtr) : NoDup (set_iteration s).
Proof using Type.
  unfold set_iteration. rewrite merge_sort_Permutation.
  apply NoDup_elements.
Qed.

Lemma classified_deps_elem t p :
  p ∈ classified_deps t ↔ p ∈ deps t ∨ p ∈ inherited_libraries t.
Proof using Type.
  unfold classified_deps.
  rewrite elem_of_app, list_elem_of_filter, set_iteration_elem.
  split.
  - intros [[_ H]|H]; [by left|by right].
  - intros [H|H]; [|by right].
    destruct (decide (p ∈ inherited_libraries t)); [by right|by left].
Qed.

Lemma classified_deps_NoDup t :
  NoDup (deps t) → NoDup (classified_deps t).
Proof using Type.
  intros Hnd. unfold classified_deps. apply NoDup_app. split; [|split].
  - by apply NoDup_filter.
  - intros p Hp Hq. apply list_elem_of_filter in Hp as [Hp _].
    by apply set_iteration_elem in Hq.
  - apply set_iteration_NoDup.
Qed.


Lemma filter_all {A} (P : A → Prop) `{∀ x, Decision (P x)} (l : list A) :
  (∀ x, P x) → filter P l = l.
Proof using Type.
  intros HP. induction l as [|x l IH]; [done|].
  by rewrite filter_cons_True, IH.
Qed.

Lemma filter_none {A} (P : A → Prop) `{∀ x, Decision (P x)} (l : list A) :
  (∀ x, ¬ P x) → filter P l = [].
Proof using Type.
  intros HP. induction l as [|x l IH]; [done|].
  by rewrite filter_cons_False, IH.
Qed.




Lemma write_files_concat (files : list string) :
  write_files WriteFile files
  = String.concat "" (map (fun f => String.append " " (WriteFile f)) files).
Proof using Type.
  induction files as [|f files IH]; [done|].
  cbn [write_files foldr map]. rewrite concat_empty_cons.
  fold (write_files WriteFile files). rewrite IH.
  by rewrite append_assoc.
Qed.

Lemma own_object_files_filter t :
  own_object_files GetOutputFileForSource GetRuleForSourceType t
  = map (fun src =>
           GetOutputFileForSource t src
             (GetSourceFileType src (target_os (settings t))))
        (filter (fun src =>
                   GetSourceFileType src (target_os (settings t))
                   ≠ SOURCE_UNKNOWN
                   ∧ GetRuleForSourceType (settings t)
                       (GetSourceFileType src (target_os (settings t)))
                     ≠ "")
                (sources t)).
Proof using Type.
  unfold own_object_files.
  induction (sources t) as [|src l IH]; [done|].
  cbn [omap list_omap]. rewrite filter_cons.
  destruct (decide (GetSourceFileType src (target_os (settings t))
                    = SOURCE_UNKNOWN)) as [Hu|Hu].
  { rewrite (bool_decide_true _ Hu), decide_False by (by intros [? _]).
    exact IH. }
  rewrite (bool_decide_false _ Hu).
  destruct (String.eqb _ _) eqn:He.
  - apply String.eqb_eq in He.
    rewrite decide_False by (by intros [_ ?]). exact IH.
  - apply String.eqb_neq in He.
    rewrite decide_True by done. cbn [map]. by rewrite <- IH.
Qed.

(** C8.  For a target that is a source-set, [GetDeps] leaves the set of
    extra object files empty and links nothing: every classified
    dependency is non-linkable.  The DCHECK in [WriteSourceSetStamp]
    therefore holds.  The object files that [WriteSources] collects and
    [Run] passes on are those of the target's sources of a known type that
    has a rule, in the order of the sources.  The stamp line is [build],
    the output file, the rule, each of these object files after a space,
    and then, unless there are neither non-linkable dependencies nor data
    files, [||] followed by the output file of each non-linkable dependency
    (the classified dependencies, then [datadeps]) and each data file, each
    after a space; the line ends with a newline. *)
Theorem source_set_stamp (t : Target) :
  output_type t = SOURCE_SET →
  let own :=
    map (fun src =>
           GetOutputFileForSource t src
             (GetSourceFileType src (target_os (settings t))))
        (filter (fun src =>
                   GetSourceFileType src (target_os (settings t))
                   ≠ SOURCE_UNKNOWN
                   ∧ GetRuleForSourceType (settings t)
                       (GetSourceFileType src (target_os (settings t)))
                     ≠ "")
                (sources t)) in
  let non_linkable := classified_deps t ++ datadeps t in
  extra_object_files (get_deps t) = ∅
  ∧ linkable_deps (get_deps t) = []
  ∧ non_linkable_deps (get_deps t) = non_linkable
  ∧ own_object_files GetOutputFileForSource GetRuleForSourceType t = own
  ∧ WriteSourceSetStamp deref IsLinkable GetOutputFileForSource
      GetTargetOutputFile GetRulePrefix WriteFile t
      (own_object_files GetOutputFileForSource GetRuleForSourceType t)
    = Some (String.concat ""
              (["build "; WriteFile (GetTargetOutputFile t); ": ";
                GetRulePrefix (settings t); "stamp"]
               ++ map (fun f => String.append " " (WriteFile f)) own
               ++ (if bool_decide (non_linkable = [] ∧ data t = []) then []
                   else
                     [" ||"]
                     ++ map (fun p =>
                               String.append " "
                                 (WriteFile (GetTargetOutputFile (deref p))))
                            non_linkable
                     ++ map (fun f => String.append " " (WriteFile f))
                            (data t))
               ++ [endl])).
Proof using Type.
  intros Ht. cbn zeta.
  assert (Hall : ∀ p, bucket NonLinkable t p).
  { intros p. unfold in_bucket, classify_dep.
    rewrite (bool_decide_true _ Ht).
    destruct (bool_decide (output_type (deref p) = SOURCE_SET)); [done|].
    rewrite !bool_decide_false by (by rewrite Ht). done. }
  assert (Hb : get_deps t
               = {| extra_object_files := ∅; linkable_deps := [];
                    non_linkable_deps := classified_deps t ++ datadeps t |}).
  { rewrite GetDeps_buckets. f_equal.
    - rewrite filter_none; [done|].
      intros p. unfold in_bucket. by rewrite (Hall p).
    - apply filter_none. intros p. unfold in_bucket. by rewrite (Hall p).
    - f_equal. by apply filter_all. }
  rewrite Hb. cbn [extra_object_files linkable_deps non_linkable_deps].
  do 3 (split; [done|]). split; [apply own_object_files_filter|].
  unfold WriteSourceSetStamp. rewrite Hb.
  cbn [extra_object_files non_linkable_deps].
  rewrite bool_decide_true by done. f_equal.
  rewrite own_object_files_filter.
  set (own := map _ (filter _ (sources t))).
  set (nl := classified_deps t ++ datadeps t).
  rewrite !concat_empty_app, !concat_empty_cons.
  change (String.concat "" []) with "".
  rewrite !append_empty_r, !append_assoc, write_files_concat.
  do 6 (apply (f_equal2 String.append); [reflexivity|]).
  apply (f_equal2 String.append); [|reflexivity].
  unfold WriteImplicitDependencies.
  destruct (decide (nl = [] ∧ data t = [])) as [[Hn Hd]|Hno].
  - rewrite bool_decide_true by done. by rewrite Hn, Hd.
  - rewrite bool_decide_false by done.
    replace (negb (length nl =? 0) || negb (length (data t) =? 0))
      with true.
    2:{ symmetry. destruct nl; [|done]. destruct (data t); [|done].
        by destruct Hno. }
    rewrite !concat_empty_app, concat_empty_cons.
    change (String.concat "" []) with "".
    rewrite append_empty_r, !write_files_concat, map_map.
    reflexivity.
Qed.
End WriterProofs.

(** * Target generation *)

Section GeneratorProofs.
Variables Scope FunctionCallNode GenTarget GenSettings : Type.
Variable GetSourceDir : Scope → string.
Variable ToolchainLabelForScope : Scope → Label.
Variable scope_settings : Scope → GenSettings.
Variable GetUserVisibleName : Label → bool → string.
Variable Target_new : GenSettings → Label → GenTarget.
Variable set_defined_from : FunctionCallNode → GenTarget → GenTarget.
Variables kCopy kCustom kExecutable kGroup kSharedLibrary kSourceSet
          kStaticLibrary : string.
Variable CopyTargetGenerator_Run
  : FunctionCallNode → GenState Scope FunctionCallNode GenTarget
    → GenState Scope FunctionCallNode GenTarget.
Variable ScriptTargetGenerator_Run
  : FunctionCallNode → GenState Scope FunctionCallNode GenTarget
    → GenState Scope FunctionCallNode GenTarget.
Variable GroupTargetGenerator_Run
  : FunctionCallNode → GenState Scope FunctionCallNode GenTarget
    → GenState Scope FunctionCallNode GenTarget.
Variable BinaryTargetGenerator_Run
  : FunctionCallNode → OutputType
    → GenState Scope FunctionCallNode GenTarget
    → GenState Scope FunctionCallNode GenTarget.
Variable verbose_logging : bool.

Local Abbreviation generate :=
  (GenerateTarget Scope FunctionCallNode GenTarget GenSettings
     GetSourceDir ToolchainLabelForScope scope_settings GetUserVisibleName
     Target_new set_defined_from
     kCopy kCustom kExecutable kGroup kSharedLibrary kSourceSet
     kStaticLibrary
     CopyTargetGenerator_Run ScriptTargetGenerator_Run
     GroupTargetGenerator_Run BinaryTargetGenerator_Run verbose_logging).
Local Abbreviation known :=
  (known_output_type kCopy kCustom kExecutable kGroup kSharedLibrary
     kSourceSet kStaticLibrary).
Local Abbreviation generated :=
  (generated_target Scope FunctionCallNode GenTarget GenSettings
     GetSourceDir ToolchainLabelForScope scope_settings
     Target_new set_defined_from
     kCopy kCustom kExecutable kGroup kSharedLibrary kSourceSet
     kStaticLibrary
     CopyTargetGenerator_Run ScriptTargetGenerator_Run
     GroupTargetGenerator_Run BinaryTargetGenerator_Run).
Local Abbreviation dispatch :=
  (run_generator Scope FunctionCallNode GenTarget
     kCopy kCustom kExecutable kGroup kSharedLibrary kSourceSet
     kStaticLibrary
     CopyTargetGenerator_Run ScriptTargetGenerator_Run
     GroupTargetGenerator_Run BinaryTargetGenerator_Run).

Lemma run_generator_unknown fc output_type g :
  known output_type = false →
  dispatch fc output_type g
  = (g.1.1, g.1.2,
     Err_at fc "Not a known output type" "I am very confused.").
Proof using Type.
  unfold known_output_type, run_generator. intros H.
  repeat (apply orb_false_iff in H as [H ?]).
  by repeat match goal with Heq : String.eqb _ _ = false |- _ =>
              rewrite Heq; clear Heq end.
Qed.

(** C9.  [GenerateTarget] sets an error located at the function call and
    hands nothing to [ItemDefined] (nor to the callback behind it)
    whenever the arguments are not exactly one string value or the output
    kind is none of the seven known ones; and whenever it ends with no
    error in [*err], [ItemDefined] has been called exactly once, with the
    target as the selected generator left it. *)
Theorem GenerateTarget_defines (callback_is_null : bool)
    (function_call : FunctionCallNode) (args : list Value)
    (output_type : string)
    (w : GenWorld Scope FunctionCallNode GenTarget) :
  let w' := generate callback_is_null function_call args output_type w in
  (one_string_argument args = false ∨ known output_type = false →
   has_error (w_err w') = true
   ∧ err_origin (w_err w') = Some function_call
   ∧ w_item_defined w' = w_item_defined w
   ∧ w_callback_runs w' = w_callback_runs w)
  ∧ (has_error (w_err w') = false →
     w_item_defined w'
     = w_item_defined w ++ [generated function_call args output_type w]).
Proof using Type.
  cbn zeta. unfold GenerateTarget, one_string_argument, generated_target.
  destruct args as [|arg0 [|arg1 args]]; [by split; [|done]| |by split].
  destruct (bool_decide (value_type arg0 = VALUE_STRING)) eqn:Hty;
    [|by split].
  set (g0 := (w_scope w,
              set_defined_from function_call
                (Target_new (scope_settings (w_scope w))
                   {| label_dir := GetSourceDir (w_scope w);
                      label_name := string_value arg0;
                      label_toolchain_dir :=
                        label_dir (ToolchainLabelForScope (w_scope w));
                      label_toolchain_name :=
                        label_name (ToolchainLabelForScope (w_scope w)) |}),
              w_err w)).
  split.
  - intros [Hbad|Hk]; [done|].
    rewrite (run_generator_unknown _ _ g0 Hk). by simpl.
  - destruct (has_error (dispatch function_call output_type g0).2) eqn:He;
      simpl; [by rewrite He|done].
Qed.
End GeneratorProofs.

(** * The theorems at concrete inputs *)



Lemma source_set_stamp_witness :
  WriteSourceSetStamp example_deref IsLinkable_spec example_object_file
    example_output_file example_rule_prefix example_write_file example_set
    (own_object_files example_object_file example_rule example_set)
  = Some (String.append
            "build obj/foo/bar.stamp: stamp //foo/a.cc.obj || obj/foo/bar.stamp obj/foo/lib.lib shlib.dll.lib //foo/data.txt"
            endl).
Proof.
  destruct (source_set_stamp example_deref IsLinkable_spec
              example_object_file example_output_file example_rule_prefix
              example_rule example_write_file example_set eq_refl)
    as (_ & _ & _ & _ & H).
  rewrite H. vm_compute. reflexivity.
Defined.

Lemma GenerateTarget_defines_witness :
  has_error (w_err (example_generate [] "executable")) = true
  ∧ w_item_defined (example_generate [] "executable") = []
  ∧ w_item_defined
      (example_generate [MkValue VALUE_STRING "bar"] "executable")
    = [MkLabel "//foo/" "bar" "//toolchain/" "default"].
Proof.
  unfold example_generate.
  match goal with
  | |- context [GenerateTarget ?S ?F ?T ?GS ?a ?b ?c ?d ?e ?f ?k1 ?k2 ?k3 ?k4
                  ?k5 ?k6 ?k7 ?g1 ?g2 ?g3 ?g4 ?v ?cb ?fc [] ?ot ?w] =>
      destruct (GenerateTarget_defines S F T GS a b c d e f k1 k2 k3 k4 k5 k6
                  k7 g1 g2 g3 g4 v cb fc [] ot w) as [H1 _];
      destruct (GenerateTarget_defines S F T GS a b c d e f k1 k2 k3 k4 k5 k6
                  k7 g1 g2 g3 g4 v cb fc [MkValue VALUE_STRING "bar"] ot w)
        as [_ H2]
  end.
  cbn zeta in H1, H2.
  destruct (H1 (or_introl eq_refl)) as (He & _ & Hi & _).
  split; [exact He|]. split; [exact Hi|].
  rewrite H2; [reflexivity|]. vm_compute. reflexivity.
Defined.

(** * Further properties of the path algebra *)

(** ** The shape of normalized absolute paths *)

Lemma M_abs_form root n : ∀ rest segs,
  root = ["/"%char] ∨ root = ["/"; "/"]%char →
  length rest ≤ n → Forall ordinary segs →
  ∃ segs' last, Forall ordinary segs' ∧ last_ok last
    ∧ M false (root ++ join segs) (length root) AfterSlash rest
      = root ++ join segs' ++ last.
Proof.
  induction n as [|n IH]; intros rest segs Hroot Hlen Hs.
  { destruct rest; [|simpl in Hlen; lia]. exists segs, [].
    split; [done|]. split; [by left|]. by rewrite M_nil, app_nil_r. }
  destruct (span_nonslash rest) as (w & r & -> & Hw & Hr).
  rewrite length_app in Hlen.
  destruct (seg_cases w Hw) as [->|[->|[->|Hord]]]; simpl in Hlen |- *.
  - destruct Hr as [->|(s & r' & -> & Hsl)].
    { exists segs, []. split; [done|]. split; [by left|].
      by rewrite M_nil, app_nil_r. }
    simpl in Hlen. rewrite M_slash_skip by done. apply IH; [done|lia|done].
  - destruct Hr as [->|(s & r' & -> & Hsl)].
    { exists segs, []. split; [done|]. split; [by left|].
      by rewrite M_cur_end, app_nil_r. }
    simpl in Hlen. rewrite M_cur by done. apply IH; [done|lia|done].
  - destruct Hr as [->|(s & r' & -> & Hsl)].
    { exists (take (length segs - 1) segs), [].
      split; [by apply Forall_take_ordinary|]. split; [by left|].
      rewrite M_up_end by done. rewrite aup_abs by done.
      by rewrite app_nil_r. }
    simpl in Hlen. rewrite M_up by done. rewrite aup_abs by done.
    apply IH; [done|lia|by apply Forall_take_ordinary].
  - rewrite M_seg by done.
    destruct Hr as [->|(s & r' & -> & Hsl)].
    { exists segs, w. split; [done|]. split; [by right|].
      by rewrite M_nil, <- app_assoc. }
    simpl in Hlen. rewrite M_slash_push by done.
    rewrite <- !app_assoc, <- join_snoc.
    apply IH; [done|lia|]. apply Forall_app; split; [done|by constructor].
Qed.

Lemma head_join_not_fwd segs last r :
  Forall ordinary segs → last_ok last → join segs ++ last ≠ "/"%char :: r.
Proof.
  intros Hs Hl Heq. by pose proof (head_join _ _ _ _ Hs Hl Heq).
Qed.

(** X1.  [NormalizePath] keeps the anchor of a source-absolute path: the
    result is ["//"] followed by ordinary segments separated by single
    forward slashes (none of them empty, ["."] or [".."], none containing a
    separator), so it is source-absolute again. *)
Theorem NormalizePath_source_absolute (p : string) :
  IsSourceAbsolute p = true →
  IsSourceAbsolute (NormalizePath p) = true
  ∧ ∃ segs last,
      Forall ordinary segs ∧ last_ok last
      ∧ list_ascii_of_string (NormalizePath p)
        = "/"%char :: "/"%char :: join segs ++ last.
Proof.
  intros Hp. destruct (is_source_absolute_inv _ Hp) as [body Hbody].
  rewrite NormalizePath_as_buf, Hbody, NormalizePath_buf_root2.
  destruct (M_abs_form ["/"; "/"]%char (length body) body []
              ltac:(by right) ltac:(done) ltac:(constructor))
    as (segs & last & Hs & Hl & HM).
  assert (Hform : M false ["/"; "/"]%char 2 AfterSlash body
                  = "/"%char :: "/"%char :: join segs ++ last) by exact HM.
  split; [|by exists segs, last].
  unfold IsSourceAbsolute.
  rewrite NormalizePath_as_buf, Hbody, NormalizePath_buf_root2, Hform.
  unfold is_source_absolute. simpl. done.
Qed.

Lemma NormalizePath_source_absolute_witness :
  IsSourceAbsolute (NormalizePath "//a/./b/../c//d") = true.
Proof.
  apply (NormalizePath_source_absolute "//a/./b/../c//d").
  vm_compute. reflexivity.
Defined.

(** X2.  [NormalizePath] keeps the anchor of a system-absolute path: when
    the input begins with a single forward slash, so does the result, which
    is ["/"] followed by ordinary segments; it is absolute for
    [IsPathAbsolute] and not source-absolute. *)
Theorem NormalizePath_system_absolute (host : HostOS) (p : string) :
  char_at (list_ascii_of_string p) 0 = "/"%char →
  IsSourceAbsolute p = false →
  IsPathAbsolute host (list_ascii_of_string (NormalizePath p)) = true
  ∧ IsSourceAbsolute (NormalizePath p) = false
  ∧ ∃ segs last,
      Forall ordinary segs ∧ last_ok last
      ∧ list_ascii_of_string (NormalizePath p)
        = "/"%char :: join segs ++ last.
Proof.
  intros H0 Hna. unfold IsSourceAbsolute in *.
  rewrite NormalizePath_as_buf.
  destruct (list_ascii_of_string p) as [|c r] eqn:Hp; [done|].
  unfold char_at in H0; simpl in H0. subst c.
  assert (Hr : ∀ r', r ≠ "/"%char :: r').
  { intros r' ->. by vm_compute in Hna. }
  rewrite NormalizePath_buf_root1 by done.
  destruct (M_abs_form ["/"%char] (length r) r []
              ltac:(by left) ltac:(done) ltac:(constructor))
    as (segs & last & Hs & Hl & HM).
  assert (Hform : M false ["/"%char] 1 AfterSlash r
                  = "/"%char :: join segs ++ last) by exact HM.
  rewrite Hform.
  split; [|split; [|by exists segs, last]].
  - unfold IsPathAbsolute.
    destruct (join segs ++ last) as [|c l] eqn:Hj; [done|].
    pose proof (head_join _ _ _ _ Hs Hl Hj) as Hc.
    unfold char_at; simpl.
    by destruct (Ascii.eqb_spec c "/") as [->|].
  - unfold is_source_absolute.
    destruct (join segs ++ last) as [|c l] eqn:Hj; [done|].
    pose proof (head_join _ _ _ _ Hs Hl Hj) as Hc.
    unfold char_at; simpl.
    by destruct (Ascii.eqb_spec c "/") as [->|].
Qed.

Lemma NormalizePath_system_absolute_witness :
  IsPathAbsolute HOST_POSIX
    (list_ascii_of_string (NormalizePath "/usr/../../lib//x")) = true.
Proof.
  apply (NormalizePath_system_absolute HOST_POSIX "/usr/../../lib//x");
    vm_compute; reflexivity.
Defined.

(** X3.  Whatever the input, the result of [NormalizePath] contains no
    backslash: every separator is a forward slash. *)
Theorem NormalizePath_no_backslash (p : string) :
  "\"%char ∉ list_ascii_of_string (NormalizePath p).
Proof.
  rewrite NormalizePath_as_buf. intros Hin.
  pose proof (NF_fwd_only _ (NormalizePath_buf_NF (list_ascii_of_string p)))
    as Hf.
  unfold fwd_only in Hf. rewrite Forall_forall in Hf.
  by specialize (Hf _ Hin eq_refl).
Qed.

(** ** Algebraic laws of normalization *)

Lemma M_prefix_AS n : ∀ body rel out top,
  length body ≤ n → slash_ended body → Bnd rel out top AfterSlash →
  ∃ out' top', Bnd rel out' top' AfterSlash
    ∧ ∀ X, M rel out top AfterSlash (body ++ X) = M rel out' top' AfterSlash X.
Proof.
  induction n as [|n IH]; intros body rel out top Hlen Hend HB.
  { destruct body; [|simpl in Hlen; lia]. by exists out, top. }
  destruct (span_nonslash body) as (w & r & -> & Hw & Hr).
  destruct Hr as [->|(s & r' & -> & Hsl)].
  { rewrite app_nil_r in Hend.
    rewrite (nonslash_not_slash_ended w Hw Hend). by exists out, top. }
  assert (Hend' : slash_ended r').
  { destruct r' as [|c r'']; [by left|].
    apply (slash_ended_app_r (w ++ [s])); [|done].
    by rewrite <- app_assoc. }
  rewrite length_app in Hlen. simpl in Hlen.
  destruct (seg_cases w Hw) as [->|[->|[->|Hord]]]; simpl in Hlen.
  - destruct (IH r' rel out top ltac:(lia) Hend' HB)
      as (out' & top' & HB' & HM).
    exists out', top'. split; [done|]. intros X. simpl.
    rewrite M_slash_skip by done. apply HM.
  - destruct (IH r' rel out top ltac:(lia) Hend' HB)
      as (out' & top' & HB' & HM).
    exists out', top'. split; [done|]. intros X. simpl.
    rewrite M_cur by done. apply HM.
  - destruct (IH r' rel _ _ ltac:(lia) Hend' (aup_Bnd _ _ _ _ HB))
      as (out' & top' & HB' & HM).
    exists out', top'. split; [done|]. intros X. simpl.
    rewrite M_up by done. apply HM.
  - destruct (IH r' rel _ top ltac:(lia) Hend' (Bnd_push _ _ _ _ w HB Hord))
      as (out' & top' & HB' & HM).
    exists out', top'. split; [done|]. intros X.
    rewrite <- app_assoc.
    rewrite M_seg by (done || by right; exists s, (r' ++ X)).
    simpl. rewrite M_slash_push by done. rewrite <- app_assoc. apply HM.
Qed.

(** After a non-empty slash-terminated stretch of input the machine is at a
    boundary, right after a separator. *)
Lemma M_prefix_first body rel out top prev :
  body ≠ [] → slash_ended body → Bnd rel out top prev →
  ∃ out' top', Bnd rel out' top' AfterSlash
    ∧ ∀ X, M rel out top prev (body ++ X) = M rel out' top' AfterSlash X.
Proof.
  intros Hne Hend HB.
  pose proof (Bnd_boundary _ _ _ _ HB) as Hb.
  destruct (span_nonslash body) as (w & r & -> & Hw & Hr).
  destruct Hr as [->|(s & r' & -> & Hsl)].
  { rewrite app_nil_r in Hend, Hne.
    by rewrite (nonslash_not_slash_ended w Hw Hend) in Hne. }
  assert (Hend' : slash_ended r').
  { destruct r' as [|c r'']; [by left|].
    apply (slash_ended_app_r (w ++ [s])); [|done].
    by rewrite <- app_assoc. }
  destruct (seg_cases w Hw) as [->|[->|[->|Hord]]].
  - destruct prev; [| |done].
    + inversion HB; subst.
      destruct (M_prefix_AS (length r') r' true ["/"%char] 0 ltac:(done) Hend'
                  (Bnd_slash [] ltac:(constructor)))
        as (out' & top' & HB' & HM).
      exists out', top'. split; [done|]. intros X. simpl.
      rewrite M_slash_push by done. apply HM.
    + destruct (M_prefix_AS (length r') r' rel out top ltac:(done) Hend' HB)
        as (out' & top' & HB' & HM).
      exists out', top'. split; [done|]. intros X. simpl.
      rewrite M_slash_skip by done. apply HM.
  - destruct (M_prefix_AS (length r') r' rel out top ltac:(done) Hend'
                ltac:(by eapply Bnd_after))
      as (out' & top' & HB' & HM).
    exists out', top'. split; [done|]. intros X. simpl.
    rewrite M_cur by done. apply HM.
  - destruct (M_prefix_AS (length r') r' rel _ _ ltac:(done) Hend'
                (aup_Bnd _ _ _ _ HB))
      as (out' & top' & HB' & HM).
    exists out', top'. split; [done|]. intros X. simpl.
    rewrite M_up by done. apply HM.
  - destruct (M_prefix_AS (length r') r' rel _ top ltac:(done) Hend'
                (Bnd_push _ _ _ _ w HB Hord))
      as (out' & top' & HB' & HM).
    exists out', top'. split; [done|]. intros X.
    rewrite <- app_assoc.
    rewrite M_seg by (done || by right; exists s, (r' ++ X)).
    simpl. rewrite M_slash_push by done. rewrite <- app_assoc. apply HM.
Qed.

(** A slash-terminated prefix of at least two characters fixes the
    configuration in which the rest of the path is read. *)
Lemma NormalizePath_buf_prefix p :
  2 ≤ length p → slash_ended p →
  ∃ rel out top, Bnd rel out top AfterSlash
    ∧ ∀ X, NormalizePath_buf (p ++ X) = M rel out top AfterSlash X.
Proof.
  intros Hlen Hend.
  destruct p as [|a [|b body]]; [simpl in Hlen; lia..|].
  destruct (decide (a = "/"%char)) as [->|Ha].
  - destruct (decide (b = "/"%char)) as [->|Hb].
    + assert (Hbody : slash_ended body).
      { destruct body as [|c body']; [by left|].
        by apply (slash_ended_app_r ["/"; "/"]%char). }
      destruct (M_prefix_AS (length body) body false ["/"; "/"]%char 2
                  ltac:(done) Hbody
                  (Bnd_abs ["/"; "/"]%char [] ltac:(by right)
                     ltac:(constructor)))
        as (out' & top' & HB' & HM).
      exists false, out', top'. split; [done|]. intros X. simpl.
      rewrite NormalizePath_buf_root2. apply HM.
    + assert (Hbody : slash_ended (b :: body)).
      { by apply (slash_ended_app_r ["/"%char]). }
      destruct (M_prefix_AS (length (b :: body)) (b :: body) false
                  ["/"%char] 1 ltac:(done) Hbody
                  (Bnd_abs ["/"%char] [] ltac:(by left) ltac:(constructor)))
        as (out' & top' & HB' & HM).
      exists false, out', top'. split; [done|]. intros X. simpl.
      rewrite NormalizePath_buf_root1 by (intros r' [= ? ?]; done).
      apply HM.
  - destruct (M_prefix_first (a :: b :: body) true [] 0 AtStart
                ltac:(done) Hend Bnd_start)
      as (out' & top' & HB' & HM).
    exists true, out', top'. split; [done|]. intros X.
    rewrite NormalizePath_buf_rel.
    + apply HM.
    + simpl. intros r [= ? ?]. done.
Qed.

Lemma Bnd_slash_ended rel out top prev :
  Bnd rel out top prev → slash_ended out ∧ top ≤ length out.
Proof.
  destruct 1 as [root segs Hr Hs| |n segs Hs|segs Hs].
  - split; [by apply slash_ended_app_join, slash_ended_root|].
    rewrite length_app. lia.
  - split; [by left|done].
  - split; [apply slash_ended_app_join, slash_ended_ups|].
    rewrite length_app, length_ups. lia.
  - split; [|simpl; lia].
    apply (slash_ended_app_join ["/"%char]). by right; exists [], "/"%char.
Qed.

(** X4.  Laws of [NormalizePath] after a slash-terminated prefix [p] of at
    least two characters: a ["."] segment and a repeated separator are
    dropped, and an ordinary segment followed by [".."] cancels, whatever
    follows. *)
Theorem NormalizePath_laws (p w q : list ascii) (s : ascii) :
  2 ≤ length p → slash_ended p → ordinary w → IsSlash s = true →
  NormalizePath_buf (p ++ "."%char :: s :: q) = NormalizePath_buf (p ++ q)
  ∧ NormalizePath_buf (p ++ s :: q) = NormalizePath_buf (p ++ q)
  ∧ NormalizePath_buf (p ++ w ++ "/"%char :: "."%char :: "."%char :: s :: q)
    = NormalizePath_buf (p ++ q)
  ∧ NormalizePath_buf (p ++ ["."%char]) = NormalizePath_buf p
  ∧ NormalizePath_buf (p ++ w ++ ["/"; "."; "."]%char) = NormalizePath_buf p.
Proof.
  intros Hlen Hend Hw Hs.
  destruct (NormalizePath_buf_prefix p Hlen Hend)
    as (rel & out & top & HB & HN).
  destruct (Bnd_slash_ended _ _ _ _ HB) as [Hout Htop].
  pose proof (ordinary_length _ Hw) as Hwl.
  assert (Hp : NormalizePath_buf p = out).
  { rewrite <- (app_nil_r p). by rewrite HN, M_nil. }
  assert (Hpop : ∀ n, aup rel n ((out ++ w) ++ ["/"%char]) top = (out, top)).
  { intros n. rewrite <- app_assoc.
    apply aup_pop; [by apply ordinary_nonslash|done|lia]. }
  rewrite !HN, Hp.
  split; [by rewrite M_cur|]. split; [by rewrite M_slash_skip|].
  split; [|split].
  - rewrite M_seg by (done || apply seg_end_slash).
    rewrite M_slash_push by done. rewrite M_up by done.
    by rewrite Hpop.
  - by rewrite M_cur_end.
  - rewrite M_seg by (done || apply seg_end_slash).
    rewrite M_slash_push by done. rewrite M_up_end by done.
    by rewrite Hpop.
Qed.

Lemma NormalizePath_laws_witness :
  NormalizePath_buf
    (list_ascii_of_string "//a/" ++ list_ascii_of_string "b"
       ++ list_ascii_of_string "/../c")
  = NormalizePath_buf (list_ascii_of_string "//a/" ++ list_ascii_of_string "c").
Proof.
  destruct (NormalizePath_laws (list_ascii_of_string "//a/")
              (list_ascii_of_string "b") (list_ascii_of_string "c") "/"%char)
    as (_ & _ & H & _).
  - simpl. lia.
  - right. exists (list_ascii_of_string "//a"), "/"%char. split; reflexivity.
  - repeat split; try discriminate. repeat constructor.
  - reflexivity.
  - exact H.
Defined.

Lemma M_abs_ups_cont root k : ∀ segs X,
  root = ["/"%char] ∨ root = ["/"; "/"]%char →
  Forall ordinary segs → length segs ≤ k →
  M false (root ++ join segs) (length root) AfterSlash (ups k ++ X)
  = M false root (length root) AfterSlash X.
Proof.
  induction k as [|k IH]; intros segs X Hroot Hs Hlen.
  { destruct segs; [|simpl in Hlen; lia].
    change (join []) with (@nil ascii). by rewrite app_nil_r. }
  rewrite ups_S. unfold dotdot_slash. cbn [app].
  rewrite M_up by done. rewrite aup_abs by done. cbn [fst snd].
  apply IH; [done|by apply Forall_take_ordinary|].
  rewrite length_take. lia.
Qed.

(** X5.  [InvertDir d] leads from a source-absolute directory [d] back to
    the source root, whatever is appended: resolving [InvertDir d ++ rest]
    against [d] is resolving [rest] against ["//"]. *)
Theorem InvertDir_then (d rest : string) :
  IsSourceAbsolute d = true → EndsWithSlash d = true →
  NormalizePath (String.append d (String.append (InvertDir d) rest))
  = NormalizePath (String.append "//" rest).
Proof.
  intros Ha He. apply string_list_eq. rewrite !NormalizePath_as_buf.
  rewrite !list_ascii_of_string_app. unfold InvertDir.
  rewrite list_ascii_of_string_of_list_ascii.
  unfold IsSourceAbsolute, EndsWithSlash in *.
  destruct (is_source_absolute_inv _ Ha) as [body Hbody].
  rewrite Hbody in *. rewrite InvertDir_buf_source_absolute.
  assert (Hend : slash_ended body).
  { apply EndsWithSlash_slash_ended in He.
    destruct body as [|c body']; [by left|].
    apply (slash_ended_app_r ["/"; "/"]%char); done. }
  simpl. rewrite !NormalizePath_buf_root2.
  destruct (M_abs_prefix ["/"; "/"]%char (length body) body []
              ltac:(by right) ltac:(done) Hend ltac:(constructor))
    as (segs & Hs & Hlen & HM).
  etransitivity; [exact (HM _)|].
  apply (M_abs_ups_cont ["/"; "/"]%char); [by right|done|simpl in Hlen; lia].
Qed.

Lemma InvertDir_then_witness :
  NormalizePath
    (String.append "//out/Debug/"
       (String.append (InvertDir "//out/Debug/") "foo/input1.cc"))
  = NormalizePath (String.append "//" "foo/input1.cc").
Proof.
  apply (InvertDir_then "//out/Debug/" "foo/input1.cc");
    vm_compute; reflexivity.
Defined.

(** * File names and extensions *)

Lemma FindFilenameOffset_from_spec path n :
  FindFilenameOffset_from path n ≤ n
  ∧ (∀ i, FindFilenameOffset_from path n ≤ i < n →
          IsSlash (char_at path i) = false)
  ∧ (FindFilenameOffset_from path n = 0
     ∨ IsSlash (char_at path (FindFilenameOffset_from path n - 1)) = true).
Proof.
  induction n as [|n (IH1 & IH2 & IH3)]; simpl.
  { split; [lia|]. split; [intros; lia|by left]. }
  destruct (IsSlash (char_at path n)) eqn:Hs.
  - split; [lia|]. split; [intros; lia|]. right.
    by replace (n + 1 - 1) with n by lia.
  - split; [lia|]. split; [|done].
    intros i Hi. destruct (decide (i = n)) as [->|]; [done|].
    apply IH2. lia.
Qed.

Lemma FindFilenameOffset_spec path :
  FindFilenameOffset path ≤ length path
  ∧ nonslash (drop (FindFilenameOffset path) path)
  ∧ slash_ended (take (FindFilenameOffset path) path).
Proof.
  unfold FindFilenameOffset.
  destruct (FindFilenameOffset_from_spec path (length path))
    as (H1 & H2 & H3).
  set (off := FindFilenameOffset_from path (length path)) in *.
  split; [done|]. split.
  - unfold nonslash. apply Forall_lookup. intros i c Hc.
    rewrite lookup_drop in Hc.
    rewrite <- (char_at_lookup _ _ _ Hc). apply H2.
    apply lookup_lt_Some in Hc. lia.
  - destruct H3 as [->|H3]; [by left|].
    destruct (decide (off = 0)) as [->|Hne]; [by left|]. right.
    exists (take (off - 1) path), (char_at path (off - 1)). split; [|done].
    replace off with (S (off - 1)) at 1 by lia.
    apply take_S_char_at. lia.
Qed.

(** X6.  [FindDir] and [FindFilename] split a path at its last separator:
    the two parts concatenate to the path, the file name contains no
    separator, and the directory is empty or ends in a separator.
    [RemoveFilename] leaves exactly the directory. *)
Theorem FindDir_FindFilename (path : string) :
  String.append (FindDir path) (FindFilename path) = path
  ∧ nonslash (list_ascii_of_string (FindFilename path))
  ∧ (FindDir path = "" ∨ EndsWithSlash (FindDir path) = true)
  ∧ RemoveFilename_buf (list_ascii_of_string path)
    = list_ascii_of_string (FindDir path).
Proof.
  unfold FindDir, FindFilename, EndsWithSlash.
  rewrite !list_ascii_of_string_of_list_ascii.
  set (p := list_ascii_of_string path).
  destruct (FindFilenameOffset_spec p) as (Hle & Hns & Hend).
  assert (Hfile : FindFilename_buf p = drop (FindFilenameOffset p) p).
  { unfold FindFilename_buf, substr.
    destruct (Nat.eqb_spec (FindFilenameOffset p) 0) as [->|]; [done|].
    apply take_ge. rewrite length_drop. lia. }
  assert (Hdir : FindDir_buf p = take (FindFilenameOffset p) p).
  { unfold FindDir_buf.
    by destruct (Nat.eqb_spec (FindFilenameOffset p) 0) as [->|]. }
  rewrite Hfile, Hdir. split; [|split; [done|split]].
  - rewrite <- string_of_list_ascii_app, take_drop.
    apply string_of_list_ascii_of_string.
  - destruct Hend as [->|(X & s & -> & Hs)]; [by left|]. right.
    unfold EndsWithSlash_buf. rewrite length_app. simpl.
    replace (length X + 1 - 1) with (length X) by lia.
    rewrite char_at_app_r by lia. rewrite Nat.sub_diag.
    replace (length X + 1 =? 0) with false
      by (symmetry; apply Nat.eqb_neq; lia).
    done.
  - unfold RemoveFilename_buf, string_resize.
    replace (FindFilenameOffset p - length p) with 0 by lia.
    by rewrite app_nil_r.
Qed.

Lemma FindExtensionOffset_from_spec path i :
  match FindExtensionOffset_from path i with
  | Some e =>
      1 ≤ e ∧ e - 1 ≤ i ∧ char_at path (e - 1) = "."%char
      ∧ ∀ j, e ≤ j ≤ i →
             IsSlash (char_at path j) = false ∧ char_at path j ≠ "."%char
  | None =>
      ∃ b, b ≤ S i
           ∧ (b = 0 ∨ IsSlash (char_at path (b - 1)) = true)
           ∧ ∀ j, b ≤ j ≤ i →
                  IsSlash (char_at path j) = false
                  ∧ char_at path j ≠ "."%char
  end.
Proof.
  induction i as [|i IH]; cbn [FindExtensionOffset_from].
  - destruct (IsSlash (char_at path 0)) eqn:Hs.
    { exists 1. split; [lia|]. split; [by right|]. intros; lia. }
    destruct (Ascii.eqb_spec (char_at path 0) ".") as [Hd|Hd].
    { split; [lia|]. split; [simpl; lia|]. split; [done|]. intros; lia. }
    exists 0. split; [lia|]. split; [by left|].
    intros j Hj. by replace j with 0 by lia.
  - destruct (IsSlash (char_at path (S i))) eqn:Hs.
    { exists (S (S i)). split; [lia|]. split; [by right|]. intros; lia. }
    destruct (Ascii.eqb_spec (char_at path (S i)) ".") as [Hd|Hd].
    { split; [lia|]. replace (S i + 1 - 1) with (S i) by lia.
      split; [lia|]. split; [done|]. intros; lia. }
    destruct (FindExtensionOffset_from path i) as [e|].
    + destruct IH as (H1 & H2 & H3 & H4).
      split; [done|]. split; [lia|]. split; [done|].
      intros j Hj. destruct (decide (j = S i)) as [->|]; [done|].
      apply H4. lia.
    + destruct IH as (b & H1 & H2 & H3).
      exists b. split; [lia|]. split; [done|].
      intros j Hj. destruct (decide (j = S i)) as [->|]; [done|].
      apply H3. lia.
Qed.

Lemma char_at_ge (l : list ascii) i :
  length l ≤ i → char_at l i = Ascii.zero.
Proof. intros. unfold char_at. by rewrite lookup_ge_None_2. Qed.

(** Where the extension begins, relative to the file name. *)
Lemma FindExtensionOffset_cases path :
  match FindExtensionOffset path with
  | Some e =>
      FindFilenameOffset path < e ∧ e ≤ length path
      ∧ char_at path (e - 1) = "."%char
      ∧ Forall (fun c => IsSlash c = false ∧ c ≠ "."%char) (drop e path)
  | None =>
      Forall (fun c => c ≠ "."%char) (drop (FindFilenameOffset path) path)
  end.
Proof.
  unfold FindExtensionOffset.
  pose proof (FindExtensionOffset_from_spec path (length path)) as H.
  destruct (FindFilenameOffset_from_spec path (length path))
    as (F1 & F2 & F3).
  fold (FindFilenameOffset path) in F1, F2, F3.
  destruct (FindExtensionOffset_from path (length path)) as [e|].
  - destruct H as (H1 & H2 & H3 & H4).
    assert (He : e ≤ length path).
    { destruct (decide (e - 1 = length path)) as [Heq|]; [|lia].
      rewrite Heq, char_at_ge in H3 by lia. discriminate. }
    split; [|split; [done|split; [done|]]].
    + destruct F3 as [F3|F3]; [lia|].
      destruct (decide (FindFilenameOffset path < e)); [done|]. exfalso.
      destruct (decide (FindFilenameOffset path - 1 = e - 1)) as [Heq|Hne].
      * rewrite Heq, H3 in F3. done.
      * destruct (H4 (FindFilenameOffset path - 1) ltac:(lia)) as [Hs _].
        congruence.
    + apply Forall_lookup. intros i c Hc. rewrite lookup_drop in Hc.
      rewrite <- (char_at_lookup _ _ _ Hc). apply H4.
      apply lookup_lt_Some in Hc. lia.
  - destruct H as (b & H1 & H2 & H3).
    assert (Hb : FindFilenameOffset path = b).
    { destruct (Nat.lt_trichotomy (FindFilenameOffset path) b)
        as [Hlt|[Heq|Hgt]]; [|done|].
      - destruct H2 as [->|H2]; [lia|].
        destruct (decide (b - 1 < length path)) as [Hin|Hout].
        + rewrite F2 in H2 by lia. done.
        + rewrite char_at_ge in H2 by lia. done.
      - destruct F3 as [F3|F3]; [lia|].
        destruct (H3 (FindFilenameOffset path - 1) ltac:(lia)) as [Hs _].
        congruence. }
    rewrite Hb. apply Forall_lookup. intros i c Hc. rewrite lookup_drop in Hc.
    rewrite <- (char_at_lookup _ _ _ Hc). apply H3.
    apply lookup_lt_Some in Hc. lia.
Qed.

(** X7.  The file name is the name without its extension, a dot, and the
    extension, where the extension begins after the last dot of the file
    name; without a dot in the file name the extension is empty and the
    name is the whole file name.  The extension contains neither a dot nor
    a separator. *)
Theorem FindExtension_splits (path : list ascii) :
  (FindExtensionOffset path = None →
   FindExtension_buf path = []
   ∧ FindFilenameNoExtension_buf path = FindFilename_buf path
   ∧ ("."%char ∉ FindFilename_buf path))
  ∧ (FindExtensionOffset path ≠ None →
     FindFilename_buf path
     = FindFilenameNoExtension_buf path
         ++ ("."%char :: FindExtension_buf path))
  ∧ ("."%char ∉ FindExtension_buf path)
  ∧ nonslash (FindExtension_buf path).
Proof.
  pose proof (FindExtensionOffset_cases path) as H.
  destruct (FindFilenameOffset_spec path) as (Hle & Hns & Hend).
  assert (Hfile : FindFilename_buf path = drop (FindFilenameOffset path) path).
  { unfold FindFilename_buf, substr.
    destruct (Nat.eqb_spec (FindFilenameOffset path) 0) as [->|]; [done|].
    apply take_ge. rewrite length_drop. lia. }
  unfold FindExtension_buf, FindFilenameNoExtension_buf.
  destruct (FindExtensionOffset path) as [e|] eqn:He.
  - destruct H as (H1 & H2 & H3 & H4).
    split; [done|]. split; [|split].
    + intros _. rewrite Hfile.
      destruct (Nat.eqb_spec (length path) 0) as [H0|H0]; [lia|].
      unfold substr.
      rewrite <- (take_drop (e - FindFilenameOffset path - 1)
                    (drop (FindFilenameOffset path) path)) at 1.
      f_equal. rewrite drop_drop.
      replace (FindFilenameOffset path + (e - FindFilenameOffset path - 1))
        with (e - 1) by lia.
      rewrite (drop_char_at path (e - 1)) by lia. rewrite H3.
      f_equal. f_equal. lia.
    + intros Hin. rewrite Forall_forall in H4.
      by destruct (H4 _ Hin) as [_ Hd].
    + unfold nonslash. eapply Forall_impl; [exact H4|]. by intros c [Hs _].
  - split; [|split; [done|split]].
    + intros _. split; [done|]. rewrite Hfile. split.
      * destruct (Nat.eqb_spec (length path) 0) as [H0|H0].
        { by rewrite drop_ge by lia. }
        unfold substr. apply take_ge. rewrite length_drop. lia.
      * intros Hin. rewrite Forall_forall in H. by apply (H _ Hin).
    + apply not_elem_of_nil.
    + constructor.
Qed.

Lemma FindExtension_splits_witness :
  FindFilename_buf (list_ascii_of_string "//foo/bar.tar.gz")
  = FindFilenameNoExtension_buf (list_ascii_of_string "//foo/bar.tar.gz")
      ++ ("."%char
          :: FindExtension_buf (list_ascii_of_string "//foo/bar.tar.gz")).
Proof.
  destruct (FindExtension_splits (list_ascii_of_string "//foo/bar.tar.gz"))
    as (_ & H & _).
  apply H. vm_compute. discriminate.
Defined.

(** X8.  Which source types depend on the target OS: Objective-C types are
    only reported for macOS, resource files only for Windows and assembly
    never for Windows, while C, C++ and header files are recognised alike
    on every OS. *)
Theorem GetSourceFileType_os (file : SourceFile) (os os' : Settings.TargetOS) :
  (GetSourceFileType file os = SOURCE_M → os = Settings.MAC)
  ∧ (GetSourceFileType file os = SOURCE_MM → os = Settings.MAC)
  ∧ (GetSourceFileType file os = SOURCE_RC → os = Settings.WIN)
  ∧ (GetSourceFileType file os = SOURCE_S → os ≠ Settings.WIN)
  ∧ (GetSourceFileType file os = SOURCE_CC
     ∨ GetSourceFileType file os = SOURCE_H
     ∨ GetSourceFileType file os = SOURCE_C →
     GetSourceFileType file os' = GetSourceFileType file os).
Proof.
  unfold GetSourceFileType.
  set (ext := FindExtension file).
  destruct (String.eqb ext "cc" || String.eqb ext "cpp" || String.eqb ext "cxx").
  { repeat split; try discriminate. }
  destruct (String.eqb ext "h"). { repeat split; try discriminate. }
  destruct (String.eqb ext "c"). { repeat split; try discriminate. }
  destruct os; simpl;
    repeat match goal with |- context [String.eqb ext ?s] =>
             destruct (String.eqb ext s) end;
    simpl; repeat split; try discriminate; try done;
    intros [?|[?|?]]; discriminate.
Qed.

Lemma GetSourceFileType_os_witness :
  GetSourceFileType "//foo/input1.cc" Settings.WIN
  = GetSourceFileType "//foo/input1.cc" Settings.LINUX.
Proof.
  destruct (GetSourceFileType_os "//foo/input1.cc" Settings.LINUX Settings.WIN)
    as (_ & _ & _ & _ & H).
  apply H. left. vm_compute. reflexivity.
Defined.

(** * Absolute paths and the source root *)




Lemma windows_chars_equal_map a : ∀ b,
  length a = length b →
  windows_chars_equal a b = true
  ↔ map NormalizeWindowsPathChar a = map NormalizeWindowsPathChar b.
Proof.
  induction a as [|x a IH]; intros [|y b] Hlen; simpl in *; try done.
  rewrite andb_true_iff, IH by lia.
  destruct (Ascii.eqb_spec (NormalizeWindowsPathChar x)
              (NormalizeWindowsPathChar y)) as [He|Hne].
  - rewrite He. split; [by intros [_ ->]|]. by intros [= ->].
  - split; [by intros [? _]|]. by intros [= ? _].
Qed.

Lemma AreAbsoluteWindowsPathsEqual_map a b :
  AreAbsoluteWindowsPathsEqual a b = true
  ↔ map NormalizeWindowsPathChar a = map NormalizeWindowsPathChar b.
Proof.
  unfold AreAbsoluteWindowsPathsEqual.
  destruct (Nat.eqb_spec (length a) (length b)) as [Hl|Hl]; simpl.
  - by apply windows_chars_equal_map.
  - split; [done|]. intros H. apply (f_equal length) in H.
    rewrite !length_map in H. done.
Qed.

Lemma NormalizeWindowsPathChar_convert c :
  NormalizeWindowsPathChar (if Ascii.eqb c "/" then "\"%char else c)
  = NormalizeWindowsPathChar c.
Proof.
  unfold NormalizeWindowsPathChar.
  destruct (Ascii.eqb_spec c "/") as [->|Hc]; [done|].
  by destruct (Ascii.eqb_spec c "/").
Qed.

(** X10.  [AreAbsoluteWindowsPathsEqual] is an equivalence relation on
    paths (it compares the paths after mapping every character with
    [NormalizeWindowsPathChar]), and it does not distinguish a path from its
    conversion to the system's separators by [ConvertPathToSystem]. *)
Theorem AreAbsoluteWindowsPathsEqual_equivalence (a b c : list ascii) :
  AreAbsoluteWindowsPathsEqual a a = true
  ∧ (AreAbsoluteWindowsPathsEqual a b = true →
     AreAbsoluteWindowsPathsEqual b a = true)
  ∧ (AreAbsoluteWindowsPathsEqual a b = true →
     AreAbsoluteWindowsPathsEqual b c = true →
     AreAbsoluteWindowsPathsEqual a c = true)
  ∧ AreAbsoluteWindowsPathsEqual a (ConvertPathToSystem_buf HOST_WIN a) = true.
Proof.
  rewrite !AreAbsoluteWindowsPathsEqual_map.
  split; [done|]. split; [done|]. split; [congruence|].
  unfold ConvertPathToSystem_buf. rewrite map_map.
  apply map_ext. intros x. by rewrite NormalizeWindowsPathChar_convert.
Qed.

Lemma AreAbsoluteWindowsPathsEqual_equivalence_witness :
  AreAbsoluteWindowsPathsEqual (list_ascii_of_string "C:\Foo/Bar")
    (list_ascii_of_string "c:/foo/bar") = true.
Proof.
  destruct (AreAbsoluteWindowsPathsEqual_equivalence
              (list_ascii_of_string "c:/foo/bar")
              (list_ascii_of_string "C:\Foo/Bar") [])
    as (_ & H & _).
  apply H. vm_compute. reflexivity.
Defined.

Lemma letter_not_slash c :
  (65 <=? nat_of_ascii c) && (nat_of_ascii c <=? 90)
    || (97 <=? nat_of_ascii c) && (nat_of_ascii c <=? 122) = true →
  IsSlash c = false.
Proof.
  intros H. unfold IsSlash.
  destruct (Ascii.eqb_spec c "/") as [->|_]; [by vm_compute in H|].
  destruct (Ascii.eqb_spec c "\") as [->|_]; [by vm_compute in H|]. done.
Qed.

(** X11.  A path that begins with a Windows drive letter, a colon and a
    separator is absolute on Windows, and a source-absolute path (one that
    begins with ["//"]) is absolute on no host. *)
Theorem IsPathAbsolute_anchors (host : HostOS) (path : list ascii) :
  (DoesBeginWindowsDriveLetter path = true →
   IsPathAbsolute HOST_WIN path = true)
  ∧ (is_source_absolute path = true → IsPathAbsolute host path = false).
Proof.
  split.
  - unfold DoesBeginWindowsDriveLetter, IsPathAbsolute.
    destruct (Nat.ltb_spec (length path) 3) as [|Hlen]; [done|].
    destruct (Ascii.eqb_spec (char_at path 1) ":") as [Hc|]; [|done].
    cbn [negb].
    destruct ((65 <=? nat_of_ascii (char_at path 0))
                && (nat_of_ascii (char_at path 0) <=? 90)
              || (97 <=? nat_of_ascii (char_at path 0))
                   && (nat_of_ascii (char_at path 0) <=? 122)) eqn:Hl;
      [|done]. cbn [negb].
    destruct (IsSlash (char_at path 2)) eqn:Hs; [|done]. intros _.
    rewrite (letter_not_slash _ Hl). simpl.
    replace (length path =? 0) with false
      by (symmetry; apply Nat.eqb_neq; lia).
    replace (2 <? length path) with true
      by (symmetry; apply Nat.ltb_lt; lia).
    done.
  - intros Ha. destruct (is_source_absolute_inv _ Ha) as [body ->].
    by destruct host.
Qed.

Lemma IsPathAbsolute_anchors_witness :
  IsPathAbsolute HOST_WIN (list_ascii_of_string "C:\src") = true
  ∧ IsPathAbsolute HOST_POSIX (list_ascii_of_string "//base/") = false.
Proof.
  split.
  - apply (IsPathAbsolute_anchors HOST_WIN (list_ascii_of_string "C:\src")).
    vm_compute. reflexivity.
  - apply (IsPathAbsolute_anchors HOST_POSIX (list_ascii_of_string "//base/")).
    vm_compute. reflexivity.
Defined.

(** * Directories *)

Lemma NormalizePath_buf_length p : length (NormalizePath_buf p) ≤ length p.
Proof.
  unfold NormalizePath_buf, string_resize.
  destruct (NormalizePath_loop_exits p) as (_ & Hdest & Hlen).
  rewrite length_app, length_take, length_replicate. lia.
Qed.

(** A normalized path has no doubled separator after its first two
    characters. *)
Lemma NF_no_double_slash Y s s' :
  Y ≠ [] → IsSlash s = true → IsSlash s' = true →
  NormalizePath_buf (Y ++ [s; s']) ≠ Y ++ [s; s'].
Proof.
  intros HY Hs Hs' Heq.
  assert (Hlen : 2 ≤ length (Y ++ [s])).
  { rewrite length_app. destruct Y; [done|]. simpl. lia. }
  destruct (NormalizePath_buf_prefix (Y ++ [s]) Hlen
              ltac:(by right; exists Y, s)) as (rel & out & top & HB & HN).
  assert (H1 : NormalizePath_buf (Y ++ [s; s']) = NormalizePath_buf (Y ++ [s])).
  { replace (Y ++ [s; s']) with ((Y ++ [s]) ++ [s']) by (by rewrite <- app_assoc).
    rewrite <- (app_nil_r (Y ++ [s])) at 2.
    by rewrite !HN, M_slash_skip. }
  pose proof (NormalizePath_buf_length (Y ++ [s])) as Hle.
  rewrite <- H1, Heq, !length_app in Hle. simpl in Hle. lia.
Qed.

(** X12.  For a normalized directory (a path that ends in a slash and that
    [NormalizePath] leaves unchanged), [DirectoryWithNoLastSlash] gives a
    non-empty name that does not end in a slash, and appending a slash and
    normalizing gives the directory back; this includes the roots ["/"] and
    ["//"], which become ["/."] and ["//."]. *)
Theorem DirectoryWithNoLastSlash_round_trip (dir : list ascii) :
  EndsWithSlash_buf dir = true → NormalizePath_buf dir = dir →
  NormalizePath_buf (DirectoryWithNoLastSlash_buf dir ++ ["/"%char]) = dir
  ∧ EndsWithSlash_buf (DirectoryWithNoLastSlash_buf dir) = false
  ∧ DirectoryWithNoLastSlash_buf dir ≠ [].
Proof.
  intros Hend Hn.
  pose proof (NF_fwd_only _ (NormalizePath_buf_NF dir)) as Hfwd.
  rewrite Hn in Hfwd.
  destruct (EndsWithSlash_slash_ended _ Hend) as [->|(X & s & -> & Hs)];
    [done|].
  assert (s = "/"%char) as ->.
  { apply Forall_app in Hfwd as [_ Hf]. inversion Hf; subst. auto. }
  unfold DirectoryWithNoLastSlash_buf.
  rewrite length_app. simpl.
  replace (length X + 1 =? 0) with false by (symmetry; apply Nat.eqb_neq; lia).
  destruct (decide (X = [])) as [->|HX]; [by vm_compute|].
  destruct (decide (X = ["/"%char])) as [->|HX1]; [by vm_compute|].
  rewrite bool_decide_false by (intros Heq; destruct X as [|? [|? ?]]; done).
  rewrite bool_decide_false.
  2:{ intros Heq. destruct X as [|? [|? [|? ?]]]; try done.
      injection Heq as ->. done. }
  unfold string_resize.
  replace (length X + 1 - 1) with (length X) by lia.
  rewrite take_app_length.
  replace (length X - length (X ++ ["/"%char])) with 0
    by (rewrite length_app; simpl; lia).
  simpl. rewrite app_nil_r. split; [done|]. split; [|done].
  unfold EndsWithSlash_buf.
  destruct X as [|x X0] using rev_ind; [done|]. clear IHX0.
  rewrite length_app. simpl.
  replace (length X0 + 1 =? 0) with false by (symmetry; apply Nat.eqb_neq; lia).
  replace (length X0 + 1 - 1) with (length X0) by lia.
  rewrite char_at_app_r by lia. rewrite Nat.sub_diag. simpl.
  change (char_at [x] 0) with x.
  destruct (IsSlash x) eqn:Hx; [|done]. exfalso.
  destruct (decide (X0 = [])) as [->|HX0].
  - apply Forall_app in Hfwd as [Hf _]. inversion Hf; subst.
    apply HX1. simpl. f_equal. auto.
  - apply (NF_no_double_slash X0 x "/"%char HX0 Hx eq_refl).
    by rewrite <- app_assoc in Hn.
Qed.

Lemma DirectoryWithNoLastSlash_round_trip_witness :
  NormalizePath_buf
    (DirectoryWithNoLastSlash_buf (list_ascii_of_string "//out/Debug/")
       ++ ["/"%char])
  = list_ascii_of_string "//out/Debug/".
Proof.
  destruct (DirectoryWithNoLastSlash_round_trip
              (list_ascii_of_string "//out/Debug/")) as (H & _).
  - vm_compute. reflexivity.
  - vm_compute. reflexivity.
  - exact H.
Defined.

(** ** The output directory check *)

Lemma compare_prefix_differs_spec str other :
  other ≠ [] →
  compare_prefix_differs str other = false
  ↔ take (length other - 1) str = take (length other - 1) other.
Proof.
  intros Hne. unfold compare_prefix_differs.
  destruct other as [|c other]; [done|]. cbn [length].
  replace (S (length other) - 1) with (length other) by lia.
  rewrite negb_false_iff. apply bool_decide_eq_true.
Qed.

(** X13.  [EnsureStringIsInOutputDir] accepts a string exactly when it agrees
    with the directory on all characters of the directory but the last (the
    trailing slash); it reports an error exactly when it rejects.  Every
    string that begins with the directory is accepted, and so is a sibling
    such as [//output/x] for the directory [//out/], as the comment in the
    code grants. *)
Theorem EnsureStringIsInOutputDir_accepts (dir str : string)
    (originating : Value) :
  dir ≠ "" →
  ((EnsureStringIsInOutputDir dir str originating).1 = true
   ↔ take (String.length dir - 1) (list_ascii_of_string str)
     = take (String.length dir - 1) (list_ascii_of_string dir))
  ∧ ((EnsureStringIsInOutputDir dir str originating).2 = None
     ↔ (EnsureStringIsInOutputDir dir str originating).1 = true)
  ∧ (list_ascii_of_string dir `prefix_of` list_ascii_of_string str →
     EnsureStringIsInOutputDir dir str originating = (true, None))
  ∧ EnsureStringIsInOutputDir "//out/" "//output/x" originating = (true, None).
Proof.
  intros Hne.
  assert (Hne' : list_ascii_of_string dir ≠ []).
  { intros H. apply Hne. apply string_list_eq. by rewrite H. }
  pose proof (compare_prefix_differs_spec (list_ascii_of_string str)
                (list_ascii_of_string dir) Hne') as Hspec.
  rewrite length_list_ascii_of_string in Hspec.
  unfold EnsureStringIsInOutputDir.
  destruct (compare_prefix_differs (list_ascii_of_string str)
              (list_ascii_of_string dir)) eqn:Hc; cbn [fst snd].
  - split; [|split; [done|split; [|done]]].
    + split; [done|]. intros H. apply Hspec in H. done.
    + intros [k Hk]. assert (true = false); [|done].
      apply Hspec. rewrite Hk.
      rewrite take_app_le by (rewrite length_list_ascii_of_string; lia).
      done.
  - split; [|split; [done|split; [done|done]]].
    split; [|done]. intros _. by apply Hspec.
Qed.

Lemma EnsureStringIsInOutputDir_accepts_witness :
  EnsureStringIsInOutputDir "//out/Debug/" "//out/Debug/gen/foo.h"
    (MkValue VALUE_STRING "gen/foo.h") = (true, None).
Proof.
  destruct (EnsureStringIsInOutputDir_accepts "//out/Debug/"
              "//out/Debug/gen/foo.h" (MkValue VALUE_STRING "gen/foo.h"))
    as (_ & _ & H & _).
  - discriminate.
  - apply H. exists (list_ascii_of_string "gen/foo.h"). reflexivity.
Defined.

(** ** The derived directories *)

Lemma is_source_absolute_app a b :
  is_source_absolute a = true → is_source_absolute (a ++ b) = true.
Proof.
  intros H. destruct a as [|x [|y a]]; [done|done|exact H].
Qed.

Lemma EndsWithSlash_buf_app a b :
  EndsWithSlash_buf b = true → EndsWithSlash_buf (a ++ b) = true.
Proof.
  unfold EndsWithSlash_buf. intros H.
  apply andb_true_iff in H as [Hl Hs].
  apply negb_true_iff, Nat.eqb_neq in Hl.
  rewrite length_app.
  replace (length a + length b =? 0) with false
    by (symmetry; apply Nat.eqb_neq; lia).
  rewrite char_at_app_r by lia.
  replace (length a + length b - 1 - length a) with (length b - 1) by lia.
  by rewrite Hs.
Qed.

Lemma IsSourceAbsolute_append a b :
  IsSourceAbsolute a = true → IsSourceAbsolute (String.append a b) = true.
Proof.
  unfold IsSourceAbsolute. rewrite list_ascii_of_string_app.
  apply is_source_absolute_app.
Qed.

Lemma EndsWithSlash_append a b :
  EndsWithSlash b = true → EndsWithSlash (String.append a b) = true.
Proof.
  unfold EndsWithSlash. rewrite list_ascii_of_string_app.
  apply EndsWithSlash_buf_app.
Qed.

Lemma EndsWithSlash_append_tail a src :
  EndsWithSlash a = true → IsSourceAbsolute src = true →
  EndsWithSlash src = true →
  EndsWithSlash (String.append a (source_dir_tail src)) = true.
Proof.
  unfold EndsWithSlash, IsSourceAbsolute, source_dir_tail.
  rewrite list_ascii_of_string_app, list_ascii_of_string_of_list_ascii.
  intros Ha Hsrc Hend.
  destruct (list_ascii_of_string src) as [|x [|y [|z l]]] eqn:E;
    [done|done|by rewrite app_nil_r|].
  apply EndsWithSlash_buf_app. cbn [drop].
  unfold EndsWithSlash_buf in *. cbn [length] in *.
  apply andb_true_iff in Hend as [_ Hend].
  replace (S (S (S (length l))) - 1) with (S (S (length l))) in Hend by lia.
  replace (S (length l) - 1) with (length l) by lia.
  unfold char_at in *. cbn [lookup list_lookup] in *.
  simpl in Hend. simpl. exact Hend.
Qed.

Lemma prefix_of_append (a b : string) :
  list_ascii_of_string a `prefix_of` list_ascii_of_string (String.append a b).
Proof. rewrite list_ascii_of_string_app. by apply prefix_app_r. Qed.

Lemma SourceDir_SWAP_IN_prefix (a : string) :
  list_ascii_of_string a `prefix_of` list_ascii_of_string (SourceDir_SWAP_IN a).
Proof.
  unfold SourceDir_SWAP_IN. destruct (EndsWithSlash a); [done|].
  apply prefix_of_append.
Qed.

Lemma SourceDir_SWAP_IN_id (a : string) :
  EndsWithSlash a = true → SourceDir_SWAP_IN a = a.
Proof. unfold SourceDir_SWAP_IN. by intros ->. Qed.

Lemma toolchain_result_eq (s : DirSettings) :
  (if negb (String.length (toolchain_output_subdir s) =? 0)
   then String.append (build_dir (build_settings s))
          (toolchain_output_subdir s)
   else build_dir (build_settings s))
  = String.append (build_dir (build_settings s)) (toolchain_output_subdir s).
Proof.
  destruct (toolchain_output_subdir s); [|done].
  cbn [String.length Nat.eqb negb]. symmetry. apply append_empty_r.
Qed.

Lemma GetToolchainOutputDir_raw s :
  GetToolchainOutputDir s
  = SourceDir_SWAP_IN
      (String.append (build_dir (build_settings s))
         (toolchain_output_subdir s)).
Proof. unfold GetToolchainOutputDir. cbn zeta. by rewrite toolchain_result_eq. Qed.

Lemma GetToolchainGenDir_raw s :
  GetToolchainGenDir s
  = String.append
      (String.append (build_dir (build_settings s))
         (toolchain_output_subdir s)) "gen/".
Proof.
  unfold GetToolchainGenDir. cbn zeta. rewrite toolchain_result_eq.
  apply SourceDir_SWAP_IN_id. by apply EndsWithSlash_append.
Qed.

Lemma IsSourceAbsolute_length src :
  IsSourceAbsolute src = true → (String.length src <? 2) = false.
Proof.
  unfold IsSourceAbsolute, is_source_absolute. intros H.
  apply andb_true_iff in H as [H _]. apply andb_true_iff in H as [H _].
  apply Nat.leb_le in H. rewrite length_list_ascii_of_string in H.
  apply Nat.ltb_ge. lia.
Qed.

Lemma GetOutputDirForSourceDir_Some dcheck_is_on s src :
  IsSourceAbsolute src = true →
  GetOutputDirForSourceDir dcheck_is_on s src
  = Some (SourceDir_SWAP_IN
            (String.append (String.append (GetToolchainOutputDir s) "obj/")
               (source_dir_tail src))).
Proof.
  intros H. unfold GetOutputDirForSourceDir. cbn zeta.
  rewrite H, (IsSourceAbsolute_length _ H). cbn [negb].
  by rewrite andb_false_r.
Qed.

Lemma GetGenDirForSourceDir_Some dcheck_is_on s src :
  IsSourceAbsolute src = true →
  GetGenDirForSourceDir dcheck_is_on s src
  = Some (SourceDir_SWAP_IN
            (String.append (GetToolchainGenDir s) (source_dir_tail src))).
Proof.
  intros H. unfold GetGenDirForSourceDir. cbn zeta.
  rewrite H, (IsSourceAbsolute_length _ H). cbn [negb].
  by rewrite andb_false_r.
Qed.

(** X14.  Every directory derived from the settings lies in the build
    directory in the sense of [EnsureStringIsInOutputDir]: the toolchain
    output and gen directories and the output and gen directories of any
    source-absolute source directory (for which the two functions return)
    pass the check against a non-empty [build_dir].  The toolchain gen
    directory is the toolchain output directory followed by [gen/] exactly
    when [build_dir] followed by the toolchain subdirectory ends in a slash:
    otherwise the output directory gets a slash appended and the gen
    directory does not have it. *)
Theorem output_dirs_in_build_dir (dcheck_is_on : bool) (s : DirSettings)
    (source_dir : string) (originating : Value) :
  build_dir (build_settings s) ≠ "" →
  IsSourceAbsolute source_dir = true →
  EnsureStringIsInOutputDir (build_dir (build_settings s))
    (GetToolchainOutputDir s) originating = (true, None)
  ∧ EnsureStringIsInOutputDir (build_dir (build_settings s))
      (GetToolchainGenDir s) originating = (true, None)
  ∧ (∃ dir, GetOutputDirForSourceDir dcheck_is_on s source_dir = Some dir
       ∧ EnsureStringIsInOutputDir (build_dir (build_settings s)) dir
           originating = (true, None))
  ∧ (∃ dir, GetGenDirForSourceDir dcheck_is_on s source_dir = Some dir
       ∧ EnsureStringIsInOutputDir (build_dir (build_settings s)) dir
           originating = (true, None))
  ∧ (GetToolchainGenDir s = String.append (GetToolchainOutputDir s) "gen/"
     ↔ EndsWithSlash
         (String.append (build_dir (build_settings s))
            (toolchain_output_subdir s)) = true).
Proof.
  intros Hne Habs.
  assert (Hacc : ∀ str,
            list_ascii_of_string (build_dir (build_settings s))
              `prefix_of` list_ascii_of_string str →
            EnsureStringIsInOutputDir (build_dir (build_settings s)) str
              originating = (true, None)).
  { intros str Hp. unfold EnsureStringIsInOutputDir.
    assert (Hne' : list_ascii_of_string (build_dir (build_settings s)) ≠ []).
    { intros H. apply Hne. apply string_list_eq. by rewrite H. }
    replace (compare_prefix_differs _ _) with false; [done|]. symmetry.
    apply compare_prefix_differs_spec; [done|].
    destruct Hp as [k ->]. by rewrite take_app_le by lia. }
  assert (Hout : list_ascii_of_string (build_dir (build_settings s))
                   `prefix_of` list_ascii_of_string (GetToolchainOutputDir s)).
  { rewrite GetToolchainOutputDir_raw.
    etransitivity; [apply prefix_of_append|apply SourceDir_SWAP_IN_prefix]. }
  assert (Hgen : list_ascii_of_string (build_dir (build_settings s))
                   `prefix_of` list_ascii_of_string (GetToolchainGenDir s)).
  { rewrite GetToolchainGenDir_raw.
    etransitivity; [apply prefix_of_append|apply prefix_of_append]. }
  split; [by apply Hacc|]. split; [by apply Hacc|]. split; [|split].
  - eexists. split; [by apply GetOutputDirForSourceDir_Some|].
    apply Hacc. etransitivity; [exact Hout|].
    etransitivity; [apply prefix_of_append|].
    etransitivity; [apply prefix_of_append|apply SourceDir_SWAP_IN_prefix].
  - eexists. split; [by apply GetGenDirForSourceDir_Some|].
    apply Hacc. etransitivity; [exact Hgen|].
    etransitivity; [apply prefix_of_append|apply SourceDir_SWAP_IN_prefix].
  - rewrite GetToolchainGenDir_raw, GetToolchainOutputDir_raw.
    unfold SourceDir_SWAP_IN.
    destruct (EndsWithSlash _) eqn:He; [done|].
    split; [|done]. intros H.
    apply (f_equal list_ascii_of_string) in H.
    rewrite !list_ascii_of_string_app in H.
    rewrite <- !app_assoc in H. do 2 apply app_inv_head in H. done.
Qed.

Lemma output_dirs_in_build_dir_witness :
  ∃ dir,
    GetOutputDirForSourceDir true
      {| build_settings := SetBuildDir "//out/Debug/" (MkBuildSettings "" "");
         toolchain_output_subdir := "clang" |} "//foo/"
    = Some dir
    ∧ EnsureStringIsInOutputDir "//out/Debug/" dir
        (MkValue VALUE_STRING "x") = (true, None).
Proof.
  destruct (output_dirs_in_build_dir true
       {| build_settings := SetBuildDir "//out/Debug/" (MkBuildSettings "" "");
          toolchain_output_subdir := "clang" |} "//foo/"
       (MkValue VALUE_STRING "x"))
    as (_ & _ & H & _).
  - discriminate.
  - reflexivity.
  - exact H.
Defined.

(** * Rebasing *)

Lemma common_prefix_loop_inside n : ∀ i common d rest,
  i + n = length d → EndsWithSlash_buf d = true →
  (n = 0 → common = length d) →
  common_prefix_loop n i common (d ++ rest) d = length d.
Proof.
  induction n as [|n IH]; intros i common d rest Hlen Hend Hc; [by apply Hc|].
  cbn [common_prefix_loop].
  assert (Hch : char_at (d ++ rest) i = char_at d i).
  { unfold char_at. rewrite lookup_app_l by lia. done. }
  rewrite Hch, andb_diag.
  destruct (IsSlash (char_at d i)) eqn:Hs.
  - apply IH; [lia|done|lia].
  - rewrite Ascii.eqb_refl. cbn [negb].
    apply IH; [lia|done|]. intros ->. exfalso.
    unfold EndsWithSlash_buf in Hend.
    apply andb_true_iff in Hend as [_ Hend].
    replace (length d - 1) with i in Hend by lia. congruence.
Qed.

(** X15.  [RebaseSourceAbsolutePath] fails its CHECKs exactly when the input or
    the destination directory does not begin with two slashes; otherwise it
    returns a non-empty string. *)
Theorem RebaseSourceAbsolutePath_checks (input dest : list ascii) :
  (RebaseSourceAbsolutePath_buf input dest = None
   ↔ is_source_absolute input = false ∨ is_source_absolute dest = false)
  ∧ RebaseSourceAbsolutePath_buf input dest ≠ Some [].
Proof.
  unfold RebaseSourceAbsolutePath_buf.
  destruct (is_source_absolute input), (is_source_absolute dest); cbn [negb].
  - split; [split; [done|by intros [?|?]]|].
    intros H. injection H as H.
    destruct (length _ =? 0) eqn:Hl; [done|].
    rewrite H in Hl. done.
  - split; [|done]. split; auto.
  - split; [|done]. split; auto.
  - split; [|done]. split; auto.
Qed.

(** X16.  Rebasing a path that lies in the destination directory gives the
    rest of the path after that directory, and ["."] for the directory
    itself: for a destination [dir] that begins with two slashes and ends in
    a slash, [dir ++ rest] is rebased to [rest]. *)
Theorem RebaseSourceAbsolutePath_inside (dir rest : list ascii) :
  is_source_absolute dir = true → EndsWithSlash_buf dir = true →
  RebaseSourceAbsolutePath_buf (dir ++ rest) dir
  = Some (if bool_decide (rest = []) then ["."%char] else rest).
Proof.
  intros Habs Hend.
  assert (Hlen : 2 ≤ length dir).
  { unfold is_source_absolute in Habs.
    apply andb_true_iff in Habs as [Habs _].
    apply andb_true_iff in Habs as [Habs _]. by apply Nat.leb_le in Habs. }
  assert (Habs' : is_source_absolute (dir ++ rest) = true).
  { destruct dir as [|a [|b dir]]; simpl in Hlen; try lia. exact Habs. }
  unfold RebaseSourceAbsolutePath_buf.
  rewrite Habs, Habs'. cbn [negb].
  rewrite length_app.
  replace (Nat.min (length dir + length rest) (length dir)) with (length dir)
    by lia.
  cbn zeta.
  rewrite common_prefix_loop_inside;
    [|rewrite ?length_app; lia|done|rewrite ?length_app; lia].
  unfold invert_from. rewrite drop_all, drop_app_length. cbn [flat_map app].
  f_equal. destruct rest; done.
Qed.

Lemma RebaseSourceAbsolutePath_inside_witness :
  RebaseSourceAbsolutePath "//base/files/file.cc" "//base/"
  = Some "files/file.cc".
Proof.
  unfold RebaseSourceAbsolutePath.
  change (list_ascii_of_string "//base/files/file.cc")
    with (list_ascii_of_string "//base/"
            ++ list_ascii_of_string "files/file.cc").
  rewrite (RebaseSourceAbsolutePath_inside (list_ascii_of_string "//base/")
             (list_ascii_of_string "files/file.cc")).
  - reflexivity.
  - vm_compute. reflexivity.
  - vm_compute. reflexivity.
Defined.

(** X17.  The directories derived from the settings are source directories:
    when the build directory begins with two slashes and ends in a slash,
    the toolchain subdirectory is empty or ends in a slash, and the source
    directory begins with two slashes and ends in a slash, the four derived
    directories begin with two slashes and end in a slash; the two
    functions of the source directory return, and each of the four is the
    plain concatenation of its parts. *)
Theorem output_dirs_are_source_dirs (dcheck_is_on : bool) (s : DirSettings)
    (source_dir : string) :
  IsSourceAbsolute (build_dir (build_settings s)) = true →
  EndsWithSlash (build_dir (build_settings s)) = true →
  (toolchain_output_subdir s ≠ "" →
   EndsWithSlash (toolchain_output_subdir s) = true) →
  IsSourceAbsolute source_dir = true → EndsWithSlash source_dir = true →
  ∃ out_dir gen_dir,
    GetOutputDirForSourceDir dcheck_is_on s source_dir = Some out_dir
    ∧ GetGenDirForSourceDir dcheck_is_on s source_dir = Some gen_dir
    ∧ Forall (fun d => IsSourceAbsolute d = true ∧ EndsWithSlash d = true)
        [GetToolchainOutputDir s; GetToolchainGenDir s; out_dir; gen_dir]
    ∧ GetToolchainOutputDir s
      = String.append (build_dir (build_settings s))
          (toolchain_output_subdir s)
    ∧ GetToolchainGenDir s
      = String.append (GetToolchainOutputDir s) "gen/"
    ∧ out_dir
      = String.append (String.append (GetToolchainOutputDir s) "obj/")
          (source_dir_tail source_dir)
    ∧ gen_dir
      = String.append (GetToolchainGenDir s) (source_dir_tail source_dir).
Proof.
  intros Habs Hend Hsub Hsrc Hsend.
  assert (Hraw : EndsWithSlash
                   (String.append (build_dir (build_settings s))
                      (toolchain_output_subdir s)) = true).
  { destruct (toolchain_output_subdir s) as [|c sub] eqn:E.
    - by rewrite append_empty_r.
    - apply EndsWithSlash_append, Hsub. done. }
  assert (Hout : GetToolchainOutputDir s
                 = String.append (build_dir (build_settings s))
                     (toolchain_output_subdir s)).
  { rewrite GetToolchainOutputDir_raw. by apply SourceDir_SWAP_IN_id. }
  assert (Hgen : GetToolchainGenDir s
                 = String.append (GetToolchainOutputDir s) "gen/").
  { by rewrite GetToolchainGenDir_raw, Hout. }
  assert (Ho1 : IsSourceAbsolute (GetToolchainOutputDir s) = true)
    by (rewrite Hout; by apply IsSourceAbsolute_append).
  assert (Ho2 : EndsWithSlash (GetToolchainOutputDir s) = true)
    by (by rewrite Hout).
  assert (He1 : EndsWithSlash
                  (String.append
                     (String.append (GetToolchainOutputDir s) "obj/")
                     (source_dir_tail source_dir)) = true).
  { apply EndsWithSlash_append_tail; [|done|done].
    by apply EndsWithSlash_append. }
  assert (He2 : EndsWithSlash
                  (String.append (GetToolchainGenDir s)
                     (source_dir_tail source_dir)) = true).
  { apply EndsWithSlash_append_tail; [|done|done].
    rewrite Hgen. by apply EndsWithSlash_append. }
  eexists _, _.
  split; [by apply GetOutputDirForSourceDir_Some|].
  split; [by apply GetGenDirForSourceDir_Some|].
  rewrite (SourceDir_SWAP_IN_id _ He1), (SourceDir_SWAP_IN_id _ He2).
  split; [|done].
  repeat (apply Forall_cons; split); [done| | | |by constructor].
  - rewrite Hgen.
    split; [by apply IsSourceAbsolute_append|by apply EndsWithSlash_append].
  - split; [by do 2 apply IsSourceAbsolute_append|done].
  - split; [|done]. rewrite Hgen. by do 2 apply IsSourceAbsolute_append.
Qed.

Lemma output_dirs_are_source_dirs_witness :
  GetGenDirForSourceDir true
    {| build_settings := SetBuildDir "//out/Debug/" (MkBuildSettings "" "");
       toolchain_output_subdir := "clang/" |} "//foo/bar/"
  = Some "//out/Debug/clang/gen/foo/bar/".
Proof.
  destruct (output_dirs_are_source_dirs true
       {| build_settings := SetBuildDir "//out/Debug/" (MkBuildSettings "" "");
          toolchain_output_subdir := "clang/" |} "//foo/bar/")
    as (o & g & _ & Hg & _ & _ & _ & _ & Hg').
  - reflexivity.
  - reflexivity.
  - intros _. reflexivity.
  - reflexivity.
  - reflexivity.
  - rewrite Hg, Hg'. reflexivity.
Defined.

(** * More on the writer *)

Section WriterFacts.
Variable deref : TargetPtr → Target.
Variable IsLinkable : Target → bool.
Variable GetOutputFileForSource
  : Target → SourceFile → SourceFileType → OutputFile.
Variable GetTargetOutputFile : Target → OutputFile.
Variable GetRuleForSourceType : SettingsView → SourceFileType → string.
Variable WriteFile : string → string.

Local Abbreviation get_deps := (GetDeps deref IsLinkable GetOutputFileForSource).
Local Abbreviation bucket := (in_bucket deref IsLinkable).

Lemma in_bucket_Linkable t p :
  bucket Linkable t p
  ↔ output_type (deref p) ≠ SOURCE_SET
    ∧ (output_type t = EXECUTABLE ∨ output_type t = SHARED_LIBRARY)
    ∧ IsLinkable (deref p) = true.
Proof using Type.
  unfold in_bucket, classify_dep.
  destruct (decide (output_type (deref p) = SOURCE_SET)) as [Hs|Hs].
  - rewrite (bool_decide_true _ Hs).
    destruct (bool_decide (output_type t = SOURCE_SET));
      (split; [done|by intros [? _]]).
  - rewrite (bool_decide_false _ Hs).
    destruct (IsLinkable (deref p));
      destruct (decide (output_type t = EXECUTABLE)) as [He|He];
      destruct (decide (output_type t = SHARED_LIBRARY)) as [Hl|Hl];
      rewrite ?(bool_decide_true _ He), ?(bool_decide_false _ He),
        ?(bool_decide_true _ Hl), ?(bool_decide_false _ Hl); cbn [orb andb];
      split; try done; try (intros (_ & [?|?] & _); done);
      try (intros (_ & _ & ?); done); intros _; auto.
Qed.

Lemma in_bucket_SourceSetExpanded t p :
  bucket SourceSetExpanded t p
  ↔ output_type (deref p) = SOURCE_SET ∧ output_type t ≠ SOURCE_SET.
Proof using Type.
  unfold in_bucket, classify_dep.
  destruct (decide (output_type (deref p) = SOURCE_SET)) as [Hs|Hs].
  - rewrite (bool_decide_true _ Hs).
    destruct (decide (output_type t = SOURCE_SET)) as [Ht|Ht].
    + rewrite (bool_decide_true _ Ht). split; [done|by intros [_ ?]].
    + rewrite (bool_decide_false _ Ht). done.
  - rewrite (bool_decide_false _ Hs).
    destruct (_ && _); (split; [done|by intros [? _]]).
Qed.

(** X18.  The libraries [GetDeps] hands to the linker: a target is among the
    linkable dependencies exactly when it is a dependency or an inherited
    library of the target, it is not a source set, the target is an
    executable or a shared library, and it is linkable.  If [deps] has no
    duplicates, neither has the list, although [deps] and
    [inherited_libraries] may overlap; and a target that is listed both as
    linkable and as non-linkable is one of the [datadeps]. *)
Theorem GetDeps_linkable (t : Target) :
  (∀ p, p ∈ linkable_deps (get_deps t)
        ↔ (p ∈ deps t ∨ p ∈ inherited_libraries t)
          ∧ output_type (deref p) ≠ SOURCE_SET
          ∧ (output_type t = EXECUTABLE ∨ output_type t = SHARED_LIBRARY)
          ∧ IsLinkable (deref p) = true)
  ∧ (NoDup (deps t) → NoDup (linkable_deps (get_deps t)))
  ∧ (∀ p, p ∈ linkable_deps (get_deps t) →
          p ∈ non_linkable_deps (get_deps t) → p ∈ datadeps t).
Proof using Type.
  rewrite (GetDeps_buckets deref IsLinkable GetOutputFileForSource t).
  cbn [linkable_deps non_linkable_deps].
  split; [|split].
  - intros p. rewrite list_elem_of_filter, classified_deps_elem.
    rewrite in_bucket_Linkable. split.
    + intros (H1 & H2). done.
    + intros (H1 & H2). done.
  - intros Hnd. apply NoDup_filter. by apply classified_deps_NoDup.
  - intros p Hl Hn. apply list_elem_of_filter in Hl as [Hl _].
    apply elem_of_app in Hn as [Hn|Hn]; [|done].
    apply list_elem_of_filter in Hn as [Hn _].
    unfold in_bucket in Hl, Hn. congruence.
Qed.

(** X19.  The object files [GetDeps] adds for source sets: a file is among the
    extra object files exactly when the target is not a source set itself
    and the file is the object file of a source of a source set among its
    dependencies or inherited libraries, the source being of a known type
    other than a header. *)
Theorem GetDeps_extra_object_files (t : Target) (o : OutputFile) :
  o ∈ extra_object_files (get_deps t)
  ↔ output_type t ≠ SOURCE_SET
    ∧ ∃ p src,
        (p ∈ deps t ∨ p ∈ inherited_libraries t)
        ∧ output_type (deref p) = SOURCE_SET
        ∧ src ∈ sources (deref p)
        ∧ GetSourceFileType src (target_os (settings (deref p)))
          ≠ SOURCE_UNKNOWN
        ∧ GetSourceFileType src (target_os (settings (deref p))) ≠ SOURCE_H
        ∧ o = GetOutputFileForSource (deref p) src
                (GetSourceFileType src (target_os (settings (deref p)))).
Proof using Type.
  rewrite (GetDeps_buckets deref IsLinkable GetOutputFileForSource t).
  cbn [extra_object_files].
  rewrite elem_of_union_list. split.
  - intros (X & HX & Ho).
    apply list_elem_of_In, in_map_iff in HX as (p & <- & Hp).
    apply list_elem_of_In, list_elem_of_filter in Hp as [Hb Hp].
    apply in_bucket_SourceSetExpanded in Hb as [Hs Ht].
    apply classified_deps_elem in Hp.
    apply elem_of_list_to_set in Ho.
    unfold source_set_objects in Ho.
    apply list_elem_of_omap in Ho as (src & Hsrc & Hf).
    split; [done|]. exists p, src. split; [done|]. split; [done|].
    split; [done|].
    destruct (decide (GetSourceFileType src (target_os (settings (deref p)))
                      = SOURCE_UNKNOWN)) as [Hu|Hu].
    { rewrite (bool_decide_true _ Hu) in Hf. done. }
    destruct (decide (GetSourceFileType src (target_os (settings (deref p)))
                      = SOURCE_H)) as [Hh|Hh].
    { rewrite (bool_decide_true _ Hh), andb_false_r in Hf. done. }
    rewrite (bool_decide_false _ Hu), (bool_decide_false _ Hh) in Hf.
    cbn [negb andb] in Hf. injection Hf as <-. done.
  - intros (Ht & p & src & Hp & Hs & Hsrc & Hu & Hh & ->).
    exists (list_to_set
              (source_set_objects GetOutputFileForSource (deref p))).
    split.
    + apply list_elem_of_In, in_map_iff. exists p. split; [done|].
      apply list_elem_of_In, list_elem_of_filter. split.
      * by apply in_bucket_SourceSetExpanded.
      * by apply classified_deps_elem.
    + apply elem_of_list_to_set. unfold source_set_objects.
      apply list_elem_of_omap. exists src. split; [done|].
      by rewrite (bool_decide_false _ Hu), (bool_decide_false _ Hh).
Qed.

(** X20.  The object files a linking target takes from a source set against
    the object files the source set's own [WriteSources] builds.  If the
    rule for headers is empty, every object file the source set builds is
    taken; if every known type other than a header has a rule, every object
    file taken is built. *)
Theorem source_set_objects_built (dep : Target) :
  (GetRuleForSourceType (settings dep) SOURCE_H = "" →
   own_object_files GetOutputFileForSource GetRuleForSourceType dep
     ⊆ source_set_objects GetOutputFileForSource dep)
  ∧ ((∀ ty, ty ≠ SOURCE_UNKNOWN → ty ≠ SOURCE_H →
            GetRuleForSourceType (settings dep) ty ≠ "") →
     source_set_objects GetOutputFileForSource dep
       ⊆ own_object_files GetOutputFileForSource GetRuleForSourceType dep).
Proof using Type.
  unfold own_object_files, source_set_objects. split.
  - intros Hh o Ho. apply list_elem_of_omap in Ho as (src & Hsrc & Hf).
    apply list_elem_of_omap. exists src. split; [done|].
    destruct (decide (GetSourceFileType src (target_os (settings dep))
                      = SOURCE_UNKNOWN)) as [Hu|Hu].
    { rewrite (bool_decide_true _ Hu) in Hf. done. }
    rewrite (bool_decide_false _ Hu) in Hf |- *.
    destruct (decide (GetSourceFileType src (target_os (settings dep))
                      = SOURCE_H)) as [Hty|Hty].
    { rewrite Hty, Hh in Hf. done. }
    rewrite (bool_decide_false _ Hty).
    destruct (String.eqb _ _); done.
  - intros Hr o Ho. apply list_elem_of_omap in Ho as (src & Hsrc & Hf).
    apply list_elem_of_omap. exists src. split; [done|].
    destruct (decide (GetSourceFileType src (target_os (settings dep))
                      = SOURCE_UNKNOWN)) as [Hu|Hu].
    { rewrite (bool_decide_true _ Hu) in Hf. done. }
    rewrite (bool_decide_false _ Hu) in Hf |- *.
    destruct (decide (GetSourceFileType src (target_os (settings dep))
                      = SOURCE_H)) as [Hty|Hty].
    { rewrite (bool_decide_true _ Hty) in Hf. done. }
    rewrite (bool_decide_false _ Hty) in Hf.
    destruct (String.eqb _ _) eqn:He; [|done].
    apply String.eqb_eq in He. by apply Hr in He.
Qed.

Lemma append_eq_empty (a b : string) :
  String.append a b = "" ↔ a = "" ∧ b = "".
Proof using Type.
  destruct a; simpl; [|split; [done|by intros [? _]]].
  split; [done|by intros [_ ?]].
Qed.

(** X21.  [WriteImplicitDependencies] writes nothing exactly when there are no
    non-linkable dependencies and no data files; for the list [GetDeps]
    computes this means that the target has no data files and no
    [datadeps], and that none of its dependencies and inherited libraries is
    classified as non-linkable. *)
Theorem WriteImplicitDependencies_empty (t : Target)
    (non_linkable : list TargetPtr) :
  (WriteImplicitDependencies deref GetTargetOutputFile WriteFile t
     non_linkable = ""
   ↔ non_linkable = [] ∧ data t = [])
  ∧ (WriteImplicitDependencies deref GetTargetOutputFile WriteFile t
       (non_linkable_deps (get_deps t)) = ""
     ↔ data t = [] ∧ datadeps t = []
       ∧ ∀ p, p ∈ deps t ∨ p ∈ inherited_libraries t →
              ¬ bucket NonLinkable t p).
Proof using Type.
  assert (H1 : ∀ nl,
            WriteImplicitDependencies deref GetTargetOutputFile WriteFile t
              nl = ""
            ↔ nl = [] ∧ data t = []).
  { intros nl. unfold WriteImplicitDependencies.
    destruct nl as [|p nl], (data t) as [|d ds]; cbn [length Nat.eqb negb orb];
      split; try done; by intros [? ?]. }
  split; [apply H1|].
  rewrite H1, (GetDeps_buckets deref IsLinkable GetOutputFileForSource t).
  cbn [non_linkable_deps]. split.
  - intros [Hn Hd]. apply app_eq_nil in Hn as [Hf Hdd].
    split; [done|]. split; [done|].
    intros p Hp Hb.
    assert (Hin : p ∈ filter (bucket NonLinkable t) (classified_deps t)).
    { apply list_elem_of_filter. split; [done|].
      by apply classified_deps_elem. }
    rewrite Hf in Hin. by apply elem_of_nil in Hin.
  - intros (Hd & Hdd & Hno). split; [|done]. rewrite Hdd, app_nil_r.
    destruct (filter _ _) as [|p l] eqn:Hf; [done|]. exfalso.
    assert (Hin : p ∈ filter (bucket NonLinkable t) (classified_deps t))
      by (rewrite Hf; apply list_elem_of_here).
    apply list_elem_of_filter in Hin as [Hb Hin].
    apply classified_deps_elem in Hin. by apply (Hno p).
Qed.
End WriterFacts.

Lemma GetDeps_linkable_witness :
  NoDup (linkable_deps
           (GetDeps example_deref IsLinkable_spec example_object_file
              example_shlib)).
Proof.
  destruct (GetDeps_linkable example_deref IsLinkable_spec
              example_object_file example_shlib) as (_ & H & _).
  apply H. vm_compute. repeat constructor; set_solver.
Defined.

Lemma source_set_objects_built_witness :
  own_object_files example_object_file
    (fun _ ty => if bool_decide (ty = SOURCE_H) then "" else "cc")
    example_bar
  ⊆ source_set_objects example_object_file example_bar.
Proof.
  destruct (source_set_objects_built example_object_file
              (fun _ ty => if bool_decide (ty = SOURCE_H) then "" else "cc")
              example_bar) as [H _].
  apply H. reflexivity.
Defined.

Lemma WriteImplicitDependencies_empty_witness :
  WriteImplicitDependencies example_deref example_output_file
    example_write_file example_lib
    (non_linkable_deps
       (GetDeps example_deref IsLinkable_spec example_object_file
          example_lib))
  = "".
Proof.
  destruct (WriteImplicitDependencies_empty example_deref IsLinkable_spec
              example_object_file example_output_file example_write_file
              example_lib []) as [_ H].
  apply H. split; [reflexivity|]. split; [reflexivity|].
  intros p [Hp|Hp].
  - by apply elem_of_nil in Hp.
  - by apply elem_of_empty in Hp.
Defined.

(** * More on target generation *)

Section GeneratorFacts.
Variables Scope FunctionCallNode GenTarget GenSettings : Type.
Variable GetSourceDir : Scope → string.
Variable ToolchainLabelForScope : Scope → Label.
Variable scope_settings : Scope → GenSettings.
Variable GetUserVisibleName : Label → bool → string.
Variable Target_new : GenSettings → Label → GenTarget.
Variable set_defined_from : FunctionCallNode → GenTarget → GenTarget.
Variables kCopy kCustom kExecutable kGroup kSharedLibrary kSourceSet
          kStaticLibrary : string.
Variable CopyTargetGenerator_Run
  : FunctionCallNode → GenState Scope FunctionCallNode GenTarget
    → GenState Scope FunctionCallNode GenTarget.
Variable ScriptTargetGenerator_Run
  : FunctionCallNode → GenState Scope FunctionCallNode GenTarget
    → GenState Scope FunctionCallNode GenTarget.
Variable GroupTargetGenerator_Run
  : FunctionCallNode → GenState Scope FunctionCallNode GenTarget
    → GenState Scope FunctionCallNode GenTarget.
Variable BinaryTargetGenerator_Run
  : FunctionCallNode → OutputType
    → GenState Scope FunctionCallNode GenTarget
    → GenState Scope FunctionCallNode GenTarget.
Variable verbose_logging : bool.

Local Abbreviation generate :=
  (GenerateTarget Scope FunctionCallNode GenTarget GenSettings
     GetSourceDir ToolchainLabelForScope scope_settings GetUserVisibleName
     Target_new set_defined_from
     kCopy kCustom kExecutable kGroup kSharedLibrary kSourceSet
     kStaticLibrary
     CopyTargetGenerator_Run ScriptTargetGenerator_Run
     GroupTargetGenerator_Run BinaryTargetGenerator_Run verbose_logging).
Local Abbreviation dispatch :=
  (run_generator Scope FunctionCallNode GenTarget
     kCopy kCustom kExecutable kGroup kSharedLibrary kSourceSet
     kStaticLibrary
     CopyTargetGenerator_Run ScriptTargetGenerator_Run
     GroupTargetGenerator_Run BinaryTargetGenerator_Run).

(** X22.  What [GenerateTarget] leaves behind.  If it ends with an error in
    [*err] (its own, one of the generator, or one that was there before and
    that the generator kept), nothing is handed to [ItemDefined].  In every
    case at most one item is handed over, the callback sees exactly the
    items handed over when it is set and nothing when it is null, and the
    log grows by at most the one line written under verbose logging, which
    is written only when the arguments are one string. *)
Theorem GenerateTarget_effects (callback_is_null : bool)
    (function_call : FunctionCallNode) (args : list Value)
    (output_type : string)
    (w : GenWorld Scope FunctionCallNode GenTarget) :
  let w' := generate callback_is_null function_call args output_type w in
  (has_error (w_err w') = true →
   w_item_defined w' = w_item_defined w
   ∧ w_callback_runs w' = w_callback_runs w)
  ∧ (∃ items, length items ≤ 1
       ∧ w_item_defined w' = w_item_defined w ++ items
       ∧ w_callback_runs w'
         = w_callback_runs w ++ (if callback_is_null then [] else items))
  ∧ (w_log w' = w_log w
     ∨ (verbose_logging = true ∧ one_string_argument args = true
        ∧ ∃ name, w_log w' = w_log w ++ [("Defining target", name)])).
Proof using Type.
  cbn zeta. unfold GenerateTarget, one_string_argument.
  assert (Hnone : ∀ w0 : GenWorld Scope FunctionCallNode GenTarget,
            w_item_defined w0 = w_item_defined w →
            w_callback_runs w0 = w_callback_runs w →
            ∃ items : list GenTarget, length items ≤ 1
              ∧ w_item_defined w0 = w_item_defined w ++ items
              ∧ w_callback_runs w0
                = w_callback_runs w
                    ++ (if callback_is_null then [] else items)).
  { intros w0 H1 H2. exists []. rewrite H1, H2.
    split; [simpl; lia|]. split; [by rewrite app_nil_r|].
    destruct callback_is_null; by rewrite app_nil_r. }
  destruct args as [|arg0 [|arg1 args]];
    [split; [done|split; [by apply Hnone|by left]]|
    |split; [done|split; [by apply Hnone|by left]]].
  destruct (bool_decide (value_type arg0 = VALUE_STRING)) eqn:Hty;
    [|split; [done|split; [by apply Hnone|by left]]].
  match goal with
  | |- context [dispatch ?fc ?ot ?g0] => set (g := dispatch fc ot g0)
  end.
  destruct (has_error g.2) eqn:He; cbn [negb].
  - cbn [w_err w_item_defined w_callback_runs w_log].
    split; [done|]. split; [by apply Hnone|].
    destruct verbose_logging; [right|by left].
    split; [done|]. split; [done|]. by eexists.
  - unfold ItemDefined. cbn [w_err w_item_defined w_callback_runs w_log].
    split; [by rewrite He|]. split.
    + exists [g.1.2]. split; [simpl; lia|]. split; [done|].
      destruct callback_is_null; [by rewrite app_nil_r|done].
    + destruct verbose_logging; [right|by left].
      split; [done|]. split; [done|]. by eexists.
Qed.

(** X23.  Each of the seven names selects its own generator, with the output
    type that belongs to the name, provided the names are pairwise
    different. *)
Theorem run_generator_selects (function_call : FunctionCallNode)
    (g : GenState Scope FunctionCallNode GenTarget) :
  NoDup [kCopy; kCustom; kExecutable; kGroup; kSharedLibrary; kSourceSet;
         kStaticLibrary] →
  dispatch function_call kCopy g = CopyTargetGenerator_Run function_call g
  ∧ dispatch function_call kCustom g
    = ScriptTargetGenerator_Run function_call g
  ∧ dispatch function_call kExecutable g
    = BinaryTargetGenerator_Run function_call EXECUTABLE g
  ∧ dispatch function_call kGroup g
    = GroupTargetGenerator_Run function_call g
  ∧ dispatch function_call kSharedLibrary g
    = BinaryTargetGenerator_Run function_call SHARED_LIBRARY g
  ∧ dispatch function_call kSourceSet g
    = BinaryTargetGenerator_Run function_call SOURCE_SET g
  ∧ dispatch function_call kStaticLibrary g
    = BinaryTargetGenerator_Run function_call STATIC_LIBRARY g.
Proof using Type.
  intros Hnd. unfold run_generator.
  assert (Hne : ∀ a b : string, a ≠ b → String.eqb a b = false)
    by (intros a b; apply String.eqb_neq).
  repeat match goal with
         | H : NoDup (_ :: _) |- _ =>
             apply NoDup_cons in H as [? H]
         end.
  repeat match goal with
         | H : _ ∉ _ :: _ |- _ => apply not_elem_of_cons in H as [? H]
         end.
  rewrite !String.eqb_refl.
  repeat split;
    repeat (rewrite Hne by (done || (intros E; symmetry in E; done)));
    reflexivity.
Qed.
End GeneratorFacts.

Lemma GenerateTarget_effects_witness :
  w_item_defined (example_generate [] "executable") = []
  ∧ w_callback_runs (example_generate [] "executable") = [].
Proof.
  unfold example_generate.
  match goal with
  | |- context [GenerateTarget ?S ?F ?T ?GS ?a ?b ?c ?d ?e ?f ?k1 ?k2 ?k3 ?k4
                  ?k5 ?k6 ?k7 ?g1 ?g2 ?g3 ?g4 ?v ?cb ?fc [] ?ot ?w] =>
      destruct (GenerateTarget_effects S F T GS a b c d e f k1 k2 k3 k4 k5 k6
                  k7 g1 g2 g3 g4 v cb fc [] ot w) as [H1 _]
  end.
  cbn zeta in H1. apply H1. vm_compute. reflexivity.
Defined.

Lemma run_generator_selects_witness :
  run_generator unit nat Label
    "copy" "custom" "executable" "group" "shared_library" "source_set"
    "static_library"
    (fun _ g => g) (fun _ g => g) (fun _ g => g)
    (fun _ ty g => (g.1.1, MkLabel "" "" "" "", g.2))
    7 "source_set" (example_world.(w_scope),
                    MkLabel "//foo/" "bar" "" "", example_world.(w_err))
  = (tt, MkLabel "" "" "" "", example_world.(w_err)).
Proof.
  destruct (run_generator_selects unit nat Label
    "copy" "custom" "executable" "group" "shared_library" "source_set"
    "static_library"
    (fun _ g => g) (fun _ g => g) (fun _ g => g)
    (fun _ ty g => (g.1.1, MkLabel "" "" "" "", g.2))
    7 (example_world.(w_scope),
       MkLabel "//foo/" "bar" "" "", example_world.(w_err)))
    as (_ & _ & _ & _ & _ & H & _).
  - apply (bool_decide_unpack _). vm_compute. exact I.
  - rewrite H. reflexivity.
Defined.

(** * The per-file provider *)

Section ProviderFacts.
Variable FilePath : Type.
Variable FilePathToUTF8 : FilePath → string.
Variable GetUserVisibleName : Label → bool → string.
Variable dcheck_is_on : bool.
Variables kCurrentToolchain kDefaultToolchain kPythonPath kRootBuildDir
          kRootGenDir kRootOutDir kTargetGenDir kTargetOutDir : string.

Local Abbreviation get_value :=
  (GetProgrammaticValue FilePath FilePathToUTF8 GetUserVisibleName
     dcheck_is_on
     kCurrentToolchain kDefaultToolchain kPythonPath kRootBuildDir
     kRootGenDir kRootOutDir kTargetGenDir kTargetOutDir).
Local Abbreviation requests :=
  (provider_requests FilePath FilePathToUTF8 GetUserVisibleName
     dcheck_is_on
     kCurrentToolchain kDefaultToolchain kPythonPath kRootBuildDir
     kRootGenDir kRootOutDir kTargetGenDir kTargetOutDir).
Local Abbreviation consistent :=
  (provider_consistent FilePath FilePathToUTF8 GetUserVisibleName
     dcheck_is_on).

Local Ltac provider_cbn :=
  cbn -[GetCurrentGenDir GetCurrentOutputDir DirectoryWithNoLastSlash
        GetToolchainGenDir GetToolchainOutputDir] in *.

Local Ltac provider_cases :=
  unfold GetProgrammaticValue, some_value, GetCurrentToolchain,
    GetDefaultToolchain, GetPythonPath, GetRootBuildDir, GetRootGenDir,
    GetRootOutDir, GetTargetGenDir, GetTargetOutDir;
  repeat match goal with
         | |- context [String.eqb ?a ?b] => destruct (String.eqb a b)
         end;
  provider_cbn.

Lemma provider_extends_refl p : provider_extends p p.
Proof using Type. unfold provider_extends. by repeat split. Qed.

Lemma provider_extends_trans p q r :
  provider_extends p q → provider_extends q r → provider_extends p r.
Proof using Type.
  unfold provider_extends.
  intros (A1 & A2 & A3 & A4 & A5 & A6 & A7 & A8)
         (B1 & B2 & B3 & B4 & B5 & B6 & B7 & B8).
  repeat split; auto.
Qed.

Lemma GetProgrammaticValue_extends scope ident p res :
  get_value scope ident p = Some res → provider_extends p res.2.
Proof using Type.
  destruct p as [s1 s2 s3 s4 s5 s6 s7 s8].
  provider_cases; intros H; repeat case_match; provider_cbn;
    simplify_eq; provider_cbn;
    try apply provider_extends_refl;
    unfold provider_extends; cbn; repeat split; auto; done.
Qed.

Lemma provider_requests_extends reqs : ∀ p q,
  requests reqs p = Some q → provider_extends p q.
Proof using Type.
  induction reqs as [|r reqs IH]; intros p q.
  { cbn. intros [= <-]. apply provider_extends_refl. }
  cbn [provider_requests].
  destruct (get_value r.1 r.2 p) as [res|] eqn:E; [|done].
  intros H. eapply provider_extends_trans.
  - by apply (GetProgrammaticValue_extends _ _ _ _ E).
  - by apply IH.
Qed.

Lemma GetProgrammaticValue_hit scope1 scope2 ident p p1 q v :
  get_value scope1 ident p = Some (Some v, p1) →
  provider_extends p1 q →
  get_value scope2 ident q = Some (Some v, q).
Proof using Type.
  destruct p as [s1 s2 s3 s4 s5 s6 s7 s8].
  destruct q as [t1 t2 t3 t4 t5 t6 t7 t8].
  provider_cases; intros H (E1 & E2 & E3 & E4 & E5 & E6 & E7 & E8);
    repeat case_match; provider_cbn; simplify_eq; provider_cbn;
    try done;
    first [ pose proof (E1 _ eq_refl) as Ek | pose proof (E2 _ eq_refl) as Ek
          | pose proof (E3 _ eq_refl) as Ek | pose proof (E4 _ eq_refl) as Ek
          | pose proof (E5 _ eq_refl) as Ek | pose proof (E6 _ eq_refl) as Ek
          | pose proof (E7 _ eq_refl) as Ek | pose proof (E8 _ eq_refl) as Ek ];
    provider_cbn; simplify_eq; done.
Qed.

(** X24.  A value is computed once.  When a request for a name has been
    answered with a value, every later request for that name is answered
    with the same value and leaves the provider as it is, whatever other
    requests have been made in between and whatever the scope has become:
    the provider does not see a change of the scope for a name it has
    answered, and the later request cannot abort. *)
Theorem GetProgrammaticValue_cached
    (scope1 scope2 : ProviderScope FilePath) (ident : string)
    (p p1 p2 : ScopePerFileProvider) (v : Value)
    (reqs : list (ProviderScope FilePath * string)) :
  get_value scope1 ident p = Some (Some v, p1) →
  requests reqs p1 = Some p2 →
  get_value scope2 ident p2 = Some (Some v, p2).
Proof using Type.
  intros Hv Hreqs. eapply GetProgrammaticValue_hit; [exact Hv|].
  by eapply provider_requests_extends.
Qed.

Lemma provider_consistent_new scope :
  consistent scope ScopePerFileProvider_new.
Proof using Type. unfold provider_consistent. cbn. by repeat split. Qed.

Lemma GetProgrammaticValue_consistent scope ident p res :
  consistent scope p → get_value scope ident p = Some res →
  consistent scope res.2.
Proof using Type.
  destruct p as [s1 s2 s3 s4 s5 s6 s7 s8].
  intros Hc. provider_cases; intros H; repeat case_match; provider_cbn;
    simplify_eq; provider_cbn; try exact Hc;
    destruct Hc as (C1 & C2 & C3 & C4 & C5 & C6 & C7 & C8);
    unfold provider_consistent, GetTargetGenDir, GetTargetOutDir;
    provider_cbn; repeat split; auto;
    intros v Hv; injection Hv as <-;
    first [ done
          | match goal with
            | E : _ = Some _ |- _ => by rewrite E
            end ].
Qed.

Lemma GetProgrammaticValue_fresh scope ident p :
  consistent scope p →
  fst <$> get_value scope ident p
  = fst <$> get_value scope ident ScopePerFileProvider_new.
Proof using Type.
  destruct p as [s1 s2 s3 s4 s5 s6 s7 s8].
  intros (C1 & C2 & C3 & C4 & C5 & C6 & C7 & C8). provider_cbn.
  unfold GetTargetGenDir, GetTargetOutDir in C7, C8.
  provider_cases; repeat case_match; provider_cbn; simplify_eq;
    provider_cbn; try done;
    first [ pose proof (C1 _ eq_refl) as Ck | pose proof (C2 _ eq_refl) as Ck
          | pose proof (C3 _ eq_refl) as Ck | pose proof (C4 _ eq_refl) as Ck
          | pose proof (C5 _ eq_refl) as Ck | pose proof (C6 _ eq_refl) as Ck
          | pose proof (C7 _ eq_refl) as Ck | pose proof (C8 _ eq_refl) as Ck ];
    provider_cbn; repeat case_match; provider_cbn; simplify_eq; done.
Qed.

(** X25.  While the scope stays the same, the cache cannot be observed:
    after any requests made to a new provider with one scope, none of which
    aborted, a request is answered as a new provider answers it (and aborts
    exactly when a new provider does).  A name that is none of the eight is
    answered with [NULL], and only such a name is; that request leaves the
    provider as it was. *)
Theorem GetProgrammaticValue_transparent (scope : ProviderScope FilePath)
    (idents : list string) (ident : string) (p q : ScopePerFileProvider) :
  requests (map (fun i => (scope, i)) idents) ScopePerFileProvider_new
  = Some q →
  fst <$> get_value scope ident q
  = fst <$> get_value scope ident ScopePerFileProvider_new
  ∧ (get_value scope ident p = Some (None, p)
     ↔ ident ∉ [kCurrentToolchain; kDefaultToolchain; kPythonPath;
                 kRootBuildDir; kRootGenDir; kRootOutDir; kTargetGenDir;
                 kTargetOutDir])
  ∧ (∀ p', get_value scope ident p = Some (None, p') → p' = p).
Proof using Type.
  intros Hq. split; [|split].
  - apply GetProgrammaticValue_fresh.
    revert Hq. generalize (provider_consistent_new scope).
    generalize ScopePerFileProvider_new.
    induction idents as [|i idents IH]; intros q0 Hq0.
    { cbn. by intros [= <-]. }
    cbn [map provider_requests fst snd].
    destruct (get_value scope i q0) as [res|] eqn:E; [|done].
    apply IH. by apply (GetProgrammaticValue_consistent _ _ _ _ Hq0 E).
  - rewrite !not_elem_of_cons.
    unfold GetProgrammaticValue, some_value.
    repeat match goal with
           | |- context [String.eqb ?a ?b] =>
               let E := fresh "E" in
               destruct (String.eqb a b) eqn:E;
               [apply String.eqb_eq in E|apply String.eqb_neq in E]
           end; cbn [fst];
      try (split;
           [ intros H;
             first [ discriminate H
                   | by destruct (GetTargetGenDir _ _ _ _) as [[? ?]|]
                   | by destruct (GetTargetOutDir _ _ _ _) as [[? ?]|] ]
           | intros (? & ? & ? & ? & ? & ? & ? & ? & _); done ]).
    split; [|done]. intros _. repeat split; try done. apply not_elem_of_nil.
  - intros p'. unfold GetProgrammaticValue, some_value.
    repeat match goal with
           | |- context [String.eqb ?a ?b] => destruct (String.eqb a b)
           end; cbn [fst snd]; intros H;
      first [ by injection H as <-
            | discriminate H
            | by destruct (GetTargetGenDir _ _ _ _) as [[? ?]|]
            | by destruct (GetTargetOutDir _ _ _ _) as [[? ?]|] ].
Qed.
End ProviderFacts.

Lemma GetProgrammaticValue_cached_witness :
  example_provider_value (example_provider_scope "") "target_out_dir"
    (MkScopePerFileProvider None None None None None None None
       (Some (Value_of_string "//out/Debug/obj/foo")))
  = Some (Some (Value_of_string "//out/Debug/obj/foo"),
          MkScopePerFileProvider None None None None None None None
            (Some (Value_of_string "//out/Debug/obj/foo"))).
Proof.
  unfold example_provider_value.
  apply (GetProgrammaticValue_cached string (fun s => s)
           (fun l _ => label_name l) true
           "current_toolchain" "default_toolchain" "python_path"
           "root_build_dir" "root_gen_dir" "root_out_dir" "target_gen_dir"
           "target_out_dir"
           (example_provider_scope "//foo/") (example_provider_scope "")
           "target_out_dir" ScopePerFileProvider_new
           (MkScopePerFileProvider None None None None None None None
              (Some (Value_of_string "//out/Debug/obj/foo")))
           (MkScopePerFileProvider None None None None None None None
              (Some (Value_of_string "//out/Debug/obj/foo")))
           (Value_of_string "//out/Debug/obj/foo") []).
  - vm_compute. reflexivity.
  - reflexivity.
Defined.

Lemma GetProgrammaticValue_transparent_witness :
  fst <$> example_provider_value (example_provider_scope "//foo/")
            "target_gen_dir"
            (MkScopePerFileProvider None None None None None None
               (Some (Value_of_string "//out/Debug/gen/foo")) None)
  = Some (Some (Value_of_string "//out/Debug/gen/foo")).
Proof.
  unfold example_provider_value.
  destruct (GetProgrammaticValue_transparent string (fun s => s)
           (fun l _ => label_name l) true
           "current_toolchain" "default_toolchain" "python_path"
           "root_build_dir" "root_gen_dir" "root_out_dir" "target_gen_dir"
           "target_out_dir"
           (example_provider_scope "//foo/") ["target_gen_dir"]
           "target_gen_dir" ScopePerFileProvider_new
           (MkScopePerFileProvider None None None None None None
              (Some (Value_of_string "//out/Debug/gen/foo")) None))
    as (H & _).
  - vm_compute. reflexivity.
  - rewrite H. vm_compute. reflexivity.
Defined.

(** * The root directories as build files see them *)

Lemma DirectoryWithNoLastSlash_buf_snoc (l : list ascii) (c : ascii) :
  l ++ [c] ≠ ["/"%char] → l ++ [c] ≠ ["/"; "/"]%char →
  DirectoryWithNoLastSlash_buf (l ++ [c]) = l.
Proof.
  intros H1 H2. unfold DirectoryWithNoLastSlash_buf.
  rewrite length_app. cbn [length].
  replace (length l + 1 =? 0) with false by (symmetry; apply Nat.eqb_neq; lia).
  rewrite (bool_decide_false _ H1), (bool_decide_false _ H2).
  unfold string_resize.
  replace (length l + 1 - 1) with (length l) by lia.
  rewrite take_app_length.
  replace (length l - length (l ++ [c])) with 0
    by (rewrite length_app; simpl; lia).
  simpl. by rewrite app_nil_r.
Qed.

Lemma DirectoryWithNoLastSlash_append_slash (X : string) :
  X ≠ "" → X ≠ "/" →
  DirectoryWithNoLastSlash (String.append X "/") = X.
Proof.
  intros HX1 HX2. unfold DirectoryWithNoLastSlash.
  rewrite list_ascii_of_string_app.
  change (list_ascii_of_string "/") with ["/"%char].
  rewrite DirectoryWithNoLastSlash_buf_snoc.
  - apply string_of_list_ascii_of_string.
  - intros H. apply HX1, string_list_eq.
    destruct (list_ascii_of_string X) as [|? [|? ?]]; done.
  - intros H. apply HX2, string_list_eq.
    destruct (list_ascii_of_string X) as [|? [|? [|? ?]]]; try done.
    injection H as ->. done.
Qed.

Lemma DirectoryWithNoLastSlash_append_gen (X : string) :
  DirectoryWithNoLastSlash (String.append X "gen/") = String.append X "gen".
Proof.
  unfold DirectoryWithNoLastSlash.
  rewrite list_ascii_of_string_app.
  change (list_ascii_of_string "gen/")
    with (list_ascii_of_string "gen" ++ ["/"%char]).
  rewrite app_assoc, DirectoryWithNoLastSlash_buf_snoc.
  - by rewrite string_of_list_ascii_app, string_of_list_ascii_of_string.
  - intros H. apply (f_equal length) in H.
    rewrite !length_app in H. simpl in H. lia.
  - intros H. apply (f_equal length) in H.
    rewrite !length_app in H. simpl in H. lia.
Qed.

(** X26.  [root_gen_dir] against [root_out_dir].  Let [raw] be [build_dir]
    followed by the toolchain subdirectory.  When [raw] is some [X] followed
    by a slash, with [X] neither empty nor ["/"], [root_out_dir] (the
    toolchain output directory without its last slash) is [X] and
    [root_gen_dir] is [X/gen], a directory under it.  When [raw] is not
    empty and does not end in a slash, [root_out_dir] is [raw] and
    [root_gen_dir] is [raw] followed directly by [gen], which is not under
    it. *)
Theorem root_gen_dir_and_root_out_dir (s : DirSettings) (X : string) :
  let raw := String.append (build_dir (build_settings s))
               (toolchain_output_subdir s) in
  (raw = String.append X "/" → X ≠ "" → X ≠ "/" →
   DirectoryWithNoLastSlash (GetToolchainOutputDir s) = X
   ∧ DirectoryWithNoLastSlash (GetToolchainGenDir s) = String.append X "/gen")
  ∧ (EndsWithSlash raw = false → raw ≠ "" →
     DirectoryWithNoLastSlash (GetToolchainOutputDir s) = raw
     ∧ DirectoryWithNoLastSlash (GetToolchainGenDir s)
       = String.append raw "gen").
Proof.
  cbn zeta. rewrite GetToolchainOutputDir_raw, GetToolchainGenDir_raw.
  split.
  - intros -> HX1 HX2.
    rewrite SourceDir_SWAP_IN_id by (by apply EndsWithSlash_append).
    split; [by apply DirectoryWithNoLastSlash_append_slash|].
    by rewrite DirectoryWithNoLastSlash_append_gen, append_assoc.
  - intros Hend Hne. unfold SourceDir_SWAP_IN. rewrite Hend.
    split; [|apply DirectoryWithNoLastSlash_append_gen].
    apply DirectoryWithNoLastSlash_append_slash; [done|].
    intros H. by rewrite H in Hend.
Qed.

Lemma root_gen_dir_and_root_out_dir_witness :
  DirectoryWithNoLastSlash
    (GetToolchainOutputDir
       {| build_settings := SetBuildDir "//out/Debug/" (MkBuildSettings "" "");
          toolchain_output_subdir := "clang" |})
  = "//out/Debug/clang"
  ∧ DirectoryWithNoLastSlash
      (GetToolchainGenDir
         {| build_settings := SetBuildDir "//out/Debug/" (MkBuildSettings "" "");
            toolchain_output_subdir := "clang" |})
    = "//out/Debug/clanggen"
  ∧ DirectoryWithNoLastSlash
      (GetToolchainGenDir
         {| build_settings := SetBuildDir "//out/Debug/" (MkBuildSettings "" "");
            toolchain_output_subdir := "" |})
    = "//out/Debug/gen".
Proof.
  destruct (root_gen_dir_and_root_out_dir
       {| build_settings := SetBuildDir "//out/Debug/" (MkBuildSettings "" "");
          toolchain_output_subdir := "clang" |} "") as [_ H].
  destruct (root_gen_dir_and_root_out_dir
       {| build_settings := SetBuildDir "//out/Debug/" (MkBuildSettings "" "");
          toolchain_output_subdir := "" |} "//out/Debug") as [H' _].
  cbn zeta in H, H'.
  destruct H as [H1 H2]; [reflexivity|discriminate|].
  destruct H' as [_ H3]; [reflexivity|discriminate|discriminate|].
  split; [exact H1|]. split; [exact H2|exact H3].
Defined.
